(** * Claude Code provider: command resolution and invocation

    A shallow embedding of the command-resolution and execution code of
    [src/ai-providers/claude-code.js] and of the helpers it imports from
    [src/utils/clauderc-parser.js], with the properties the specification
    states about them.

    Conventions of the embedding.
    - A JavaScript string is a [string]; one [ascii] stands for one code
      unit below 256, so the white space of [String.prototype.trim] and of
      the regular-expression class [\s] is 9-13, 32 and 160.
    - [undefined] and [null] are [None]; a test [if (x)] on a string or on
      [undefined] is [truthy x].
    - An object used as a dictionary ([process.env], [aliases], [exports],
      [variables]) is a [gmap string string] that holds its own
      properties. A read [obj[key]] goes through [getProperty], which
      also finds the members every such object inherits from
      [Object.prototype]; a write [obj[key] = value] goes through
      [setProperty], which does nothing for the key [__proto__].
    - Mutable fields of the provider instance and the process environment
      are threaded explicitly through the functions that touch them. *)

From Stdlib Require Import ZArith Ascii String DecimalString.
From stdpp Require Import base option list gmap strings.

(* ===================================================================== *)
(** * Part I: definitions                                                 *)
(* ===================================================================== *)

(** ** JavaScript strings *)
Module Js.

(** The characters the code compares with. *)
Definition dquote : ascii := "034"%char.
Definition squote : ascii := "039"%char.
Definition backslash : ascii := "092"%char.
Definition space : ascii := "032"%char.
Definition newline : ascii := "010"%char.

(** [if (s)] for a value that is a string or [undefined]. *)
Definition truthy (o : option string) : bool :=
  match o with
  | Some s => negb (String.eqb s "")
  | None => false
  end.

(** [s.length > 0], also the test [if (s)] on a string. *)
Definition nonEmpty (s : string) : bool := negb (String.eqb s "").

(** White space of [trim] and of [\s], among the code units below 256. *)
Definition isWhiteSpace (c : ascii) : bool :=
  let n := nat_of_ascii c in
  ((9 <=? n) && (n <=? 13)) || (n =? 32) || (n =? 160).

Fixpoint trimStart (s : string) : string :=
  match s with
  | String c r => if isWhiteSpace c then trimStart r else s
  | EmptyString => EmptyString
  end.

Fixpoint trimEnd (s : string) : string :=
  match s with
  | String c r =>
      match trimEnd r with
      | EmptyString => if isWhiteSpace c then EmptyString else String c EmptyString
      | r' => String c r'
      end
  | EmptyString => EmptyString
  end.

(** [s.trim()] *)
Definition trim (s : string) : string := trimEnd (trimStart s).

Fixpoint allWhiteSpace (s : string) : bool :=
  match s with
  | EmptyString => true
  | String c r => isWhiteSpace c && allWhiteSpace r
  end.

Definition firstChar (s : string) : option ascii :=
  match s with
  | String c _ => Some c
  | EmptyString => None
  end.

(** [current += char] *)
Definition push (s : string) (c : ascii) : string := s +:+ String c "".

(** [s.startsWith(p)] *)
Definition startsWith (p s : string) : bool := String.prefix p s.

Fixpoint lastChar (s : string) : option ascii :=
  match s with
  | EmptyString => None
  | String c EmptyString => Some c
  | String _ r => lastChar r
  end.

(** A string without white space at either end. *)
Definition isTrimmed (s : string) : Prop :=
  (forall c, firstChar s = Some c -> isWhiteSpace c = false)
  /\ (forall c, lastChar s = Some c -> isWhiteSpace c = false).

(** [s.endsWith(c)] for a one-character argument. *)
Definition endsWithChar (c : ascii) (s : string) : bool :=
  match lastChar s with
  | Some d => Ascii.eqb c d
  | None => false
  end.

Fixpoint dropLast (s : string) : string :=
  match s with
  | EmptyString => EmptyString
  | String _ EmptyString => EmptyString
  | String c r => String c (dropLast r)
  end.

(** [s.slice(1, -1)]: empty when [s] has fewer than two characters. *)
Definition slice_1_m1 (s : string) : string :=
  match s with
  | EmptyString => EmptyString
  | String _ r => dropLast r
  end.

(** [s.indexOf(c)] for a one-character argument; [None] is -1. *)
Fixpoint indexOf (c : ascii) (s : string) : option nat :=
  match s with
  | EmptyString => None
  | String d r => if Ascii.eqb d c then Some 0 else S <$> indexOf c r
  end.

(** [s.lastIndexOf(c)] for a one-character argument; [None] is -1. *)
Fixpoint lastIndexOf (c : ascii) (s : string) : option nat :=
  match s with
  | EmptyString => None
  | String d r =>
      match lastIndexOf c r with
      | Some j => Some (S j)
      | None => if Ascii.eqb d c then Some 0 else None
      end
  end.

(** [s.substring(a, b)] on indices that are not negative: both are clamped
    to the length and swapped when [a > b]. *)
Definition substring (a b : nat) (s : string) : string :=
  let n := String.length s in
  let a' := a `min` n in
  let b' := b `min` n in
  let lo := a' `min` b' in
  let hi := a' `max` b' in
  String.substring lo (hi - lo) s.

(** [s.substring(a)]: from index [a] to the end. *)
Fixpoint substringFrom (a : nat) (s : string) : string :=
  match a, s with
  | O, _ => s
  | S a', String _ r => substringFrom a' r
  | S _, EmptyString => EmptyString
  end.

(** [s.includes(c)] for a one-character argument. *)
Definition includesChar (c : ascii) (s : string) : bool :=
  match indexOf c s with
  | Some _ => true
  | None => false
  end.

(** [s.split(c)] for a one-character separator: never an empty list. *)
Fixpoint splitOn (c : ascii) (s : string) : list string :=
  match s with
  | EmptyString => [EmptyString]
  | String d r =>
      if Ascii.eqb d c then EmptyString :: splitOn c r
      else match splitOn c r with
           | first :: others => String d first :: others
           | [] => [String d EmptyString]
           end
  end.

(** The class [\w] of regular expressions. *)
Definition isWordChar (c : ascii) : bool :=
  let n := nat_of_ascii c in
  ((48 <=? n) && (n <=? 57)) || ((65 <=? n) && (n <=? 90))
  || ((97 <=? n) && (n <=? 122)) || (n =? 95).

(** The longest prefix made of word characters. *)
Fixpoint wordPrefix (s : string) : string :=
  match s with
  | String c r => if isWordChar c then String c (wordPrefix r) else EmptyString
  | EmptyString => EmptyString
  end.

(** [s.toLowerCase()] on code units below 256. *)
Definition lowerChar (c : ascii) : ascii :=
  let n := nat_of_ascii c in
  if ((65 <=? n) && (n <=? 90))
     || ((192 <=? n) && (n <=? 222) && negb (n =? 215))
  then ascii_of_nat (n + 32) else c.

Fixpoint toLowerCase (s : string) : string :=
  match s with
  | EmptyString => EmptyString
  | String c r => String (lowerChar c) (toLowerCase r)
  end.

(** [parts.join(' ')] *)
Definition join (sep : string) (parts : list string) : string :=
  String.concat sep parts.

(** [`${n}`] for an integer. *)
Definition showZ (z : Z) : string := NilZero.string_of_int (Z.to_int z).

(** *** Properties of objects *)

(** What a read [obj[key]] gives on an object whose own properties are
    strings: a string, or a member inherited from [Object.prototype],
    named by its key. *)
Inductive value :=
| Str (s : string)
| Inherited (key : string).

(** The functions of [Object.prototype]; with the accessor [__proto__]
    they are the members every object inherits. *)
Definition prototypeFunctions : list string :=
  [ "constructor"; "__defineGetter__"; "__defineSetter__"; "hasOwnProperty";
    "__lookupGetter__"; "__lookupSetter__"; "isPrototypeOf";
    "propertyIsEnumerable"; "toString"; "valueOf"; "toLocaleString" ].

Definition inherited (key : string) : bool :=
  String.eqb key "__proto__" || existsb (String.eqb key) prototypeFunctions.

(** [obj[key]]: the own property when there is one, the inherited member
    otherwise; [None] is [undefined]. *)
Definition getProperty (obj : gmap string string) (key : string)
  : option value :=
  match obj !! key with
  | Some s => Some (Str s)
  | None => if inherited key then Some (Inherited key) else None
  end.

(** [obj[key] = value] for a string [value]: the setter of [__proto__]
    ignores a value that is not an object, and every other key becomes an
    own property. *)
Definition setProperty (obj : gmap string string) (key value : string)
  : gmap string string :=
  if String.eqb key "__proto__" then obj else <[key := value]> obj.

(** [if (v)] for what a read gives: a function or an object counts as
    true. *)
Definition truthyValue (o : option value) : bool :=
  match o with
  | Some (Str s) => nonEmpty s
  | Some (Inherited _) => true
  | None => false
  end.

(** [String(v)], the text a template literal, [join] and [replace] make of
    a value: the prototype object read through [__proto__] and the native
    functions have the texts the engine of Node gives them. *)
Definition text (v : value) : string :=
  match v with
  | Str s => s
  | Inherited key =>
      if String.eqb key "__proto__" then "[object Object]"
      else if String.eqb key "constructor"
      then "function Object() { [native code] }"
      else "function " +:+ key +:+ "() { [native code] }"
  end.

End Js.

(** ** The command-line tokenizer: [parseCommand] *)
Module Tokenizer.

(** The local variables of the scanning loop. *)
Record scan := Scan {
  parts : list string;
  current : string;
  inQuote : bool;
  quoteChar : option ascii;
  escapeNext : bool
}.

Definition initial : scan :=
  {| parts := []; current := ""; inQuote := false; quoteChar := None;
     escapeNext := false |}.

Definition isQuote (c : ascii) : bool :=
  Ascii.eqb c Js.dquote || Ascii.eqb c Js.squote.

(** The test on [command[i + 1]]: a double quote, a single quote or a
    backslash; [next] is [None] when [i + 1] is past the end. *)
Definition escapable (next : option ascii) : bool :=
  match next with
  | Some d =>
      Ascii.eqb d Js.dquote || Ascii.eqb d Js.squote || Ascii.eqb d Js.backslash
  | None => false
  end.

Definition sameQuote (c : ascii) (q : option ascii) : bool :=
  match q with
  | Some d => Ascii.eqb c d
  | None => false
  end.

(** One iteration of the loop, on [char = command[i]] with
    [next = command[i + 1]]. *)
Definition step (st : scan) (char : ascii) (next : option ascii) : scan :=
  if escapeNext st then
    {| parts := parts st; current := Js.push (current st) char;
       inQuote := inQuote st; quoteChar := quoteChar st;
       escapeNext := false |}
  else if Ascii.eqb char Js.backslash then
    if escapable next then
      {| parts := parts st; current := current st;
         inQuote := inQuote st; quoteChar := quoteChar st;
         escapeNext := true |}
    else
      {| parts := parts st; current := Js.push (current st) char;
         inQuote := inQuote st; quoteChar := quoteChar st;
         escapeNext := false |}
  else if isQuote char && (negb (inQuote st) || sameQuote char (quoteChar st))
  then
    if negb (inQuote st) then
      {| parts := parts st; current := current st;
         inQuote := true; quoteChar := Some char;
         escapeNext := false |}
    else
      {| parts := parts st; current := current st;
         inQuote := false; quoteChar := None;
         escapeNext := false |}
  else if Ascii.eqb char Js.space && negb (inQuote st) then
    if Js.nonEmpty (current st) then
      {| parts := parts st ++ [current st]; current := "";
         inQuote := inQuote st; quoteChar := quoteChar st;
         escapeNext := false |}
    else st
  else
    {| parts := parts st; current := Js.push (current st) char;
       inQuote := inQuote st; quoteChar := quoteChar st;
       escapeNext := false |}.

Definition peek (s : string) : option ascii :=
  match s with
  | String d _ => Some d
  | EmptyString => None
  end.

(** The loop over the remaining characters of the command. *)
Fixpoint scanFrom (st : scan) (rest : string) : scan :=
  match rest with
  | EmptyString => st
  | String c rest' => scanFrom (step st c (peek rest')) rest'
  end.

(** The same loop on a piece of the command that is followed by the
    character [after]: the state in which the loop reaches what follows. *)
Fixpoint scanWith (st : scan) (piece : string) (after : option ascii) : scan :=
  match piece with
  | EmptyString => st
  | String c piece' =>
      scanWith (step st c (match piece' with
                           | EmptyString => after
                           | String d _ => Some d
                           end)) piece' after
  end.

(** After the loop: the text still in [current] is the last part. *)
Definition flush (st : scan) : list string :=
  if Js.nonEmpty (current st) then parts st ++ [current st] else parts st.

Definition tokens (command : string) : list string :=
  flush (scanFrom initial command).

Record parsed := Parsed {
  executable : string;
  args : list string
}.

(** [parts[0] || ''] and [parts.slice(1)]. *)
Definition firstAndRest (ps : list string) : parsed :=
  {| executable := match ps with
                   | p :: _ => if Js.nonEmpty p then p else ""
                   | [] => ""
                   end;
     args := tail ps |}.

Definition parseCommand (command : string) : parsed :=
  firstAndRest (tokens command).

(** A character the scan copies whatever the state outside an escape: no
    backslash, no quote, no space. *)
Definition plainChar (c : ascii) : bool :=
  negb (Ascii.eqb c Js.backslash || isQuote c || Ascii.eqb c Js.space).

Fixpoint plainWord (s : string) : bool :=
  match s with
  | EmptyString => true
  | String c r => plainChar c && plainWord r
  end.

(** Two ways to vary a state of the scan, used to state its properties:
    more parts in front, and another text in [current]. *)
Definition prepend (p : list string) (st : scan) : scan :=
  {| parts := p ++ parts st; current := current st; inQuote := inQuote st;
     quoteChar := quoteChar st; escapeNext := escapeNext st |}.

Definition withCurrent (st : scan) (cur : string) : scan :=
  {| parts := parts st; current := cur; inQuote := inQuote st;
     quoteChar := quoteChar st; escapeNext := escapeNext st |}.

End Tokenizer.

(** ** The RC-file helpers of [clauderc-parser.js] *)
Module ClaudeRC.

(** The record [parseClaudeRC] builds. *)
Record rcdata := RcData {
  variables : gmap string string;
  aliases : gmap string string;
  exports : gmap string string;
  raw : list string
}.

(** [obj[key]] used as a condition and then as a text, as in
    [if (aliases[key]) return aliases[key]] followed by [join], in
    [process.env[key] || match] inside [replace], and in a template
    literal: the text of the value when the value counts as true. *)
Definition lookupTruthy (m : gmap string string) (key : string)
  : option string :=
  match Js.getProperty m key with
  | Some v => if Js.truthyValue (Some v) then Some (Js.text v) else None
  | None => None
  end.

(** [unquote(str)] *)
Definition unquote (str : string) : string :=
  if negb (Js.nonEmpty str) then str
  else if (Js.startsWith (String Js.dquote "") str
           && Js.endsWithChar Js.dquote str)
          || (Js.startsWith (String Js.squote "") str
              && Js.endsWithChar Js.squote str)
  then Js.slice_1_m1 str
  else str.

(** The loop of [findUnquotedChar], at index [i] with [rest] still to read. *)
Fixpoint findUnquotedFrom (char : ascii) (inSingleQuote inDoubleQuote
  escaped : bool) (i : nat) (rest : string) : option nat :=
  match rest with
  | EmptyString => None
  | String c rest' =>
      if escaped then
        findUnquotedFrom char inSingleQuote inDoubleQuote false (S i) rest'
      else if Ascii.eqb c Js.backslash then
        findUnquotedFrom char inSingleQuote inDoubleQuote true (S i) rest'
      else if Ascii.eqb c Js.squote && negb inDoubleQuote then
        findUnquotedFrom char (negb inSingleQuote) inDoubleQuote false (S i)
          rest'
      else if Ascii.eqb c Js.dquote && negb inSingleQuote then
        findUnquotedFrom char inSingleQuote (negb inDoubleQuote) false (S i)
          rest'
      else if Ascii.eqb c char && negb inSingleQuote && negb inDoubleQuote
      then Some i
      else
        findUnquotedFrom char inSingleQuote inDoubleQuote false (S i) rest'
  end.

(** [findUnquotedChar(str, char)]; [None] is -1. *)
Definition findUnquotedChar (str : string) (char : ascii) : option nat :=
  findUnquotedFrom char false false false 0 str.

(** [parseAlias(line, aliases)], returning the updated [aliases]. *)
Definition parseAlias (line : string) (als : gmap string string)
  : gmap string string :=
  let aliasContent := Js.trim (Js.substringFrom 6 line) in
  match findUnquotedChar aliasContent "="%char with
  | None => als
  | Some equalsIndex =>
      let name := Js.trim (Js.substring 0 equalsIndex aliasContent) in
      let value :=
        unquote (Js.trim (Js.substringFrom (S equalsIndex) aliasContent)) in
      if Js.nonEmpty name && Js.nonEmpty value
      then Js.setProperty als name value
      else als
  end.

(** A reference to a variable at the head of [s], as the regular
    expression of [expandVariables] matches it: a dollar and a name of at
    least one character between braces, or a dollar and a run of word
    characters. The answer is the name and the length of the match. *)
Definition matchReference (s : string) : option (string * nat) :=
  match s with
  | String "$" (String "{" r) =>
      match Js.indexOf "}"%char r with
      | Some (S n) => Some (Js.substring 0 (S n) r, S n + 3)
      | _ => None
      end
  | String "$" r =>
      let name := Js.wordPrefix r in
      if Js.nonEmpty name then Some (name, S (String.length name)) else None
  | _ => None
  end.

(** The global replacement of [expandVariables], with [skip] characters of
    the last match still to pass over. *)
Fixpoint expandFrom (env : gmap string string) (skip : nat) (s : string)
  : string :=
  match s with
  | EmptyString => EmptyString
  | String c r =>
      match skip with
      | S k => expandFrom env k r
      | O =>
          match matchReference s with
          | Some (varName, len) =>
              match lookupTruthy env varName with
              | Some value => value
              | None => Js.substring 0 len s
              end +:+ expandFrom env (len - 1) r
          | None => String c (expandFrom env 0 r)
          end
      end
  end.

(** [expandVariables(str)], reading [process.env] as [env]. *)
Definition expandVariables (env : gmap string string) (str : string)
  : string :=
  if negb (Js.nonEmpty str) then str else expandFrom env 0 str.

(** The body shared by [parseExport] and [parseVariable], on the text that
    holds the assignment. *)
Definition parseAssignment (env : gmap string string) (content : string)
  (target : gmap string string) : gmap string string :=
  match Js.indexOf "="%char content with
  | None => target
  | Some equalsIndex =>
      let name := Js.trim (Js.substring 0 equalsIndex content) in
      let value :=
        unquote (Js.trim (Js.substringFrom (S equalsIndex) content)) in
      if Js.nonEmpty name
      then Js.setProperty target name (expandVariables env value)
      else target
  end.

(** [parseExport(line, exports)] *)
Definition parseExport (env : gmap string string) (line : string)
  (exps : gmap string string) : gmap string string :=
  parseAssignment env (Js.trim (Js.substringFrom 7 line)) exps.

(** [parseVariable(line, variables)] *)
Definition parseVariable (env : gmap string string) (line : string)
  (vars : gmap string string) : gmap string string :=
  parseAssignment env line vars.

(** The dispatch of [parseClaudeRC] on one complete line. *)
Definition parseLine (env : gmap string string) (fullLine : string)
  (config : rcdata) : rcdata :=
  if Js.startsWith "alias " fullLine then
    {| variables := variables config;
       aliases := parseAlias fullLine (aliases config);
       exports := exports config; raw := raw config |}
  else if Js.startsWith "export " fullLine then
    {| variables := variables config; aliases := aliases config;
       exports := parseExport env fullLine (exports config);
       raw := raw config |}
  else if Js.includesChar "="%char fullLine
          && negb (Js.includesChar Js.space fullLine) then
    {| variables := parseVariable env fullLine (variables config);
       aliases := aliases config; exports := exports config;
       raw := raw config |}
  else
    {| variables := variables config; aliases := aliases config;
       exports := exports config; raw := raw config ++ [fullLine] |}.

(** The loop of [parseClaudeRC] over the lines still to read; [pending] is
    a line that ends with a backslash and waits for its continuation. *)
Fixpoint parseLines (env : gmap string string) (config : rcdata)
  (pending : option string) (lines : list string) : rcdata :=
  match lines with
  | [] =>
      match pending with
      | Some fullLine => parseLine env fullLine config
      | None => config
      end
  | next :: rest =>
      match pending with
      | Some fullLine =>
          let joined :=
            Js.trim (Js.dropLast fullLine) +:+ " " +:+ Js.trim next in
          if Js.endsWithChar Js.backslash joined
          then parseLines env config (Some joined) rest
          else parseLines env (parseLine env joined config) None rest
      | None =>
          let line := Js.trim next in
          if negb (Js.nonEmpty line) || Js.startsWith "#" line
          then parseLines env config None rest
          else if Js.endsWithChar Js.backslash line
          then parseLines env config (Some line) rest
          else parseLines env (parseLine env line config) None rest
      end
  end.

(** [parseClaudeRC(content)] *)
Definition parseClaudeRC (env : gmap string string) (content : string)
  : rcdata :=
  parseLines env {| variables := ∅; aliases := ∅; exports := ∅; raw := [] |}
    None (Js.splitOn Js.newline content).

(** [loadClaudeRC()] without options: the first of the standard files that
    exists and can be read. [candidates] lists them in the order of the
    search, with [None] for a file that is missing or unreadable. *)
Fixpoint loadClaudeRC (candidates : list (option string))
  (env : gmap string string) : option rcdata :=
  match candidates with
  | [] => None
  | Some content :: _ => Some (parseClaudeRC env content)
  | None :: rest => loadClaudeRC rest env
  end.

(** What [parseAlias] maintains: no alias has an empty name or an empty
    expansion. *)
Definition aliasesWellFormed (als : gmap string string) : Prop :=
  forall name value, als !! name = Some value -> name <> "" /\ value <> "".

(** The splitting loop of [applyAliases]: quote characters stay in the
    part they delimit, and there is no escape character. *)
Record splitting := Splitting {
  sparts : list string;
  scurrent : string;
  sinQuote : bool;
  squoteChar : option ascii
}.

Definition splitStep (st : splitting) (char : ascii) : splitting :=
  if Tokenizer.isQuote char
     && (negb (sinQuote st) || Tokenizer.sameQuote char (squoteChar st))
  then
    if negb (sinQuote st) then
      {| sparts := sparts st; scurrent := Js.push (scurrent st) char;
         sinQuote := true; squoteChar := Some char |}
    else
      {| sparts := sparts st; scurrent := Js.push (scurrent st) char;
         sinQuote := false; squoteChar := None |}
  else if Ascii.eqb char Js.space && negb (sinQuote st) then
    if Js.nonEmpty (scurrent st) then
      {| sparts := sparts st ++ [scurrent st]; scurrent := "";
         sinQuote := sinQuote st; squoteChar := squoteChar st |}
    else st
  else
    {| sparts := sparts st; scurrent := Js.push (scurrent st) char;
       sinQuote := sinQuote st; squoteChar := squoteChar st |}.

Fixpoint splitFrom (st : splitting) (rest : string) : splitting :=
  match rest with
  | EmptyString => st
  | String c rest' => splitFrom (splitStep st c) rest'
  end.

Definition splitParts (command : string) : list string :=
  let st := splitFrom {| sparts := []; scurrent := ""; sinQuote := false;
                         squoteChar := None |} command in
  if Js.nonEmpty (scurrent st) then sparts st ++ [scurrent st] else sparts st.

(** The callback of [parts.map]. *)
Definition expandPart (als : gmap string string) (part : string) : string :=
  match lookupTruthy als (unquote part) with
  | Some v => v
  | None => part
  end.

(** [applyAliases(command, aliases)] *)
Definition applyAliases (command : string) (als : gmap string string)
  : string :=
  if bool_decide (als = ∅) then command
  else Js.join " " (expandPart als <$> splitParts command).

(** The record [getEffectiveConfig] returns. *)
Record config := Config {
  command : option string;
  model : option string;
  cfgAliases : gmap string string;
  environment : gmap string string
}.

(** [getEffectiveConfig(rcConfig)], reading [process.env] as [env]. *)
Definition getEffectiveConfig (rc : option rcdata) (env : gmap string string)
  : config :=
  let fromRc :=
    match rc with
    | Some d =>
        {| command := lookupTruthy (variables d) "command";
           model := lookupTruthy (variables d) "model";
           cfgAliases := aliases d;
           environment := exports d |}
    | None =>
        {| command := None; model := None; cfgAliases := ∅;
           environment := ∅ |}
    end in
  let withCommand :=
    if Js.truthy (env !! "CLAUDE_CODE_COMMAND")
    then {| command := env !! "CLAUDE_CODE_COMMAND"; model := model fromRc;
            cfgAliases := cfgAliases fromRc;
            environment := environment fromRc |}
    else fromRc in
  if Js.truthy (env !! "CLAUDE_CODE_MODEL")
  then {| command := command withCommand; model := env !! "CLAUDE_CODE_MODEL";
          cfgAliases := cfgAliases withCommand;
          environment := environment withCommand |}
  else withCommand.

End ClaudeRC.

(** ** The provider: configuration caches and command resolution *)
Module Provider.
Import Tokenizer.

(** What the provider reads from outside the process:
    - [rcFiles] holds the RC files at ./.clauderc, ~/.clauderc and
      ~/.config/claude/clauderc, in this order, with [None] for a file
      that is missing or unreadable;
    - [isDarwin] is [platform() === 'darwin'] and [homePath segments] is
      [join(homedir(), ...segments)];
    - [whichClaude] is the trimmed output of the which (or where) command,
      [None] when that command fails;
    - [existsSync path] is the function of that name, and
      [accessExecutable path] tells whether
      [accessSync(path, F_OK | X_OK)] returns. *)
Record world := World {
  rcFiles : list (option string);
  isDarwin : bool;
  homePath : list string -> string;
  whichClaude : option string;
  existsSync : string -> bool;
  accessExecutable : string -> bool
}.

(** [this._rcConfig]: the effective configuration with the raw aliases
    stored next to it. *)
Record rcconfig := RcConfig {
  effective : ClaudeRC.config;
  rawAliases : gmap string string
}.

(** [this._detectedCommand]: [undefined], [false] or a path. *)
Inductive detection :=
| NotAttempted
| NotFound
| Found (path : string).

(** The mutable fields of a provider instance. *)
Record provider := Instance {
  _detectedCommand : detection;
  _rcConfig : option rcconfig;
  _rcConfigLoaded : bool
}.

(** The constructor. *)
Definition newProvider : provider :=
  {| _detectedCommand := NotAttempted; _rcConfig := None;
     _rcConfigLoaded := false |}.

Record params := Params {
  claudeCodeCommand : option string;
  modelId : option string
}.

(** The built-in table of [resolveModelAlias]. *)
Definition builtinAliases : gmap string string :=
  <["opus" := "claude-opus-4-20250514"]>
  (<["sonnet" := "claude-sonnet-4-20250514"]>
  (<["haiku" := "claude-3-haiku-20240307"]> ∅)).

(** [resolveModelAlias(modelName)] for a name that is a string or
    [undefined]. The answer is what [aliases[lowerName]] gives when that
    counts as true, which for the names [constructor] and [__proto__] is a
    member inherited by the table, not a string. *)
Definition resolveModelAlias (modelName : option string)
  : option Js.value :=
  match modelName with
  | Some name =>
      if Js.nonEmpty name then
        if Js.truthyValue (Js.getProperty builtinAliases (Js.toLowerCase name))
        then Js.getProperty builtinAliases (Js.toLowerCase name)
        else Some (Js.Str name)
      else None
  | None => None
  end.

(** [getRCConfig()]: the first call loads and merges, later calls return
    the cached record. *)
Definition getRCConfig (w : world) (env : gmap string string) (pr : provider)
  : option rcconfig * provider :=
  if _rcConfigLoaded pr then (_rcConfig pr, pr)
  else
    let loaded :=
      match ClaudeRC.loadClaudeRC (rcFiles w) env with
      | Some rcData =>
          Some {| effective := ClaudeRC.getEffectiveConfig (Some rcData) env;
                  rawAliases := ClaudeRC.aliases rcData |}
      | None => _rcConfig pr
      end in
    (loaded, {| _detectedCommand := _detectedCommand pr;
                _rcConfig := loaded; _rcConfigLoaded := true |}).

(** The candidate paths of [detectClaudeCommand]. *)
Definition commonPaths (w : world) : list string :=
  if isDarwin w then
    [ "/Applications/Claude.app/Contents/MacOS/claude";
      "/usr/local/bin/claude";
      homePath w [".claude"; "local"; "claude"];
      homePath w [".npm-global"; "bin"; "claude"];
      "/usr/local/lib/node_modules/@anthropic-ai/claude-code/dist/claude.js" ]
  else
    [ "/usr/bin/claude";
      homePath w [".claude"; "local"; "claude"];
      homePath w [".npm-global"; "bin"; "claude"];
      "/usr/lib/node_modules/@anthropic-ai/claude-code/dist/claude.js" ].

(** The loop over the candidates: the first that exists and is executable. *)
Fixpoint probe (w : world) (paths : list string) : option string :=
  match paths with
  | [] => None
  | path :: rest =>
      if existsSync w path && accessExecutable w path then Some path
      else probe w rest
  end.

Definition setDetected (pr : provider) (d : detection) : provider :=
  {| _detectedCommand := d; _rcConfig := _rcConfig pr;
     _rcConfigLoaded := _rcConfigLoaded pr |}.

(** [detectClaudeCommand()] *)
Definition detectClaudeCommand (w : world) (pr : provider)
  : option string * provider :=
  match _detectedCommand pr with
  | NotFound => (None, pr)
  | Found path => (Some path, pr)
  | NotAttempted =>
      let inPath :=
        match whichClaude w with
        | Some result =>
            if Js.nonEmpty result && existsSync w result then Some result
            else None
        | None => None
        end in
      match inPath with
      | Some result => (Some result, setDetected pr (Found result))
      | None =>
          match probe w (commonPaths w) with
          | Some path => (Some path, setDetected pr (Found path))
          | None => (None, setDetected pr NotFound)
          end
      end
  end.

(** The choice of [baseCommand], first block of [getClaudeCommand] and of
    [getClaudeCommandParsed]. *)
Definition selectBaseCommand (w : world) (env : gmap string string)
  (ps : params) (rcConfig : option rcconfig) (pr : provider)
  : option string * provider :=
  if Js.truthy (claudeCodeCommand ps) then (claudeCodeCommand ps, pr)
  else if Js.truthy (env !! "CLAUDE_CODE_COMMAND")
  then (env !! "CLAUDE_CODE_COMMAND", pr)
  else if Js.truthy (rcConfig ≫= (ClaudeRC.command ∘ effective))
  then (rcConfig ≫= (ClaudeRC.command ∘ effective), pr)
  else
    let '(detected, pr') := detectClaudeCommand w pr in
    if Js.truthy detected then (detected, pr') else (None, pr').

(** The outcome of the model block: [modelArgs] (a raw alias expansion),
    [modelToUse] (a model name), or neither. Both are held as the text
    with which they reach the command: [modelArgs] goes through a template
    literal, and [modelToUse] is pushed to the arguments, which [join] and
    [spawn] read as texts and which the code compares with strings only. *)
Inductive modelChoice :=
| ModelArgs (expansion : string)
| ModelToUse (name : string)
| NoModel.

Definition ofResolved (o : option Js.value) : modelChoice :=
  match o with
  | Some v => if Js.truthyValue (Some v) then ModelToUse (Js.text v) else NoModel
  | None => NoModel
  end.

Definition selectModel (env : gmap string string) (ps : params)
  (rcConfig : option rcconfig) : modelChoice :=
  if Js.truthy (modelId ps) then
    match rcConfig ≫= (fun rc =>
            ClaudeRC.lookupTruthy (rawAliases rc) (default "" (modelId ps)))
    with
    | Some expansion => ModelArgs expansion
    | None => ofResolved (resolveModelAlias (modelId ps))
    end
  else if Js.truthy (env !! "CLAUDE_CODE_MODEL")
  then ofResolved (resolveModelAlias (env !! "CLAUDE_CODE_MODEL"))
  else if Js.truthy (rcConfig ≫= (ClaudeRC.model ∘ effective))
  then ofResolved (resolveModelAlias (rcConfig ≫= (ClaudeRC.model ∘ effective)))
  else NoModel.

(** [baseCommand] after the aliases of the RC file are applied. *)
Definition expandBase (rcConfig : option rcconfig) (baseCommand : string)
  : string :=
  match rcConfig with
  | Some rc => ClaudeRC.applyAliases baseCommand (rawAliases rc)
  | None => baseCommand
  end.

(** The callback of [args.some] at [index], on the remaining arguments. *)
Fixpoint someModelFlagFrom (len index : nat) (rest : list string) : bool :=
  match rest with
  | [] => false
  | arg :: rest' =>
      (String.eqb arg "--model" && (index <? len - 1))
      || someModelFlagFrom len (S index) rest'
  end.

(** [hasModelFlag] *)
Definition hasModelFlag (args : list string) : bool :=
  someModelFlagFrom (length args) 0 args.

(** [finalArgs] *)
Definition finalArgs (args : list string) (choice : modelChoice)
  : list string :=
  match choice with
  | ModelArgs expansion =>
      args ++ Tokenizer.args (parseCommand ("dummy " +:+ expansion))
  | ModelToUse name =>
      if hasModelFlag args then args else args ++ ["--model"; name]
  | NoModel => args
  end.

(** The body shared by [getClaudeCommand] and [getClaudeCommandParsed],
    which differ in their last statement only. *)
Definition resolve (w : world) (env : gmap string string) (ps : params)
  (pr : provider) : option parsed * provider :=
  let '(rcConfig, pr1) := getRCConfig w env pr in
  let '(base, pr2) := selectBaseCommand w env ps rcConfig pr1 in
  match base with
  | Some baseCommand =>
      if Js.nonEmpty baseCommand then
        let choice := selectModel env ps rcConfig in
        let cmd := parseCommand (expandBase rcConfig baseCommand) in
        (Some {| executable := executable cmd;
                 args := finalArgs (args cmd) choice |}, pr2)
      else (None, pr2)
  | None => (None, pr2)
  end.

(** [getClaudeCommandParsed(params)] *)
Definition getClaudeCommandParsed (w : world) (env : gmap string string)
  (ps : params) (pr : provider) : option parsed * provider :=
  resolve w env ps pr.

(** [getClaudeCommand(params)] *)
Definition getClaudeCommand (w : world) (env : gmap string string)
  (ps : params) (pr : provider) : option string * provider :=
  let '(r, pr') := resolve w env ps pr in
  (match r with
   | Some cmd =>
       Some (executable cmd +:+
             match args cmd with
             | [] => ""
             | _ => " " +:+ Js.join " " (args cmd)
             end)
   | None => None
   end, pr').

(** The parts of one resolution, named to state its properties: the
    configuration [getRCConfig] hands to it, the base command it selects,
    and the model block's outcome. *)
Definition rcConfigOf (w : world) (env : gmap string string) (pr : provider)
  : option rcconfig :=
  (getRCConfig w env pr).1.

Definition baseCommandOf (w : world) (env : gmap string string) (ps : params)
  (pr : provider) : option string :=
  (selectBaseCommand w env ps (rcConfigOf w env pr)
     (getRCConfig w env pr).2).1.

Definition baseArgsOf (w : world) (env : gmap string string) (pr : provider)
  (baseCommand : string) : list string :=
  args (parseCommand (expandBase (rcConfigOf w env pr) baseCommand)).

(** A model name is resolved, through the built-in table, from one of the
    three places the model block reads. *)
Inductive modelResolved (env : gmap string string) (ps : params)
  (rcConfig : option rcconfig) (name : string) : Prop :=
| FromParams :
    Js.truthy (modelId ps) = true ->
    rcConfig ≫= (fun rc =>
      ClaudeRC.lookupTruthy (rawAliases rc) (default "" (modelId ps))) = None ->
    Js.text <$> resolveModelAlias (modelId ps) = Some name ->
    modelResolved env ps rcConfig name
| FromEnvironment :
    Js.truthy (modelId ps) = false ->
    Js.truthy (env !! "CLAUDE_CODE_MODEL") = true ->
    Js.text <$> resolveModelAlias (env !! "CLAUDE_CODE_MODEL") = Some name ->
    modelResolved env ps rcConfig name
| FromRCFile :
    Js.truthy (modelId ps) = false ->
    Js.truthy (env !! "CLAUDE_CODE_MODEL") = false ->
    Js.truthy (rcConfig ≫= (ClaudeRC.model ∘ effective)) = true ->
    Js.text <$> resolveModelAlias (rcConfig ≫= (ClaudeRC.model ∘ effective))
    = Some name ->
    modelResolved env ps rcConfig name.

(** The invariant of the RC cache of an instance: the aliases it holds
    come from [parseAlias], so none has an empty name or expansion. *)
Definition cacheWellFormed (pr : provider) : Prop :=
  forall rc, _rcConfig pr = Some rc ->
    ClaudeRC.aliasesWellFormed (rawAliases rc).

(** The first source that holds a value, in the order of the list. *)
Fixpoint firstAvailable (sources : list (option string)) : option string :=
  match sources with
  | [] => None
  | o :: rest => if Js.truthy o then o else firstAvailable rest
  end.

(** [isAvailable(params)] *)
Definition isAvailable (w : world) (env : gmap string string) (ps : params)
  (pr : provider) : bool * provider :=
  let '(c, pr') := getClaudeCommand w env ps pr in
  (match c with Some _ => true | None => false end, pr').

End Provider.

(** ** The executor: [executeClaudeCode] *)
Module Executor.
Import Tokenizer Provider.

(** [new Error(message)] *)
Inductive jsError := Error (message : string).

Definition message (e : jsError) : string :=
  match e with Error m => m end.

(** *** Step 1: the exports of the RC file *)

(** One iteration of the loop over [Object.entries(rcConfig.environment)]:
    the test reads [process.env[key]], which also finds the members
    [process.env] inherits, and the write sets the variable. *)
Definition applyExport (env : gmap string string) (entry : string * string)
  : gmap string string :=
  if negb (Js.truthyValue (Js.getProperty env entry.1))
  then <[entry.1 := entry.2]> env
  else env.

(** The loop; an object has each key once. *)
Definition applyExports (entries : list (string * string))
  (env : gmap string string) : gmap string string :=
  foldl applyExport env entries.

(** The first statement of [executeClaudeCode], on [process.env]. *)
Definition mergeRCEnvironment (rcConfig : option rcconfig)
  (env : gmap string string) : gmap string string :=
  match rcConfig with
  | Some rc =>
      applyExports (map_to_list (ClaudeRC.environment (effective rc))) env
  | None => env
  end.

(** *** The promise and the events of the child process *)

Inductive outcome :=
| Resolved (text : string)
| Rejected (e : jsError).

(** An exit code is a number, or [null] when a signal ended the child. *)
Definition showCode (code : option Z) : string :=
  match code with
  | Some z => Js.showZ z
  | None => "null"
  end.

Definition isZero (code : option Z) : bool :=
  match code with
  | Some z => Z.eqb z 0
  | None => false
  end.

(** What the [close] handler calls: [reject] or [resolve]. *)
Definition onClose (code : option Z) (stdout stderr : string) : outcome :=
  if negb (isZero code) then
    Rejected (Error ("Claude Code error (code " +:+ showCode code +:+ "): "
                     +:+ stderr))
  else if Js.nonEmpty stderr && negb (Js.nonEmpty stdout) then
    Rejected (Error ("Claude Code error: " +:+ stderr))
  else Resolved (Js.trim stdout).

(** The variables the executor of the promise closes over, and the state
    of the promise itself. *)
Record running := Running {
  program : string;
  arguments : list string;
  stdout : string;
  stderr : string;
  timerArmed : bool;
  childKilled : bool;
  settled : option outcome
}.

Inductive event :=
| StdoutData (data : string)
| StderrData (data : string)
| Close (code : option Z)
| ChildError (e : jsError)
| TimerFired.

(** [resolve] and [reject] act on a pending promise only. *)
Definition settle (r : running) (o : outcome) : running :=
  {| program := program r; arguments := arguments r;
     stdout := stdout r; stderr := stderr r; timerArmed := timerArmed r;
     childKilled := childKilled r;
     settled := match settled r with
                | Some done => Some done
                | None => Some o
                end |}.

Definition clearTimer (r : running) : running :=
  {| program := program r; arguments := arguments r;
     stdout := stdout r; stderr := stderr r; timerArmed := false;
     childKilled := childKilled r; settled := settled r |}.

Definition timedOut : outcome :=
  Rejected (Error "Claude Code timed out after 5 minutes").

(** The handlers registered by the executor of the promise. *)
Definition handle (r : running) (ev : event) : running :=
  match ev with
  | StdoutData data =>
      {| program := program r; arguments := arguments r;
         stdout := stdout r +:+ data; stderr := stderr r;
         timerArmed := timerArmed r; childKilled := childKilled r;
         settled := settled r |}
  | StderrData data =>
      {| program := program r; arguments := arguments r;
         stdout := stdout r; stderr := stderr r +:+ data;
         timerArmed := timerArmed r; childKilled := childKilled r;
         settled := settled r |}
  | Close code =>
      settle (clearTimer r) (onClose code (stdout r) (stderr r))
  | ChildError e => settle (clearTimer r) (Rejected e)
  | TimerFired =>
      if timerArmed r then
        settle {| program := program r; arguments := arguments r;
                  stdout := stdout r; stderr := stderr r;
                  timerArmed := false; childKilled := true;
                  settled := settled r |} timedOut
      else r
  end.

Definition deliver (r : running) (evs : list event) : running :=
  foldl handle r evs.

(** *** The synchronous part, with its [try] and [finally] *)

(** The answers of the platform to one invocation:
    - [fileReferenceNotice input] is the prompt after the two regular
      expressions of file-reference mode have replaced the embedded
      document by a notice;
    - [now] is [Date.now()] and [tmpPath name] is [join(tmpdir(), name)];
    - [canExecute path] tells whether [accessSync(path, F_OK | X_OK)]
      returns;
    - [writeFails path] and [unlinkFails path] give the exception of
      [writeFileSync] and [unlinkSync] when the system refuses the call;
    - [spawnThrows] gives the exception of [spawn] when it throws. *)
Record system := System {
  fileReferenceNotice : string -> string;
  now : Z;
  tmpPath : string -> string;
  canExecute : string -> bool;
  writeFails : string -> option jsError;
  unlinkFails : string -> option jsError;
  spawnThrows : option jsError
}.

(** The state an invocation reads and writes: [process.env], the files,
    the provider instance, and its local variable [tempFile], which the
    [finally] block reads whichever way the [try] block ends. *)
Record state := State {
  env : gmap string string;
  files : gmap string string;
  self : provider;
  tempFile : option string
}.

Inductive result (A : Type) :=
| Ok (a : A)
| Throw (e : jsError).
Arguments Ok {A} a.
Arguments Throw {A} e.

Definition M (A : Type) : Type := state -> result A * state.

Definition ret {A} (a : A) : M A := fun s => (Ok a, s).
Definition throw {A} (e : jsError) : M A := fun s => (Throw e, s).
Definition bind {A B} (m : M A) (k : A -> M B) : M B :=
  fun s => match m s with
           | (Ok a, s') => k a s'
           | (Throw e, s') => (Throw e, s')
           end.

(** [try { body } catch (e) { handler(e) }] *)
Definition tryCatch {A} (body : M A) (handler : jsError -> M A) : M A :=
  fun s => match body s with
           | (Ok a, s') => (Ok a, s')
           | (Throw e, s') => handler e s'
           end.

(** [try { body } finally { cleanup }]: the cleanup runs on both ways out,
    and an exception of the cleanup replaces the outcome of the body. *)
Definition tryFinally {A} (body : M A) (cleanup : M unit) : M A :=
  fun s => match body s with
           | (r, s') =>
               match cleanup s' with
               | (Ok _, s'') => (r, s'')
               | (Throw e, s'') => (Throw e, s'')
               end
           end.

Declare Scope exec_scope.
Delimit Scope exec_scope with exec.
Notation "x <- m ;; k" := (bind m (fun x => k))
  (at level 100, m at next level, right associativity) : exec_scope.
Notation "m ;;; k" := (bind m (fun _ => k))
  (at level 100, right associativity) : exec_scope.
Local Open Scope exec_scope.

Definition getEnv (key : string) : M (option string) :=
  fun s => (Ok (env s !! key), s).

Definition setTempFile (path : string) : M unit :=
  fun s => (Ok (), {| env := env s; files := files s; self := self s;
                      tempFile := Some path |}).

Definition getTempFile : M (option string) :=
  fun s => (Ok (tempFile s), s).

(** [writeFileSync(path, content, 'utf8')] *)
Definition writeFileSync (sy : system) (path content : string) : M unit :=
  fun s => match writeFails sy path with
           | Some e => (Throw e, s)
           | None => (Ok (), {| env := env s;
                                files := <[path := content]> (files s);
                                self := self s; tempFile := tempFile s |})
           end.

(** [unlinkSync(path)]: fails when the file is missing or the system
    refuses. *)
Definition unlinkSync (sy : system) (path : string) : M unit :=
  fun s => match unlinkFails sy path, files s !! path with
           | Some e, _ => (Throw e, s)
           | None, None =>
               (Throw (Error ("ENOENT: no such file or directory, unlink '"
                              +:+ path +:+ "'")), s)
           | None, Some _ => (Ok (), {| env := env s;
                                        files := delete path (files s);
                                        self := self s;
                                        tempFile := tempFile s |})
           end.

Definition nl : string := String Js.newline "".

Definition notFoundMessage : string :=
  "Claude Code not found. Please install Claude Code:" +:+ nl +:+
  "  - Download from: https://claude.ai/code" +:+ nl +:+
  "  - Install via npm: npm install -g @anthropic-ai/claude-code" +:+ nl +:+
  "  - Or set CLAUDE_CODE_COMMAND environment variable" +:+ nl +:+
  "  - Or create a .clauderc file with your configuration" +:+ nl +:+
  "  - Example: export CLAUDE_CODE_COMMAND=" +:+ String Js.dquote "/path/to/claude"
  +:+ String Js.dquote "".

Definition notExecutableMessage (claudePath : string) : string :=
  "Claude Code not found or not executable at: " +:+ claudePath +:+
  ". Please check your CLAUDE_CODE_COMMAND environment variable.".

(** [args.includes(x)] *)
Definition includes (x : string) (l : list string) : bool :=
  existsb (String.eqb x) l.

(** The print flag goes first when neither form is present. *)
Definition withPrintFlag (parsedArgs : list string) : list string :=
  if negb (includes "-p" parsedArgs) && negb (includes "--print" parsedArgs)
  then "-p" :: parsedArgs else parsedArgs.

(** The name of the temporary file. *)
Definition tempFileOf (sy : system) : string :=
  tmpPath sy ("claude-prompt-" +:+ Js.showZ (now sy) +:+ ".txt").

(** The executor of the promise: it spawns the child, arms the timer and
    registers the handlers; an exception inside it rejects the promise.
    The stream that [createReadStream(tempFile)] pipes to the input of the
    child is not part of the embedding: it raises none of the events
    below and does not act on the promise; an error event of its own, as
    when the file is gone before the stream opens it, has no listener. *)
Definition startChild (sy : system) (claudePath : string)
  (args : list string) : running :=
  match spawnThrows sy with
  | Some e => {| program := claudePath; arguments := args;
                 stdout := ""; stderr := ""; timerArmed := false;
                 childKilled := false; settled := Some (Rejected e) |}
  | None => {| program := claudePath; arguments := args;
               stdout := ""; stderr := ""; timerArmed := true;
               childKilled := false; settled := None |}
  end.

(** The [try] block. *)
Definition tryBlock (sy : system) (input : string)
  (parsedCommand : option parsed) : M running :=
  match parsedCommand with
  | None => throw (Error notFoundMessage)
  | Some cmd =>
      flag <- getEnv "CLAUDE_CODE_USE_FILE_REFERENCE" ;;
      let useFileReference := bool_decide (flag = Some "true") in
      let actualInput :=
        if useFileReference then fileReferenceNotice sy input else input in
      let claudePath := executable cmd in
      let args := withPrintFlag (args cmd) in
      if negb (canExecute sy claudePath)
      then throw (Error (notExecutableMessage claudePath))
      else
        setTempFile (tempFileOf sy) ;;;
        writeFileSync sy (tempFileOf sy) actualInput ;;;
        ret (startChild sy claudePath args)
  end.

(** The [finally] block. *)
Definition finallyBlock (sy : system) : M unit :=
  t <- getTempFile ;;
  if Js.truthy t
  then tryCatch (unlinkSync sy (default "" t)) (fun _ => ret ())
  else ret ().

(** The first statements of [executeClaudeCode]: the exports of the RC
    file go to [process.env], then the command is resolved. *)
Definition prepare (w : world) (options : params) : M (option parsed) :=
  fun s =>
    let '(rcConfig, pr1) := getRCConfig w (env s) (self s) in
    let env1 := mergeRCEnvironment rcConfig (env s) in
    let '(parsedCommand, pr2) := getClaudeCommandParsed w env1 options pr1 in
    (Ok parsedCommand, {| env := env1; files := files s; self := pr2;
                          tempFile := None |}).

(** [executeClaudeCode(input, options)] up to its [return]: the value is
    the promise the [try] block returns, or the exception it throws. *)
Definition executeClaudeCode (w : world) (sy : system) (input : string)
  (options : params) : M running :=
  parsedCommand <- prepare w options ;;
  tryFinally
    (tryCatch (tryBlock sy input parsedCommand) (fun error => throw error))
    (finallyBlock sy).

(** The promise of the [async] function once the events [evs] of the child
    have been handled: it follows the promise returned by the [try] block,
    or is rejected with the exception. [None] is a promise still pending. *)
Definition completion (r : result running) (evs : list event)
  : option outcome :=
  match r with
  | Ok promise => settled (deliver promise evs)
  | Throw e => Some (Rejected e)
  end.

(** A whole invocation: the outcome seen by the caller and the state left
    behind. *)
Definition invocation (w : world) (sy : system) (input : string)
  (options : params) (evs : list event) (s : state)
  : option outcome * state :=
  let '(r, s') := executeClaudeCode w sy input options s in
  (completion r evs, s').

End Executor.

(** ** Object generation: the parsing half of [generateObject] *)
Module ObjectGen.
Import Executor.

(** The scanner of a global replacement of a literal marker followed by
    [\s*] with the empty string: [Copy] outside a match, [Skip n] with [n]
    characters of the marker still to drop, [Space] inside the white space
    that follows a marker. *)
Inductive mode :=
| Copy
| Skip (n : nat)
| Space.

Definition afterDrop (n : nat) : mode :=
  match n with
  | O => Space
  | S _ => Skip n
  end.

Fixpoint removeFrom (marker : string) (m : mode) (s : string) : string :=
  match s with
  | EmptyString => EmptyString
  | String c r =>
      let copy :=
        if String.prefix marker s
        then removeFrom marker (afterDrop (String.length marker - 1)) r
        else String c (removeFrom marker Copy r) in
      match m with
      | Skip n => removeFrom marker (afterDrop (n - 1)) r
      | Space => if Js.isWhiteSpace c then removeFrom marker Space r else copy
      | Copy => copy
      end
  end.

(** [s.replace(/marker\s*/g, '')] for a marker without special characters. *)
Definition removeMarker (marker s : string) : string :=
  removeFrom marker Copy s.

(** The two replacements of the code: fences that open a json block, then
    the remaining fences. *)
Definition stripFences (s : string) : string :=
  removeMarker "```" (removeMarker "```json" s).

(** The text between the first opening and the last closing brace, when
    both are found. *)
Definition betweenBraces (jsonText : string) : string :=
  match Js.indexOf "{"%char jsonText, Js.lastIndexOf "}"%char jsonText with
  | Some firstBrace, Some lastBrace =>
      Js.substring firstBrace (lastBrace + 1) jsonText
  | _, _ => jsonText
  end.

(** The string handed to [JSON.parse]. *)
Definition jsonCandidate (text : string) : string :=
  betweenBraces (stripFences (Js.trim text)).

(** The wording of the specification, for comparison with
    [jsonCandidate]: the fence markers, and nothing else, are deleted from
    the generated text, those that open a json block first and the others
    after, and the part from the first opening to the last closing brace
    is taken. [skip] counts the characters of a marker still to drop. *)
Fixpoint deleteFrom (marker : string) (skip : nat) (s : string) : string :=
  match s with
  | EmptyString => EmptyString
  | String c r =>
      match skip with
      | S n => deleteFrom marker n r
      | O =>
          if String.prefix marker s
          then deleteFrom marker (String.length marker - 1) r
          else String c (deleteFrom marker 0 r)
      end
  end.

Definition markersDeleted (s : string) : string :=
  deleteFrom "```" 0 (deleteFrom "```json" 0 s).

Definition wordedCandidate (text : string) : string :=
  betweenBraces (markersDeleted text).

Record usage := Usage {
  promptTokens : Z;
  completionTokens : Z;
  totalTokens : Z
}.

(** What [generateText] returns. *)
Record textResult := TextResult {
  text : string;
  textUsage : usage
}.

Section Parsing.

(** The values of JSON, and [JSON.parse]: a value, or the message of the
    [SyntaxError] it throws. *)
Variable json : Type.
Variable JSON_parse : string -> json + string.

(** [handleError(operation, error)] of the base provider, given by the
    exception it throws. *)
Variable handleError : string -> jsError -> jsError.

Record objectResult := ObjectResult {
  object : json;
  objectUsage : usage;
  requestId : string;
  responseTime : Z
}.

(** The inner [try] of [generateObject], on the result of [generateText]. *)
Definition parseResponse (rid : string) (elapsed : Z) (tr : textResult)
  : result objectResult :=
  match JSON_parse (jsonCandidate (text tr)) with
  | inl parsedObject =>
      Ok {| object := parsedObject; objectUsage := textUsage tr;
            requestId := rid; responseTime := elapsed |}
  | inr parseErrorMessage =>
      Throw (Error ("Failed to parse JSON from Claude Code response: "
                    +:+ parseErrorMessage))
  end.

(** [generateObject] from the point where [generateText] has answered:
    what the outer [catch] receives goes through [handleError]. *)
Definition generateObject (rid : string) (elapsed : Z)
  (answer : result textResult) : result objectResult :=
  let inner :=
    match answer with
    | Ok tr => parseResponse rid elapsed tr
    | Throw e => Throw e
    end in
  match inner with
  | Ok r => Ok r
  | Throw e => Throw (handleError "object generation" e)
  end.

End Parsing.

End ObjectGen.

(** ** Concrete configurations *)
Module Scenarios.
Import Provider.

(** A machine without an RC file and without an installed executable. *)
Definition bareWorld : world :=
  {| rcFiles := [None; None; None];
     isDarwin := false;
     homePath := fun segments => "/home/dev/" +:+ Js.join "/" segments;
     whichClaude := None;
     existsSync := fun _ => false;
     accessExecutable := fun _ => false |}.

(** The same machine with an RC file in the home directory that sets
    [command], defines the aliases [fast] and [opus] and exports a
    variable. *)
Definition rcContent : string :=
  "# Claude Code configuration" +:+ Executor.nl +:+
  "command=/rc/claude" +:+ Executor.nl +:+
  "alias fast=" +:+ String Js.dquote "--model haiku --verbose"
    +:+ String Js.dquote "" +:+ Executor.nl +:+
  "alias opus=" +:+ String Js.dquote "--model opus"
    +:+ String Js.dquote "" +:+ Executor.nl +:+
  "export CLAUDE_CODE_TIMEOUT=300000" +:+ Executor.nl.

Definition rcFile : ClaudeRC.rcdata := ClaudeRC.parseClaudeRC ∅ rcContent.

Definition rcWorld : world :=
  {| rcFiles := [None; Some rcContent; None];
     isDarwin := false;
     homePath := fun segments => "/home/dev/" +:+ Js.join "/" segments;
     whichClaude := None;
     existsSync := fun _ => false;
     accessExecutable := fun _ => false |}.

Definition noParams : params :=
  {| claudeCodeCommand := None; modelId := None |}.

Definition fastParams : params :=
  {| claudeCodeCommand := None; modelId := Some "fast" |}.

(** Environments: a command that already names a model together with a
    default model, and a command without a model. *)
Definition sonnetEnv : gmap string string :=
  <["CLAUDE_CODE_COMMAND" := "claude --model claude-3-5-sonnet"]>
  (<["CLAUDE_CODE_MODEL" := "opus"]> ∅).

Definition plainEnv : gmap string string :=
  <["CLAUDE_CODE_COMMAND" := "claude -p"]> ∅.

Definition modelEnv : gmap string string :=
  <["CLAUDE_CODE_COMMAND" := "claude --model sonnet"]> ∅.

(** The cached configuration of an instance that has read [rcFile] while
    the environment held nothing of interest. *)
Definition rcCached : rcconfig :=
  {| effective := ClaudeRC.getEffectiveConfig (Some rcFile) ∅;
     rawAliases := ClaudeRC.aliases rcFile |}.

(** An environment where the variable the RC file exports is set, to the
    empty string. *)
Definition emptyTimeoutEnv : gmap string string :=
  <["CLAUDE_CODE_TIMEOUT" := ""]> ∅.

(** An environment where that variable holds a value. *)
Definition shortTimeoutEnv : gmap string string :=
  <["CLAUDE_CODE_TIMEOUT" := "1000"]> ∅.

(** A child that has written to both streams and has not ended yet. *)
Definition chattyChild : Executor.running :=
  {| Executor.program := "/usr/bin/claude"; Executor.arguments := ["-p"];
     Executor.stdout := " partial answer ";
     Executor.stderr := "usage limit";
     Executor.timerArmed := true; Executor.childKilled := false;
     Executor.settled := None |}.

(** An operating system that lets every call succeed. *)
Definition calmSystem : Executor.system :=
  {| Executor.fileReferenceNotice := fun input => input;
     Executor.now := 1700000000000%Z;
     Executor.tmpPath := fun name => "/tmp/" +:+ name;
     Executor.canExecute := fun _ => true;
     Executor.writeFails := fun _ => None;
     Executor.unlinkFails := fun _ => None;
     Executor.spawnThrows := None |}.

(** The state of a process that has just created its provider, with the
    executable named in the environment. *)
Definition startState : Executor.state :=
  {| Executor.env := <["CLAUDE_CODE_COMMAND" := "/usr/bin/claude"]> ∅;
     Executor.files := ∅;
     Executor.self := newProvider;
     Executor.tempFile := None |}.

(** An answer that wraps its JSON in a fence and in prose. *)
Definition fencedAnswer : string :=
  "Here is the object you asked for:" +:+ Executor.nl +:+
  "```json" +:+ Executor.nl +:+
  "{" +:+ String Js.dquote "a" +:+ String Js.dquote ":1}" +:+ Executor.nl +:+
  "```" +:+ Executor.nl +:+
  "Let me know if you need anything else.".

Definition fencedObject : string :=
  "{" +:+ String Js.dquote "a" +:+ String Js.dquote ":1}".

(** An answer whose object holds a fence marker, followed by two spaces,
    inside a string. *)
Definition markdownObject (inner : string) : string :=
  "{" +:+ String Js.dquote "md" +:+ String Js.dquote ": "
  +:+ String Js.dquote inner +:+ String Js.dquote "}".

Definition markdownAnswer : string := markdownObject "a ```  b".

(** A command made of one space. *)
Definition blankParams : params :=
  {| claudeCodeCommand := Some " "; modelId := None |}.

End Scenarios.

(** ** Shapes of text, used to state properties of the two scanners *)
Module Shapes.

(** A word the tokenizer copies as it is: not empty, and without space,
    quote or backslash. *)
Definition plainToken (s : string) : bool :=
  Js.nonEmpty s && Tokenizer.plainWord s.

(** A text that can stand between two quotes [q]: it holds neither [q]
    nor a backslash. *)
Fixpoint quotable (q : ascii) (s : string) : bool :=
  match s with
  | EmptyString => true
  | String c r =>
      negb (Ascii.eqb c q) && negb (Ascii.eqb c Js.backslash) && quotable q r
  end.

Fixpoint allSpaces (s : string) : bool :=
  match s with
  | EmptyString => true
  | String c r => Ascii.eqb c Js.space && allSpaces r
  end.

(** A text without quote and without backslash. *)
Fixpoint quoteFree (s : string) : bool :=
  match s with
  | EmptyString => true
  | String c r =>
      negb (Tokenizer.isQuote c) && negb (Ascii.eqb c Js.backslash)
      && quoteFree r
  end.

(** A word the splitting loop of [applyAliases] copies as it is: not
    empty, and without space or quote. *)
Fixpoint unbroken (s : string) : bool :=
  match s with
  | EmptyString => true
  | String c r =>
      negb (Tokenizer.isQuote c) && negb (Ascii.eqb c Js.space) && unbroken r
  end.

Definition plainPart (s : string) : bool := Js.nonEmpty s && unbroken s.

(** A name as the RC file writes it on the left of an equals sign: not
    empty, without white space, quote, backslash or equals sign. *)
Fixpoint nameChars (s : string) : bool :=
  match s with
  | EmptyString => true
  | String c r =>
      negb (Js.isWhiteSpace c) && negb (Tokenizer.isQuote c)
      && negb (Ascii.eqb c Js.backslash) && negb (Ascii.eqb c "=")
      && nameChars r
  end.

Definition plainName (s : string) : bool := Js.nonEmpty s && nameChars s.

(** A run of word characters, as [\w+] matches it. *)
Fixpoint wordChars (s : string) : bool :=
  match s with
  | EmptyString => true
  | String c r => Js.isWordChar c && wordChars r
  end.

(** A line of the RC file that is read: not blank and not a comment. *)
Definition isStatement (line : string) : bool :=
  Js.nonEmpty line && negb (Js.startsWith "#" line).

(** A line that does not ask for its continuation. *)
Definition complete (line : string) : bool :=
  negb (Js.endsWithChar Js.backslash (Js.trim line)).

(** No entry of the object has the empty string as its key. *)
Definition named (m : gmap string string) : Prop :=
  forall key value, m !! key = Some value -> key <> "".

End Shapes.

(** ** What the child has written, read off its events *)
Module Streams.
Import Executor.

Definition isData (ev : event) : bool :=
  match ev with
  | StdoutData _ | StderrData _ => true
  | _ => false
  end.

(** The chunks of each stream, one after the other. *)
Fixpoint stdoutOf (evs : list event) : string :=
  match evs with
  | [] => ""
  | StdoutData data :: rest => data +:+ stdoutOf rest
  | _ :: rest => stdoutOf rest
  end.

Fixpoint stderrOf (evs : list event) : string :=
  match evs with
  | [] => ""
  | StderrData data :: rest => data +:+ stderrOf rest
  | _ :: rest => stderrOf rest
  end.

End Streams.

(** ** Searching a text *)
Module Text.

(** [s.includes(needle)] *)
Fixpoint includesText (needle s : string) : bool :=
  String.prefix needle s
  || match s with
     | EmptyString => false
     | String _ r => includesText needle r
     end.

(** A character of the text against a letter of a regular expression with
    the flag [i]. *)
Definition sameLetter (c letter : ascii) : bool :=
  Ascii.eqb (Js.lowerChar c) letter.

(** The longest prefix without a full stop, as [[^.]+] takes it. *)
Fixpoint untilStop (s : string) : string :=
  match s with
  | EmptyString => EmptyString
  | String c r => if Ascii.eqb c "." then EmptyString else String c (untilStop r)
  end.

End Text.

(** ** The methods that generate text and objects *)
Module Generation.
Import Tokenizer Provider Executor ObjectGen.

(** An element of [params.messages]. *)
Record chatMessage := ChatMessage {
  role : string;
  content : string
}.

(** The callback of [messages.map] in [generateText]. *)
Definition formatMessage (msg : chatMessage) : string :=
  if String.eqb (role msg) "system" then "System: " +:+ content msg
  else if String.eqb (role msg) "user" then "Human: " +:+ content msg
  else if String.eqb (role msg) "assistant" then "Assistant: " +:+ content msg
  else "".

(** The prompt of [generateText], for an array that is not empty. *)
Definition formatPrompt (messages : list chatMessage) : string :=
  let prompt := Js.join (nl +:+ nl) (formatMessage <$> messages) in
  match last messages with
  | Some lastMessage =>
      if negb (String.eqb (role lastMessage) "assistant")
      then prompt +:+ nl +:+ nl +:+ "Assistant:"
      else prompt
  | None => prompt
  end.

(** What [generateText] returns. *)
Record textResponse := TextResponse {
  responseText : string;
  responseUsage : usage;
  textRequestId : string;
  textResponseTime : Z
}.

Definition noUsage : usage :=
  {| promptTokens := 0; completionTokens := 0; totalTokens := 0 |}.

(** The part of it that [generateObject] reads. *)
Definition asTextResult (r : textResponse) : textResult :=
  {| text := responseText r; textUsage := responseUsage r |}.

(** The text [generateObject] appends to the last message. *)
Definition instruction (objectName : string) : string :=
  nl +:+ nl +:+
  "IMPORTANT: Your response MUST be valid JSON that matches this structure: "
  +:+ objectName +:+ nl +:+ nl +:+
  "Respond ONLY with the JSON object, no explanation, no markdown, just the raw JSON.".

(** The messages after [lastMessage.content += ...]. The copy
    [[...messages]] holds the message objects of the caller's array, so
    this is also what the caller's array holds from then on. *)
Definition withInstruction (objectName : string) (messages : list chatMessage)
  : list chatMessage :=
  match last messages with
  | Some lastMessage =>
      if String.eqb (role lastMessage) "user"
      then removelast messages
           ++ [ {| role := role lastMessage;
                   content := content lastMessage +:+ instruction objectName |} ]
      else messages
  | None => messages
  end.

Section Generating.

(** [handleError(operation, error)] of the base provider, given by the
    exception it throws. *)
Variable handleError : string -> jsError -> jsError.

(** [generateText(params)] with [params.messages] an array: the promise it
    returns once the events [evs] of the child have been handled, [None]
    while it is pending. [rid] is the identifier drawn for the request and
    [elapsed] the time measured. Of [params] the method reads [messages]
    and [modelId] only. *)
Definition generateText (w : world) (sy : system) (rid : string)
  (elapsed : Z) (ps : params) (messages : list chatMessage) (evs : list event)
  (s : state) : option (result textResponse) * state :=
  match messages with
  | [] =>
      (Some (Throw (handleError "text generation"
                      (Error "Messages array is required for text generation."))),
       s)
  | _ :: _ =>
      let '(o, s') :=
        invocation w sy (formatPrompt messages)
          {| claudeCodeCommand := None; modelId := modelId ps |} evs s in
      (match o with
       | Some (Resolved result) =>
           Some (Ok {| responseText := result; responseUsage := noUsage;
                       textRequestId := rid; textResponseTime := elapsed |})
       | Some (Rejected error) =>
           Some (Throw (handleError "text generation" error))
       | None => None
       end, s')
  end.

(** The values of JSON, and [JSON.parse]. *)
Variable json : Type.
Variable JSON_parse : string -> json + string.

(** What a call of [generateObject] leaves: the promise, the state, and
    the messages of the caller's array. *)
Record objectCall := ObjectCall {
  promise : option (result (objectResult json));
  after : state;
  callerMessages : list chatMessage
}.

(** [generateObject(params)] with [params.messages] an array; [textRid]
    and [textElapsed] are the identifier and the time of the inner call of
    [generateText]. *)
Definition callGenerateObject (w : world) (sy : system) (rid : string)
  (elapsed : Z) (textRid : string) (textElapsed : Z) (ps : params)
  (objectName : option string) (messages : list chatMessage) (evs : list event)
  (s : state) : objectCall :=
  let modifiedMessages :=
    withInstruction (default "object" objectName) messages in
  let '(answer, s') :=
    generateText w sy textRid textElapsed ps modifiedMessages evs s in
  {| promise :=
       match answer with
       | Some (Ok textResult) =>
           Some (ObjectGen.generateObject json JSON_parse handleError rid
                   elapsed (Ok (asTextResult textResult)))
       | Some (Throw error) =>
           Some (ObjectGen.generateObject json JSON_parse handleError rid
                   elapsed (Throw error))
       | None => None
       end;
     after := s';
     callerMessages := modifiedMessages |}.

End Generating.

End Generation.

(** ** The validation of the setup *)
Module Validation.
Import Tokenizer Provider Executor Text.

Inductive errorType :=
| INSTALL
| PERMISSION
| SUBSCRIPTION
| NETWORK
| UNKNOWN.

Record validationError := ValidationError {
  type : errorType;
  errorText : string;
  fixText : string
}.

(** What [validate] returns; a warning has a type and a message. *)
Record validation := Validation {
  isValid : bool;
  errors : list validationError;
  warnings : list (string * string)
}.

(** [accessSync(path, F_OK | X_OK)] as [validate] sees it: it returns, or
    throws an error with a code and a message. *)
Inductive accessResult :=
| Accessible
| AccessError (code : string) (accessMessage : string).

(** [error.message || error.toString()] for an [Error]. *)
Definition errorMessageOf (error : jsError) : string :=
  if Js.nonEmpty (message error) then message error else "Error".

(** The regular expression [/resets? (?:at|in) ([^.]+)/i] tried at the
    head of [s]: the text of its group. *)
Definition resetHere (s : string) : option string :=
  match s with
  | String c1 (String c2 (String c3 (String c4 (String c5 rest)))) =>
      if sameLetter c1 "r" && sameLetter c2 "e" && sameLetter c3 "s"
         && sameLetter c4 "e" && sameLetter c5 "t"
      then
        let afterS :=
          match rest with
          | String c6 rest' => if sameLetter c6 "s" then rest' else rest
          | EmptyString => rest
          end in
        match afterS with
        | String sp1 (String a (String b (String sp2 tail))) =>
            if Ascii.eqb sp1 Js.space
               && ((sameLetter a "a" && sameLetter b "t")
                   || (sameLetter a "i" && sameLetter b "n"))
               && Ascii.eqb sp2 Js.space && Js.nonEmpty (untilStop tail)
            then Some (untilStop tail)
            else None
        | _ => None
        end
      else None
  | _ => None
  end.

(** [errorMessage.match(...)]: the group of the first match. *)
Fixpoint resetMatch (s : string) : option string :=
  match resetHere s with
  | Some group => Some group
  | None =>
      match s with
      | EmptyString => None
      | String _ r => resetMatch r
      end
  end.

(** The error [validate] records for an exception of the test prompt. *)
Definition classify (error : jsError) : validationError :=
  let errorMessage := errorMessageOf error in
  if String.eqb (message error) "TIMEOUT" then
    {| type := SUBSCRIPTION;
       errorText := "Claude Code did not respond within 30 seconds";
       fixText := "Ensure you have an active Claude PRO or MAX subscription" |}
  else if includesText "usage limit" errorMessage
          || includesText "rate limit" errorMessage then
    let resetInfo :=
      match resetMatch errorMessage with
      | Some group => " (resets " +:+ group +:+ ")"
      | None => ""
      end in
    {| type := SUBSCRIPTION;
       errorText := "Usage limit reached" +:+ resetInfo;
       fixText := "Wait for limit reset or upgrade your Claude subscription" |}
  else if includesText "ENETUNREACH" errorMessage
          || includesText "network" errorMessage then
    {| type := NETWORK;
       errorText := "Network unreachable";
       fixText := "Check your internet connection and try again" |}
  else if includesText "EACCES" errorMessage then
    {| type := PERMISSION;
       errorText := "Permission denied: " +:+ errorMessage;
       fixText := "Check file permissions or run with elevated privileges" |}
  else if includesText "ENOENT" errorMessage then
    {| type := INSTALL;
       errorText := "Claude Code executable not found during execution";
       fixText := "Reinstall Claude Code: npm install -g @anthropic-ai/claude-code" |}
  else
    {| type := UNKNOWN;
       errorText := "Claude Code error: " +:+ errorMessage;
       fixText := "Check Claude Code logs or try reinstalling" |}.

(** The error recorded when the access check throws. *)
Definition accessFailure (executable code accessMessage : string)
  : validationError :=
  if String.eqb code "ENOENT" then
    {| type := INSTALL;
       errorText := "Claude Code not found at: " +:+ executable;
       fixText := "Install Claude Code: npm install -g @anthropic-ai/claude-code" |}
  else if String.eqb code "EACCES" then
    {| type := PERMISSION;
       errorText := "Permission denied for: " +:+ executable;
       fixText := "Make executable: sudo chmod +x " +:+ executable |}
  else
    {| type := UNKNOWN;
       errorText := "Cannot access Claude Code: " +:+ accessMessage;
       fixText := "Check installation and permissions" |}.

Definition invalid (e : validationError) : validation :=
  {| isValid := false; errors := [e]; warnings := [] |}.

Definition notInstalled : validationError :=
  {| type := INSTALL;
     errorText := "Claude Code not found";
     fixText := "Install Claude Code: npm install -g @anthropic-ai/claude-code" |}.

(** [validate(params)]. [evs] are the events of the child of the test
    prompt that arrive before the timer of 30 seconds: when they leave the
    promise of [executeClaudeCode] pending, the race is won by the timer.
    Nothing in the outer [try] throws past the inner handlers, so its
    [catch] is not entered. *)
Definition validate (w : world) (sy : system)
  (accessSync : string -> accessResult) (ps : params) (evs : list event)
  (s : state) : validation * state :=
  let '(command, pr1) := getClaudeCommand w (env s) ps (self s) in
  let s1 := {| env := env s; files := files s; self := pr1;
               tempFile := tempFile s |} in
  if negb (Js.truthy command) then (invalid notInstalled, s1)
  else
    let executable := executable (parseCommand (default "" command)) in
    match accessSync executable with
    | AccessError code accessMessage =>
        (invalid (accessFailure executable code accessMessage), s1)
    | Accessible =>
        let '(o, s2) :=
          invocation w sy "Hi"
            {| claudeCodeCommand := None; modelId := None |} evs s1 in
        (match o with
         | Some (Resolved _) =>
             {| isValid := true; errors := []; warnings := [] |}
         | Some (Rejected error) => invalid (classify error)
         | None => invalid (classify (Error "TIMEOUT"))
         end, s2)
    end.

(** [checkSetup(params)] *)
Definition checkSetup := validate.

End Validation.

(** ** The provider of claude-cli.js *)
Module ClaudeCli.
Import Executor Text Generation.

(** One turn of the loop of [formatPrompt]. *)
Definition appendMessage (prompt : string) (msg : chatMessage) : string :=
  if String.eqb (role msg) "system"
  then prompt +:+ "System: " +:+ content msg +:+ nl +:+ nl
  else if String.eqb (role msg) "user"
  then prompt +:+ "User: " +:+ content msg +:+ nl +:+ nl
  else if String.eqb (role msg) "assistant"
  then prompt +:+ "Assistant: " +:+ content msg +:+ nl +:+ nl
  else prompt.

(** [formatPrompt(messages)] of this provider. *)
Definition cliFormatPrompt (messages : list chatMessage) : string :=
  Js.trim (foldl appendMessage "" messages) +:+ nl +:+ nl +:+ "Assistant:".

(** [executeClaudeCli] up to the call of [execAsync]: the command line it
    runs, from the value of CLAUDE_CLI_COMMAND, or the exception. *)
Definition commandLine (command : option string) : result string :=
  if negb (Js.truthy command)
  then Throw (Error "CLAUDE_CLI_COMMAND environment variable is not set")
  else
    let command := default "" command in
    if negb (includesText " -p" command)
       && negb (includesText "--print" command)
    then Ok (command +:+ " -p")
    else Ok command.

End ClaudeCli.

(** ** The RC file the code proposes *)
Module Defaults.
Import Executor.

Definition quoted (s : string) : string :=
  String Js.dquote (s +:+ String Js.dquote "").

(** [createDefaultClaudeRC()] *)
Definition createDefaultClaudeRC : string :=
  Js.join nl
    [ "# Claude Code configuration";
      "# This file uses bash-like syntax for developer-friendly configuration";
      "";
      "# Command path (auto-detected if not specified)";
      "# command=/usr/local/bin/claude";
      "";
      "# Default model (use simplified names: opus, sonnet, or haiku)";
      "model=sonnet";
      "";
      "# Model aliases for quick switching";
      "alias opus=" +:+ quoted "--model opus";
      "alias sonnet=" +:+ quoted "--model sonnet";
      "alias haiku=" +:+ quoted "--model haiku";
      "";
      "# Shortcuts for common configurations";
      "alias fast=" +:+ quoted "--model haiku";
      "alias creative=" +:+ quoted "--model opus";
      "alias balanced=" +:+ quoted "--model sonnet";
      "";
      "# Development shortcuts (if supported by Claude Code)";
      "alias debug=" +:+ quoted "--verbose";
      "alias quiet=" +:+ quoted "-p" +:+ "  # Print mode only";
      "";
      "# Task-specific presets";
      "alias code=" +:+ quoted "--model sonnet";
      "alias docs=" +:+ quoted "--model opus";
      "alias quick=" +:+ quoted "--model haiku";
      "";
      "# MCP configurations (if using Model Context Protocol)";
      "alias mcp=" +:+ quoted "--mcp-config ~/.claude/mcp.json";
      "alias mcp-read="
        +:+ quoted "--mcp-config ~/.claude/mcp.json --allowedTools 'Read,Grep,Glob'";
      "";
      "# Environment variables";
      "export CLAUDE_CODE_TIMEOUT=300000";
      "export CLAUDE_CODE_USE_FILE_REFERENCE=false";
      "";
      "# Example custom aliases (uncomment to use)";
      "# alias myproject="
        +:+ quoted "--model opus --mcp-config ~/projects/my-project/mcp.json";
      "# alias test=" +:+ quoted "--model haiku";
      "" ].

End Defaults.

(* ===================================================================== *)
(** * Part II: properties                                                 *)
(* ===================================================================== *)

(** ** Strings *)
Module JsFacts.
Import Js.

Lemma app_cons (c : ascii) (s t : string) :
  String c s +:+ t = String c (s +:+ t).
Proof. reflexivity. Qed.

Lemma app_nil_l (s : string) : "" +:+ s = s.
Proof. reflexivity. Qed.

Lemma app_nil_r (s : string) : s +:+ "" = s.
Proof. induction s as [|c s IH]; [done|]. by rewrite app_cons, IH. Qed.

Lemma app_assoc (s t u : string) : (s +:+ t) +:+ u = s +:+ (t +:+ u).
Proof. induction s as [|c s IH]; [done|]. by rewrite !app_cons, IH. Qed.

Lemma push_app (s t : string) (c : ascii) :
  push (s +:+ t) c = s +:+ push t c.
Proof. unfold push. apply app_assoc. Qed.

Lemma app_push (s t : string) (c : ascii) :
  push s c +:+ t = s +:+ String c t.
Proof. unfold push. by rewrite app_assoc. Qed.

Lemma nonEmpty_true (s : string) : nonEmpty s = true <-> s <> "".
Proof.
  unfold nonEmpty. destruct (String.eqb_spec s ""); split; naive_solver.
Qed.

Lemma nonEmpty_false (s : string) : nonEmpty s = false <-> s = "".
Proof.
  unfold nonEmpty. destruct (String.eqb_spec s ""); split; naive_solver.
Qed.

Lemma push_nonEmpty (s : string) (c : ascii) : nonEmpty (push s c) = true.
Proof. by destruct s. Qed.

Lemma truthy_Some (o : option string) :
  truthy o = true <-> exists s, o = Some s /\ s <> "".
Proof.
  destruct o as [s|]; simpl.
  - fold (nonEmpty s). rewrite nonEmpty_true. split.
    + intros H. by exists s.
    + by intros (t & [= ->] & H).
  - split; [done|]. by intros (t & H & _).
Qed.

End JsFacts.

(** ** The tokenizer *)
Module TokenizerFacts.
Import Js JsFacts Tokenizer.

Lemma step_prepend p st c next :
  step (prepend p st) c next = prepend p (step st c next).
Proof.
  destruct st as [ps cur q qc e]. unfold step, prepend; simpl.
  destruct e; [done|].
  destruct (Ascii.eqb c backslash); [by destruct (escapable next)|].
  destruct (isQuote c && _); [by destruct q|].
  destruct (Ascii.eqb c space && _); [|done].
  destruct (nonEmpty cur); [|done].
  simpl. by rewrite (assoc_L (++)).
Qed.

Lemma scanFrom_prepend p rest : forall st,
  scanFrom (prepend p st) rest = prepend p (scanFrom st rest).
Proof.
  induction rest as [|c rest IH]; intros st; simpl; [done|].
  by rewrite step_prepend, IH.
Qed.

Lemma flush_prepend p st : flush (prepend p st) = p ++ flush st.
Proof.
  unfold flush, prepend; simpl. case_match; by rewrite ?(assoc_L (++)).
Qed.

(** Every part the scan has pushed is a non-empty string. *)
Lemma step_parts_nonEmpty st c next :
  Forall (fun t => t <> "") (parts st) ->
  Forall (fun t => t <> "") (parts (step st c next)).
Proof.
  destruct st as [ps cur q qc e]. unfold step; simpl. intros H.
  destruct e; [done|].
  destruct (Ascii.eqb c backslash); [by destruct (escapable next)|].
  destruct (isQuote c && _); [by destruct q|].
  destruct (Ascii.eqb c space && _); [|done].
  destruct (nonEmpty cur) eqn:E; [|done].
  simpl. apply Forall_app. split; [done|]. constructor; [|done].
  by apply nonEmpty_true.
Qed.

Lemma scanFrom_parts_nonEmpty rest : forall st,
  Forall (fun t => t <> "") (parts st) ->
  Forall (fun t => t <> "") (parts (scanFrom st rest)).
Proof.
  induction rest as [|c rest IH]; intros st H; simpl; [done|].
  by apply IH, step_parts_nonEmpty.
Qed.

Lemma tokens_nonEmpty command : Forall (fun t => t <> "") (tokens command).
Proof.
  unfold tokens, flush.
  assert (Forall (fun t => t <> "") (parts (scanFrom initial command))) as H.
  { apply scanFrom_parts_nonEmpty. constructor. }
  destruct (nonEmpty (current (scanFrom initial command))) eqn:E; [|done].
  apply Forall_app. split; [done|]. constructor; [|done].
  by apply nonEmpty_true.
Qed.

(** The tokens of a command that starts with the word dummy and a space. *)
Lemma tokens_dummy (v : string) : tokens ("dummy " +:+ v) = "dummy" :: tokens v.
Proof.
  unfold tokens.
  change (scanFrom initial ("dummy " +:+ v))
    with (scanFrom (prepend ["dummy"] initial) v).
  by rewrite scanFrom_prepend, flush_prepend.
Qed.

Lemma parseCommand_dummy (v : string) :
  args (parseCommand ("dummy " +:+ v)) = tokens v.
Proof. unfold parseCommand. by rewrite tokens_dummy. Qed.

(** [parseCommand] in terms of the tokens. *)
Lemma parseCommand_cons command t ts :
  tokens command = t :: ts ->
  parseCommand command = {| executable := t; args := ts |}.
Proof.
  intros E. unfold parseCommand, firstAndRest. rewrite E. simpl.
  pose proof (tokens_nonEmpty command) as H. rewrite E in H.
  apply Forall_cons in H as [H _]. apply nonEmpty_true in H. by rewrite H.
Qed.

Lemma parseCommand_nil command :
  tokens command = [] ->
  parseCommand command = {| executable := ""; args := [] |}.
Proof. intros E. unfold parseCommand, firstAndRest. by rewrite E. Qed.

Lemma escapable_true c :
  escapable (Some c) = true <-> c = dquote \/ c = squote \/ c = backslash.
Proof.
  unfold escapable. rewrite !orb_true_iff, !Ascii.eqb_eq. tauto.
Qed.

Lemma escapable_false c :
  escapable (Some c) = false <-> c <> dquote /\ c <> squote /\ c <> backslash.
Proof.
  rewrite <-not_true_iff_false, escapable_true. tauto.
Qed.

(** The step on a backslash outside an escape. *)
Lemma step_backslash st next :
  escapeNext st = false ->
  step st backslash next
  = if escapable next
    then {| parts := parts st; current := current st; inQuote := inQuote st;
            quoteChar := quoteChar st; escapeNext := true |}
    else withCurrent st (push (current st) backslash).
Proof.
  destruct st as [ps cur q qc e]; simpl. intros ->. unfold step; simpl.
  by destruct (escapable next).
Qed.

(** The step inside an escape. *)
Lemma step_escaped ps cur q qc c next :
  step {| parts := ps; current := cur; inQuote := q; quoteChar := qc;
          escapeNext := true |} c next
  = {| parts := ps; current := push cur c; inQuote := q; quoteChar := qc;
       escapeNext := false |}.
Proof. reflexivity. Qed.

(** The step on a plain character outside an escape. *)
Lemma step_plain st c next :
  plainChar c = true -> escapeNext st = false ->
  step st c next = withCurrent st (push (current st) c).
Proof.
  destruct st as [ps cur q qc e]; simpl. intros Hc ->.
  unfold plainChar in Hc. apply negb_true_iff in Hc.
  apply orb_false_iff in Hc as [Hc Hs]. apply orb_false_iff in Hc as [Hb Hq].
  unfold step; simpl. by rewrite Hb, Hq, Hs.
Qed.

Lemma scanFrom_plain a : forall st rest,
  plainWord a = true -> escapeNext st = false ->
  scanFrom st (a +:+ rest) = scanFrom (withCurrent st (current st +:+ a)) rest.
Proof.
  induction a as [|c a IH]; intros st rest Ha He.
  - rewrite app_nil_r. by destruct st; simpl in *; subst.
  - simpl in Ha. apply andb_true_iff in Ha as [Hc Ha].
    rewrite app_cons. simpl. rewrite step_plain by done.
    rewrite IH by done. simpl. by rewrite app_push.
Qed.

(** The scan of a command goes through the state reached at each of its
    positions: the properties of [scanFrom] on a state and a remaining text
    apply at every backslash of every command. *)
Lemma scanFrom_app pre : forall st suf,
  scanFrom st (pre +:+ suf) = scanFrom (scanWith st pre (peek suf)) suf.
Proof.
  induction pre as [|c pre IH]; intros st suf; [done|].
  rewrite app_cons. simpl. rewrite IH. by destruct pre.
Qed.

Lemma scanFrom_backslash_space st q :
  escapeNext st = false -> inQuote st = false ->
  scanFrom st (String backslash (String space q))
  = scanFrom {| parts := parts st ++ [push (current st) backslash];
                current := ""; inQuote := false;
                quoteChar := quoteChar st; escapeNext := false |} q.
Proof.
  intros He Hq.
  change (scanFrom st (String backslash (String space q)))
    with (scanFrom (step (step st backslash (Some space)) space (peek q)) q).
  rewrite step_backslash by done.
  replace (escapable (Some space)) with false by done.
  destruct st as [ps cur iq qc e]; simpl in *; subst.
  unfold step; simpl. by rewrite push_nonEmpty.
Qed.

(** C4. At a backslash that the scan meets outside an escape: when the
    next character is a double quote, a single quote or a backslash, the
    backslash is dropped and that character is appended to the current
    token as it is; when the next character is anything else, or when the
    input ends there, the backslash itself is appended. In particular, a
    backslash before a space outside quotes ends up as the last character
    of the token, which the space then closes: for a word [a] without
    special characters, the input [a], backslash, space, [rest] has the
    tokens [a] with a backslash, then those of [rest]. *)
Theorem backslash_escapes (st : scan) (rest : string) :
  escapeNext st = false ->
  (forall c, c = dquote \/ c = squote \/ c = backslash ->
     scanFrom st (String backslash (String c rest))
     = scanFrom (withCurrent st (push (current st) c)) rest)
  /\ (forall c, c <> dquote /\ c <> squote /\ c <> backslash ->
     scanFrom st (String backslash (String c rest))
     = scanFrom (withCurrent st (push (current st) backslash))
         (String c rest))
  /\ scanFrom st (String backslash "")
     = withCurrent st (push (current st) backslash)
  /\ (inQuote st = false ->
      scanFrom st (String backslash (String space rest))
      = scanFrom {| parts := parts st ++ [push (current st) backslash];
                    current := ""; inQuote := false;
                    quoteChar := quoteChar st; escapeNext := false |} rest)
  /\ (forall a, plainWord a = true ->
      tokens (a +:+ String backslash (String space rest))
      = push a backslash :: tokens rest).
Proof.
  intros He.
  repeat split.
  - intros c Hc.
    change (scanFrom st (String backslash (String c rest)))
      with (scanFrom (step (step st backslash (Some c)) c (peek rest)) rest).
    rewrite step_backslash by done.
    apply escapable_true in Hc. rewrite Hc.
    destruct st as [ps cur q qc e]; simpl in *; subst.
    by rewrite step_escaped.
  - intros c Hc.
    change (scanFrom st (String backslash (String c rest)))
      with (scanFrom (step st backslash (Some c)) (String c rest)).
    rewrite step_backslash by done.
    apply escapable_false in Hc. by rewrite Hc.
  - change (scanFrom st (String backslash ""))
      with (step st backslash None).
    by rewrite step_backslash.
  - by apply scanFrom_backslash_space.
  - intros a Ha. unfold tokens.
    rewrite scanFrom_plain by done.
    rewrite scanFrom_backslash_space by done. simpl.
    rewrite app_nil_l.
    change {| parts := [push a backslash]; current := ""; inQuote := false;
              quoteChar := None; escapeNext := false |}
      with (prepend [push a backslash] initial).
    by rewrite scanFrom_prepend, flush_prepend.
Qed.

(** The theorem at the start of a scan of [\ b]. *)
Lemma backslash_escapes_witness :
  escapeNext initial = false
  /\ scanFrom initial (String backslash (String space "b"))
     = scanFrom {| parts := [String backslash ""]; current := "";
                   inQuote := false; quoteChar := None;
                   escapeNext := false |} "b".
Proof.
  split; [reflexivity|].
  apply (proj1 (proj2 (proj2 (proj2 (backslash_escapes initial "b" eq_refl))))).
  reflexivity.
Defined.

End TokenizerFacts.

(** ** The RC-file helpers *)
Module ClaudeRCFacts.
Import Js JsFacts ClaudeRC.

(** A read finds an own property first; a write makes one, except for
    the key [__proto__]. *)
Lemma setProperty_proto obj value : setProperty obj "__proto__" value = obj.
Proof. reflexivity. Qed.

Lemma setProperty_insert obj key value :
  key <> "__proto__" -> setProperty obj key value = <[key := value]> obj.
Proof.
  intros H. unfold setProperty. apply String.eqb_neq in H. by rewrite H.
Qed.

Lemma lookup_setProperty obj key value k v :
  setProperty obj key value !! k = Some v ->
  (k = key /\ v = value) \/ obj !! k = Some v.
Proof.
  unfold setProperty. destruct (String.eqb key "__proto__"); [by right|].
  rewrite lookup_insert. case_decide as Hk; [|by right].
  intros [= <-]. by left.
Qed.

(** The text of a value that counts as true: an own property that is not
    empty, or an inherited member. *)
Lemma lookupTruthy_Some m key v :
  lookupTruthy m key = Some v <->
  (m !! key = Some v /\ v <> "")
  \/ (m !! key = None /\ inherited key = true /\ v = text (Inherited key)).
Proof.
  unfold lookupTruthy, getProperty. destruct (m !! key) as [u|].
  - cbn [truthyValue text]. destruct (nonEmpty u) eqn:E.
    + apply nonEmpty_true in E. split.
      * intros [= <-]. by left.
      * by intros [[[= <-] _]|[? _]].
    + apply nonEmpty_false in E. split; [done|].
      by intros [[[= <-] H]|[? _]].
  - destruct (inherited key); cbn [truthyValue].
    + split.
      * intros [= <-]. by right.
      * by intros [[? _]|(_ & _ & ->)].
    + split; [done|]. by intros [[? _]|(_ & ? & _)].
Qed.

Lemma lookupTruthy_own m key v :
  m !! key = Some v -> v <> "" -> lookupTruthy m key = Some v.
Proof. intros H Hv. apply lookupTruthy_Some. by left. Qed.

(** For a key that names no inherited member the read sees the own
    properties only. *)
Lemma lookupTruthy_plain m key :
  inherited key = false ->
  lookupTruthy m key
  = match m !! key with
    | Some v => if nonEmpty v then Some v else None
    | None => None
    end.
Proof.
  intros H. unfold lookupTruthy, getProperty. rewrite H.
  by destruct (m !! key).
Qed.

Lemma lookupTruthy_read m key :
  lookupTruthy m key
  = match m !! key with
    | Some v => if nonEmpty v then Some v else None
    | None => if inherited key then Some (text (Inherited key)) else None
    end.
Proof.
  unfold lookupTruthy, getProperty. destruct (m !! key) as [v|]; [done|].
  by destruct (inherited key).
Qed.

Lemma lookupTruthy_inherited m key :
  m !! key = None -> inherited key = true ->
  lookupTruthy m key = Some (text (Inherited key)).
Proof. intros H Hi. apply lookupTruthy_Some. by right. Qed.

Lemma aliasesWellFormed_empty : aliasesWellFormed ∅.
Proof. intros name value H. by rewrite lookup_empty in H. Qed.

(** Every alias [parseAlias] records has a name and an expansion. *)
Lemma parseAlias_wellFormed line als :
  aliasesWellFormed als -> aliasesWellFormed (parseAlias line als).
Proof.
  intros Hwf. unfold parseAlias.
  destruct (findUnquotedChar _ _) as [equalsIndex|]; [|done].
  destruct (nonEmpty _ && nonEmpty _) eqn:E; [|done].
  apply andb_true_iff in E as [Hn Hv].
  apply nonEmpty_true in Hn, Hv.
  intros name value H.
  apply lookup_setProperty in H as [[-> ->]|H]; [done|by apply (Hwf name)].
Qed.

Lemma parseLine_wellFormed env fullLine config :
  aliasesWellFormed (aliases config) ->
  aliasesWellFormed (aliases (parseLine env fullLine config)).
Proof.
  intros Hwf. unfold parseLine.
  destruct (startsWith "alias " fullLine); simpl;
    [by apply parseAlias_wellFormed|].
  destruct (startsWith "export " fullLine); simpl; [done|].
  by destruct (includesChar _ _ && _).
Qed.

Lemma parseLines_wellFormed env lines : forall config pending,
  aliasesWellFormed (aliases config) ->
  aliasesWellFormed (aliases (parseLines env config pending lines)).
Proof.
  induction lines as [|next rest IH]; intros config pending Hwf; simpl.
  - destruct pending; [by apply parseLine_wellFormed|done].
  - destruct pending as [fullLine|].
    + destruct (endsWithChar _ _); apply IH; [done|].
      by apply parseLine_wellFormed.
    + destruct (negb _ || _); [by apply IH|].
      destruct (endsWithChar _ _); apply IH; [done|].
      by apply parseLine_wellFormed.
Qed.

(** Every alias of a parsed RC file has a name and an expansion. *)
Lemma parseClaudeRC_aliases_wellFormed env content :
  aliasesWellFormed (aliases (parseClaudeRC env content)).
Proof. apply parseLines_wellFormed, aliasesWellFormed_empty. Qed.

Lemma loadClaudeRC_aliases_wellFormed candidates env d :
  loadClaudeRC candidates env = Some d -> aliasesWellFormed (aliases d).
Proof.
  induction candidates as [|[content|] rest IH]; simpl; [done| |done].
  intros [= <-]. apply parseClaudeRC_aliases_wellFormed.
Qed.

Lemma lookupTruthy_wellFormed als name value :
  aliasesWellFormed als -> als !! name = Some value ->
  lookupTruthy als name = Some value.
Proof.
  intros Hwf H. apply lookupTruthy_own; [done|]. by apply (Hwf name value).
Qed.

End ClaudeRCFacts.

(** ** Command resolution *)
Module ProviderFacts.
Import Js JsFacts Tokenizer TokenizerFacts ClaudeRC ClaudeRCFacts Provider.

(** What a successful resolution returns, in terms of its parts. *)
Lemma resolve_Some w env ps pr r pr' :
  resolve w env ps pr = (Some r, pr') ->
  exists baseCommand,
    baseCommandOf w env ps pr = Some baseCommand
    /\ baseCommand <> ""
    /\ executable r
       = executable (parseCommand (expandBase (rcConfigOf w env pr) baseCommand))
    /\ args r
       = finalArgs (baseArgsOf w env pr baseCommand)
           (selectModel env ps (rcConfigOf w env pr)).
Proof.
  unfold resolve, baseCommandOf, baseArgsOf, rcConfigOf.
  destruct (getRCConfig w env pr) as [rcConfig pr1]; simpl.
  destruct (selectBaseCommand w env ps rcConfig pr1) as [[base|] pr2]; simpl;
    [|done].
  destruct (nonEmpty base) eqn:E; [|done].
  intros [= <- <-]. exists base. by apply nonEmpty_true in E.
Qed.

Lemma resolve_None w env ps pr :
  (resolve w env ps pr).1 = None <->
  (forall baseCommand,
     baseCommandOf w env ps pr = Some baseCommand -> baseCommand = "").
Proof.
  unfold resolve, baseCommandOf, rcConfigOf.
  destruct (getRCConfig w env pr) as [rcConfig pr1]; simpl.
  destruct (selectBaseCommand w env ps rcConfig pr1) as [[base|] pr2]; simpl;
    [|done].
  destruct (nonEmpty base) eqn:E; simpl.
  - apply nonEmpty_true in E. split; [done|]. intros H. by destruct E; apply H.
  - apply nonEmpty_false in E. split; [|done]. by intros _ ? [= <-].
Qed.

(** The flag test of [args.some]: the flag stands at a position that is
    not the last. *)
Lemma someModelFlagFrom_true len rest : forall index,
  someModelFlagFrom len index rest = true <->
  exists j, rest !! j = Some "--model" /\ S (index + j) < len.
Proof.
  induction rest as [|arg rest IH]; intros index; simpl.
  - split; [done|]. by intros (j & H & _).
  - rewrite orb_true_iff, andb_true_iff, String.eqb_eq, Nat.ltb_lt, IH.
    split.
    + intros [[-> H]|(j & H & Hlt)].
      * exists 0. split; [done|lia].
      * exists (S j). split; [done|lia].
    + intros ([|j] & H & Hlt); simpl in H.
      * left. injection H as ->. split; [done|lia].
      * right. exists j. split; [done|lia].
Qed.

Lemma hasModelFlag_true (l : list string) :
  hasModelFlag l = true <->
  exists i, l !! i = Some "--model" /\ S i < length l.
Proof. unfold hasModelFlag. by rewrite someModelFlagFrom_true. Qed.

Lemma hasModelFlag_false (l : list string) :
  hasModelFlag l = false <->
  forall i, l !! i = Some "--model" -> S i = length l.
Proof.
  rewrite <-not_true_iff_false, hasModelFlag_true. split.
  - intros H i Hi. pose proof (lookup_lt_Some _ _ _ Hi).
    destruct (decide (S i = length l)) as [|Hne]; [done|].
    destruct H. exists i. split; [done|lia].
  - intros H (i & Hi & Hlt). specialize (H i Hi). lia.
Qed.

(** The built-in table answers a name with a value that counts as true. *)
Lemma resolveModelAlias_truthy o :
  truthy o = true ->
  exists v, resolveModelAlias o = Some v /\ truthyValue (Some v) = true.
Proof.
  intros H. apply truthy_Some in H as (s & -> & Hs). cbn [resolveModelAlias].
  apply nonEmpty_true in Hs as Hs'. rewrite Hs'.
  destruct (truthyValue (getProperty builtinAliases (toLowerCase s))) eqn:E.
  - destruct (getProperty builtinAliases (toLowerCase s)) as [v|]; [|done].
    by exists v.
  - by exists (Str s).
Qed.

Lemma ofResolved_text o name :
  truthyValue o = true -> text <$> o = Some name ->
  ofResolved o = ModelToUse name.
Proof.
  destruct o as [v|]; [|done]. cbn [ofResolved fmap option_fmap option_map].
  by intros -> [= <-].
Qed.

Lemma ofResolved_ModelToUse o name :
  ofResolved o = ModelToUse name -> text <$> o = Some name.
Proof.
  destruct o as [v|]; [|done]. cbn [ofResolved].
  destruct (truthyValue (Some v)); [|done]. by intros [= <-].
Qed.

(** The model block answers with a model name exactly in the three cases
    of [modelResolved]. *)
Lemma selectModel_ModelToUse env ps rcConfig name :
  modelResolved env ps rcConfig name <->
  selectModel env ps rcConfig = ModelToUse name.
Proof.
  unfold selectModel. split.
  - intros [H1 H2 H3|H1 H2 H3|H1 H2 H3 H4].
    + rewrite H1, H2.
      destruct (resolveModelAlias_truthy _ H1) as (v & Hv & Ht).
      apply ofResolved_text; [by rewrite Hv|done].
    + rewrite H1, H2.
      destruct (resolveModelAlias_truthy _ H2) as (v & Hv & Ht).
      apply ofResolved_text; [by rewrite Hv|done].
    + rewrite H1, H2, H3.
      destruct (resolveModelAlias_truthy _ H3) as (v & Hv & Ht).
      apply ofResolved_text; [by rewrite Hv|done].
  - destruct (truthy (modelId ps)) eqn:H1.
    { destruct (rcConfig ≫= _) as [expansion|] eqn:H2; [done|].
      intros H. apply ofResolved_ModelToUse in H. by apply FromParams. }
    destruct (truthy (env !! "CLAUDE_CODE_MODEL")) eqn:H2.
    { intros H. apply ofResolved_ModelToUse in H. by apply FromEnvironment. }
    destruct (truthy (rcConfig ≫= _)) eqn:H3; [|done].
    intros H. apply ofResolved_ModelToUse in H. by apply FromRCFile.
Qed.

(** Auto-detection reads the detection cache of the instance only. *)
Lemma detectClaudeCommand_cache w pr1 pr2 :
  _detectedCommand pr1 = _detectedCommand pr2 ->
  (detectClaudeCommand w pr1).1 = (detectClaudeCommand w pr2).1.
Proof.
  unfold detectClaudeCommand. intros <-.
  destruct (_detectedCommand pr1); [|done..].
  destruct (match whichClaude w with Some _ => _ | None => _ end); [done|].
  by destruct (probe w (commonPaths w)).
Qed.

Lemma detected_or_null (found : option string * provider) :
  (let '(detected, pr') := found in
   if truthy detected then (detected, pr') else (None, pr')).1
  = if truthy found.1 then found.1 else None.
Proof. destruct found as [d p]; simpl. by destruct (truthy d). Qed.

(** The base command on any instance: the third source is the command of
    the configuration the instance has cached. *)
Lemma base_command_precedence w env ps pr :
  baseCommandOf w env ps pr
  = firstAvailable
      [ claudeCodeCommand ps;
        env !! "CLAUDE_CODE_COMMAND";
        rcConfigOf w env pr ≫= (command ∘ effective);
        (detectClaudeCommand w (getRCConfig w env pr).2).1 ].
Proof.
  unfold baseCommandOf, selectBaseCommand. simpl.
  repeat (destruct (truthy _); [done|]).
  by rewrite detected_or_null.
Qed.

(** The command a fresh instance caches is the command variable of the RC
    file only while CLAUDE_CODE_COMMAND holds no value. *)
Lemma cached_command_fresh w env pr :
  _rcConfigLoaded pr = false -> _rcConfig pr = None ->
  rcConfigOf w env pr ≫= (command ∘ effective)
  = if truthy (env !! "CLAUDE_CODE_COMMAND")
    then loadClaudeRC (rcFiles w) env ≫= (fun _ => env !! "CLAUDE_CODE_COMMAND")
    else loadClaudeRC (rcFiles w) env
           ≫= (fun d => lookupTruthy (variables d) "command").
Proof.
  intros Hl Hc. unfold rcConfigOf, getRCConfig. rewrite Hl, Hc. simpl.
  destruct (loadClaudeRC (rcFiles w) env) as [d|]; simpl;
    [|by destruct (truthy _)].
  unfold getEffectiveConfig.
  destruct (truthy (env !! "CLAUDE_CODE_COMMAND"));
    by destruct (truthy (env !! "CLAUDE_CODE_MODEL")).
Qed.

(** On an instance that has not read its RC configuration yet, the base
    command is the first available of the four sources, in their order. *)
Lemma base_command_precedence_fresh w env ps pr :
  _rcConfigLoaded pr = false -> _rcConfig pr = None ->
  baseCommandOf w env ps pr
  = firstAvailable
      [ claudeCodeCommand ps;
        env !! "CLAUDE_CODE_COMMAND";
        loadClaudeRC (rcFiles w) env
          ≫= (fun d => lookupTruthy (variables d) "command");
        (detectClaudeCommand w pr).1 ].
Proof.
  intros Hl Hc. unfold baseCommandOf, rcConfigOf, getRCConfig.
  rewrite Hl, Hc. unfold selectBaseCommand; simpl.
  destruct (truthy (claudeCodeCommand ps)); [done|].
  destruct (truthy (env !! "CLAUDE_CODE_COMMAND")) eqn:He; [done|].
  assert ((match loadClaudeRC (rcFiles w) env with
           | Some rcData =>
               Some {| effective := getEffectiveConfig (Some rcData) env;
                       rawAliases := aliases rcData |}
           | None => None
           end) ≫= (command ∘ effective)
          = loadClaudeRC (rcFiles w) env
              ≫= (fun d => lookupTruthy (variables d) "command"))
    as ->.
  { destruct (loadClaudeRC (rcFiles w) env) as [d|]; [|done]. simpl.
    unfold getEffectiveConfig. rewrite He.
    by destruct (truthy (env !! "CLAUDE_CODE_MODEL")). }
  destruct (truthy (loadClaudeRC (rcFiles w) env ≫= _)); [done|].
  rewrite detected_or_null. by rewrite (detectClaudeCommand_cache w _ pr).
Qed.

(** On such an instance resolution answers [null] exactly when none of the
    four sources holds a value. *)
Lemma resolution_null_fresh w env ps pr :
  _rcConfigLoaded pr = false -> _rcConfig pr = None ->
  (getClaudeCommandParsed w env ps pr).1 = None <->
  firstAvailable
    [ claudeCodeCommand ps;
      env !! "CLAUDE_CODE_COMMAND";
      loadClaudeRC (rcFiles w) env
        ≫= (fun d => lookupTruthy (variables d) "command");
      (detectClaudeCommand w pr).1 ] = None.
Proof.
  intros Hl Hc. unfold getClaudeCommandParsed.
  rewrite resolve_None, base_command_precedence_fresh by done.
  assert (forall l b, firstAvailable l = Some b -> b <> "") as Hne.
  { induction l as [|o l IH]; intros b; simpl; [done|].
    destruct (truthy o) eqn:E; [|by apply IH].
    intros ->. by apply truthy_Some in E as (? & [= <-] & ?). }
  split.
  - intros H. destruct (firstAvailable _) as [b|] eqn:E; [|done].
    specialize (Hne _ _ E). by destruct Hne; apply H.
  - by intros -> ?.
Qed.

(** C1. The precedence of the four command sources fails on an instance
    that has resolved a command before: with an RC file that sets the
    command to /rc/claude, a first resolution made while
    CLAUDE_CODE_COMMAND is /env/claude stores that value in the cached
    configuration, and a second resolution made after the variable is
    removed answers /env/claude, although the first available source is
    then the RC file with /rc/claude. *)
Theorem stale_environment_command :
  let env1 : gmap string string := <["CLAUDE_CODE_COMMAND" := "/env/claude"]> ∅ in
  let env2 : gmap string string := ∅ in
  let pr1 := (getClaudeCommand Scenarios.rcWorld env1 Scenarios.noParams
                newProvider).2 in
  (getClaudeCommand Scenarios.rcWorld env2 Scenarios.noParams pr1).1
    = Some "/env/claude"
  /\ (getClaudeCommandParsed Scenarios.rcWorld env2 Scenarios.noParams pr1).1
     = Some {| executable := "/env/claude"; args := [] |}
  /\ baseCommandOf Scenarios.rcWorld env2 Scenarios.noParams pr1
     = Some "/env/claude"
  /\ firstAvailable
       [ claudeCodeCommand Scenarios.noParams;
         env2 !! "CLAUDE_CODE_COMMAND";
         loadClaudeRC (rcFiles Scenarios.rcWorld) env2
           ≫= (fun d => lookupTruthy (variables d) "command");
         (detectClaudeCommand Scenarios.rcWorld pr1).1 ]
     = Some "/rc/claude".
Proof. vm_compute. done. Qed.

(** The invariant of the RC cache holds at construction and is kept by
    every resolution. *)
Lemma newProvider_wellFormed : cacheWellFormed newProvider.
Proof. by intros rc. Qed.

Lemma getRCConfig_wellFormed w env pr :
  cacheWellFormed pr ->
  cacheWellFormed (getRCConfig w env pr).2
  /\ forall rc, rcConfigOf w env pr = Some rc ->
       aliasesWellFormed (rawAliases rc).
Proof.
  intros Hwf. unfold rcConfigOf, getRCConfig.
  destruct (_rcConfigLoaded pr); simpl; [done|].
  destruct (loadClaudeRC (rcFiles w) env) as [d|] eqn:E.
  - apply loadClaudeRC_aliases_wellFormed in E.
    split; intros rc [= <-]; done.
  - done.
Qed.

Lemma detectClaudeCommand_rcConfig w pr :
  _rcConfig (detectClaudeCommand w pr).2 = _rcConfig pr.
Proof.
  unfold detectClaudeCommand. destruct (_detectedCommand pr); [|done..].
  destruct (match whichClaude w with Some _ => _ | None => _ end); [done|].
  by destruct (probe w (commonPaths w)).
Qed.

Lemma resolve_wellFormed w env ps pr :
  cacheWellFormed pr -> cacheWellFormed (resolve w env ps pr).2.
Proof.
  intros Hwf. apply (getRCConfig_wellFormed w env) in Hwf as [Hwf _].
  unfold resolve. destruct (getRCConfig w env pr) as [rcConfig pr1].
  simpl in Hwf.
  assert (_rcConfig (selectBaseCommand w env ps rcConfig pr1).2
          = _rcConfig pr1) as Hsame.
  { unfold selectBaseCommand. repeat (destruct (truthy _); [done|]).
    pose proof (detectClaudeCommand_rcConfig w pr1) as H.
    destruct (detectClaudeCommand w pr1) as [d p]. simpl in H.
    by destruct (truthy d). }
  destruct (selectBaseCommand w env ps rcConfig pr1) as [[base|] pr2];
    simpl in *; [destruct (nonEmpty base)|]; simpl;
    intros rc Hrc; apply Hwf; by rewrite <-Hsame.
Qed.

(** Without aliases the command is tokenized as it was selected. *)
Lemma expandBase_no_aliases rcConfig baseCommand :
  (forall rc, rcConfig = Some rc -> rawAliases rc = ∅) ->
  expandBase rcConfig baseCommand = baseCommand.
Proof.
  intros H. destruct rcConfig as [rc|]; simpl; [|done].
  unfold applyAliases. by rewrite (H rc eq_refl), bool_decide_eq_true_2.
Qed.

(** The arguments an alias expansion adds are its tokens. *)
Lemma finalArgs_ModelArgs baseArgs expansion :
  finalArgs baseArgs (ModelArgs expansion) = baseArgs ++ tokens expansion.
Proof. unfold finalArgs. by rewrite parseCommand_dummy. Qed.

(** C2. In a resolution where a model name is resolved (from
    [params.modelId] through the built-in table, from CLAUDE_CODE_MODEL, or
    from the model variable of the RC configuration): when the arguments of
    the tokenized base command hold the flag --model at a position that is
    not the last, the resolved arguments are those arguments unchanged;
    when the flag occurs at the last position only (or not at all), the
    flag and the resolved name are appended. The base command is tokenized
    as the code does it, after the aliases of the RC file are applied.
    [params.modelId] goes through the built-in table when the read
    [rawAliases[params.modelId]] gives nothing that counts as true: with an
    RC file loaded, a name such as [constructor], under which the object
    of the aliases inherits a member, takes the other branch and is no
    case of this theorem. The arguments are held as the texts they read
    as: where the built-in table itself answers with an inherited member,
    the name appended stands for that member. *)
Theorem model_flag_idempotence w env ps pr r pr' baseCommand name :
  getClaudeCommandParsed w env ps pr = (Some r, pr') ->
  baseCommandOf w env ps pr = Some baseCommand ->
  modelResolved env ps (rcConfigOf w env pr) name ->
  let baseArgs := baseArgsOf w env pr baseCommand in
  ((exists i, baseArgs !! i = Some "--model" /\ S i < length baseArgs) ->
   args r = baseArgs)
  /\ ((forall i, baseArgs !! i = Some "--model" -> S i = length baseArgs) ->
      args r = baseArgs ++ ["--model"; name]).
Proof.
  intros Hr Hb Hm baseArgs.
  apply resolve_Some in Hr as (b & Hb' & _ & _ & Hargs).
  rewrite Hb in Hb'. injection Hb' as <-.
  apply selectModel_ModelToUse in Hm. rewrite Hm in Hargs. simpl in Hargs.
  fold baseArgs in Hargs. split.
  - intros H. apply hasModelFlag_true in H. by rewrite H in Hargs.
  - intros H. apply hasModelFlag_false in H. by rewrite H in Hargs.
Qed.

(** The end-to-end scenario of the specification: the command of the
    environment already names a model, and CLAUDE_CODE_MODEL is opus. *)
Lemma model_flag_idempotence_witness :
  (getClaudeCommandParsed Scenarios.bareWorld Scenarios.sonnetEnv
     Scenarios.noParams newProvider).1
  = Some {| executable := "claude";
            args := ["--model"; "claude-3-5-sonnet"] |}
  /\ args {| executable := "claude";
             args := ["--model"; "claude-3-5-sonnet"] |}
     = baseArgsOf Scenarios.bareWorld Scenarios.sonnetEnv newProvider
         "claude --model claude-3-5-sonnet".
Proof.
  split; [vm_compute; reflexivity|].
  refine (proj1 (model_flag_idempotence Scenarios.bareWorld
            Scenarios.sonnetEnv Scenarios.noParams newProvider
            {| executable := "claude";
               args := ["--model"; "claude-3-5-sonnet"] |}
            (getClaudeCommandParsed Scenarios.bareWorld Scenarios.sonnetEnv
               Scenarios.noParams newProvider).2
            "claude --model claude-3-5-sonnet" "claude-opus-4-20250514"
            _ _ _) _).
  - vm_compute. reflexivity.
  - vm_compute. reflexivity.
  - apply FromEnvironment; vm_compute; reflexivity.
  - exists 0. split; vm_compute; [reflexivity|lia].
Defined.

(** C3. When [params.modelId] is the name of an alias of the loaded RC
    file, the resolved arguments are the arguments of the base command
    followed by the tokens of the alias's raw expansion, and nothing else:
    no pair made of --model and the alias name is synthesized. *)
Theorem alias_expansion w env ps pr r pr' baseCommand rc id expansion :
  cacheWellFormed pr ->
  getClaudeCommandParsed w env ps pr = (Some r, pr') ->
  baseCommandOf w env ps pr = Some baseCommand ->
  rcConfigOf w env pr = Some rc ->
  modelId ps = Some id ->
  rawAliases rc !! id = Some expansion ->
  args r = baseArgsOf w env pr baseCommand ++ tokens expansion.
Proof.
  intros Hinv Hr Hb Hrc Hid Hal.
  pose proof (proj2 (getRCConfig_wellFormed w env pr Hinv) rc Hrc) as Hwf.
  apply resolve_Some in Hr as (b & Hb' & _ & _ & Hargs).
  rewrite Hb in Hb'. injection Hb' as <-.
  rewrite Hargs, Hrc. unfold selectModel. rewrite Hid.
  destruct (Hwf _ _ Hal) as [Hn _].
  apply nonEmpty_true in Hn. simpl. fold (nonEmpty id). rewrite Hn.
  rewrite (lookupTruthy_wellFormed _ _ _ Hwf Hal).
  apply finalArgs_ModelArgs.
Qed.

Lemma sample_aliases_wellFormed : aliasesWellFormed (aliases Scenarios.rcFile).
Proof. apply parseClaudeRC_aliases_wellFormed. Qed.

(** The alias fast of the sample RC file expands to two flags. *)
Lemma alias_expansion_witness :
  args {| executable := "claude";
          args := ["-p"; "--model"; "haiku"; "--verbose"] |}
  = baseArgsOf Scenarios.rcWorld Scenarios.plainEnv newProvider "claude -p"
    ++ tokens "--model haiku --verbose".
Proof.
  refine (alias_expansion Scenarios.rcWorld Scenarios.plainEnv
            Scenarios.fastParams newProvider
            {| executable := "claude";
               args := ["-p"; "--model"; "haiku"; "--verbose"] |}
            (getClaudeCommandParsed Scenarios.rcWorld Scenarios.plainEnv
               Scenarios.fastParams newProvider).2
            "claude -p"
            {| effective :=
                 getEffectiveConfig (Some Scenarios.rcFile) Scenarios.plainEnv;
               rawAliases := aliases Scenarios.rcFile |}
            "fast" "--model haiku --verbose" _ _ _ _ _ _).
  - apply newProvider_wellFormed.
  - vm_compute. reflexivity.
  - vm_compute. reflexivity.
  - vm_compute. reflexivity.
  - reflexivity.
  - vm_compute. reflexivity.
Defined.

(** The model block only ever appends to the arguments. *)
Lemma finalArgs_extends baseArgs choice :
  exists extra, finalArgs baseArgs choice = baseArgs ++ extra.
Proof.
  destruct choice as [expansion|name|]; simpl.
  - by eexists.
  - destruct (hasModelFlag baseArgs); [exists []|by eexists].
    by rewrite List.app_nil_r.
  - exists []. by rewrite List.app_nil_r.
Qed.

(** C9, as the code has it. A successful resolution splits the tokens of
    the base command (after alias replacement) into the executable, which
    is the first token and is not empty, and the arguments, which are the
    remaining tokens followed by what the model block appends: the token
    of the executable is not one of the arguments. When the base command
    has no token at all, the resolution still succeeds and its executable
    is the empty string. *)
Theorem resolved_executable w env ps pr r pr' baseCommand :
  getClaudeCommandParsed w env ps pr = (Some r, pr') ->
  baseCommandOf w env ps pr = Some baseCommand ->
  let toks := tokens (expandBase (rcConfigOf w env pr) baseCommand) in
  (toks = [] -> executable r = "")
  /\ (forall t ts, toks = t :: ts ->
        t <> "" /\ executable r = t /\ exists extra, args r = ts ++ extra).
Proof.
  intros Hr Hb toks.
  apply resolve_Some in Hr as (b & Hb' & _ & Hexe & Hargs).
  rewrite Hb in Hb'. injection Hb' as <-.
  unfold baseArgsOf in Hargs. fold toks in Hexe, Hargs. split.
  - intros E. by rewrite Hexe, (parseCommand_nil _ E).
  - intros t ts E.
    pose proof (tokens_nonEmpty (expandBase (rcConfigOf w env pr) baseCommand))
      as Hne.
    fold toks in Hne. rewrite E in Hne. apply Forall_cons in Hne as [Hne _].
    rewrite (parseCommand_cons _ _ _ E) in Hexe, Hargs. simpl in *.
    repeat split; [done..|]. rewrite Hargs. apply finalArgs_extends.
Qed.

Lemma resolved_executable_witness :
  (getClaudeCommandParsed Scenarios.bareWorld Scenarios.sonnetEnv
     Scenarios.noParams newProvider).1
  = Some {| executable := "claude";
            args := ["--model"; "claude-3-5-sonnet"] |}
  /\ "claude" <> ""
  /\ executable {| executable := "claude";
                   args := ["--model"; "claude-3-5-sonnet"] |} = "claude".
Proof.
  split; [vm_compute; reflexivity|].
  refine (let H := proj2 (resolved_executable Scenarios.bareWorld
            Scenarios.sonnetEnv Scenarios.noParams newProvider
            {| executable := "claude";
               args := ["--model"; "claude-3-5-sonnet"] |}
            (getClaudeCommandParsed Scenarios.bareWorld Scenarios.sonnetEnv
               Scenarios.noParams newProvider).2
            "claude --model claude-3-5-sonnet" _ _)
            "claude" ["--model"; "claude-3-5-sonnet"] _ in
          conj (proj1 H) (proj1 (proj2 H))).
  - vm_compute. reflexivity.
  - vm_compute. reflexivity.
  - vm_compute. reflexivity.
Defined.

(** C9 as stated fails: a command made of one space resolves, and the
    executable of the result is empty. *)
Lemma empty_executable_resolved :
  exists r,
    (getClaudeCommandParsed Scenarios.bareWorld ∅ Scenarios.blankParams
       newProvider).1 = Some r
    /\ executable r = "".
Proof. exists {| executable := ""; args := [] |}. by vm_compute. Qed.

(** C10. When [params.modelId] names an alias of the RC file, the tokens
    of its expansion are appended even if the arguments of the base
    command already hold --model followed by a value; with the same
    arguments a model name resolved through the built-in table is not
    appended: the flag test guards the synthesized flag only. The branch
    of the aliases is also the one taken when [params.modelId] names no
    alias but a member that the object of the aliases inherits, such as
    [constructor]: the tokens of the text of that member are appended. *)
Theorem alias_expansion_unconditional w env ps pr r pr' baseCommand rc :
  cacheWellFormed pr ->
  getClaudeCommandParsed w env ps pr = (Some r, pr') ->
  baseCommandOf w env ps pr = Some baseCommand ->
  rcConfigOf w env pr = Some rc ->
  let baseArgs := baseArgsOf w env pr baseCommand in
  (exists i, baseArgs !! i = Some "--model" /\ S i < length baseArgs) ->
  (forall id expansion,
     modelId ps = Some id -> rawAliases rc !! id = Some expansion ->
     args r = baseArgs ++ tokens expansion)
  /\ (forall name, modelResolved env ps (Some rc) name -> args r = baseArgs)
  /\ (forall id,
        modelId ps = Some id -> rawAliases rc !! id = None ->
        inherited id = true ->
        args r = baseArgs ++ tokens (text (Inherited id))).
Proof.
  intros Hinv Hr Hb Hrc baseArgs Hflag.
  pose proof (proj2 (getRCConfig_wellFormed w env pr Hinv) rc Hrc) as Hwf.
  apply resolve_Some in Hr as (b & Hb' & _ & _ & Hargs).
  rewrite Hb in Hb'. injection Hb' as <-.
  rewrite Hrc in Hargs. fold baseArgs in Hargs. split; [|split].
  3:{ intros id Hid Hnone Hin.
      rewrite Hargs. unfold selectModel. rewrite Hid.
      assert (nonEmpty id = true) as Hn by (by destruct id).
      simpl. fold (nonEmpty id). rewrite Hn.
      rewrite (lookupTruthy_inherited _ _ Hnone Hin).
      apply finalArgs_ModelArgs. }
  - intros id expansion Hid Hal.
    rewrite Hargs. unfold selectModel. rewrite Hid.
    destruct (Hwf _ _ Hal) as [Hn _].
    apply nonEmpty_true in Hn. simpl. fold (nonEmpty id). rewrite Hn.
    rewrite (lookupTruthy_wellFormed _ _ _ Hwf Hal).
    apply finalArgs_ModelArgs.
  - intros name Hm. apply selectModel_ModelToUse in Hm.
    rewrite Hm in Hargs. simpl in Hargs.
    apply hasModelFlag_true in Hflag. by rewrite Hflag in Hargs.
Qed.

(** The command of the environment names the model sonnet and the alias
    fast is requested: the expansion of the alias is appended all the
    same. *)
Lemma alias_expansion_unconditional_witness :
  (getClaudeCommandParsed Scenarios.rcWorld Scenarios.modelEnv
     Scenarios.fastParams newProvider).1
  = Some {| executable := "claude";
            args := ["--model"; "sonnet"; "--model"; "haiku"; "--verbose"] |}
  /\ args {| executable := "claude";
             args := ["--model"; "sonnet"; "--model"; "haiku"; "--verbose"] |}
     = baseArgsOf Scenarios.rcWorld Scenarios.modelEnv newProvider
         "claude --model sonnet"
       ++ tokens "--model haiku --verbose".
Proof.
  split; [vm_compute; reflexivity|].
  refine (proj1 (alias_expansion_unconditional Scenarios.rcWorld
            Scenarios.modelEnv Scenarios.fastParams newProvider
            {| executable := "claude";
               args := ["--model"; "sonnet"; "--model"; "haiku";
                        "--verbose"] |}
            (getClaudeCommandParsed Scenarios.rcWorld Scenarios.modelEnv
               Scenarios.fastParams newProvider).2
            "claude --model sonnet"
            {| effective :=
                 getEffectiveConfig (Some Scenarios.rcFile) Scenarios.modelEnv;
               rawAliases := aliases Scenarios.rcFile |}
            _ _ _ _ _) "fast" "--model haiku --verbose" _ _).
  - apply newProvider_wellFormed.
  - vm_compute. reflexivity.
  - vm_compute. reflexivity.
  - vm_compute. reflexivity.
  - exists 0. split; vm_compute; [reflexivity|lia].
  - reflexivity.
  - vm_compute. reflexivity.
Defined.

End ProviderFacts.

(** ** The executor *)
Module ExecutorFacts.
Import Js JsFacts Tokenizer ClaudeRC Provider Executor.

(** *** White space *)

Lemma trimStart_spec s :
  exists pre, s = pre +:+ trimStart s /\ allWhiteSpace pre = true
    /\ forall c, firstChar (trimStart s) = Some c -> isWhiteSpace c = false.
Proof.
  induction s as [|c s (pre & Hs & Hpre & Hfirst)]; simpl.
  - by exists "".
  - destruct (isWhiteSpace c) eqn:E.
    + exists (String c pre). rewrite app_cons, <-Hs. simpl.
      rewrite E, Hpre. auto.
    + exists "". split; [done|]. split; [done|].
      simpl. by intros ? [= <-].
Qed.

Lemma trimEnd_spec s :
  exists post, s = trimEnd s +:+ post /\ allWhiteSpace post = true
    /\ (forall c, lastChar (trimEnd s) = Some c -> isWhiteSpace c = false)
    /\ firstChar (trimEnd s)
       = if nonEmpty (trimEnd s) then firstChar s else None.
Proof.
  induction s as [|c s (post & Hs & Hpost & Hlast & _)]; simpl.
  - by exists "".
  - destruct (trimEnd s) as [|d t] eqn:Ht.
    + destruct (isWhiteSpace c) eqn:E.
      * exists (String c post). rewrite app_nil_l in *. subst s.
        simpl. rewrite E, Hpost. auto.
      * exists post. rewrite app_nil_l in Hs. subst s.
        split; [done|]. split; [done|]. split; [|done].
        simpl. by intros ? [= <-].
    + exists post. rewrite app_cons, <-Hs.
      split; [done|]. split; [done|]. split; [|done].
      intros c'. simpl. apply Hlast.
Qed.

(** [trim] removes white space, and only white space, at both ends. *)
Lemma trim_spec s :
  exists pre post,
    s = pre +:+ trim s +:+ post
    /\ allWhiteSpace pre = true /\ allWhiteSpace post = true
    /\ isTrimmed (trim s).
Proof.
  destruct (trimStart_spec s) as (pre & Hs & Hpre & Hfirst).
  destruct (trimEnd_spec (trimStart s)) as (post & Ht & Hpost & Hlast & Hf).
  exists pre, post. unfold trim. rewrite <-Ht, <-Hs.
  repeat split; try done.
  intros c Hc. rewrite Hf in Hc.
  destruct (nonEmpty _); [by apply Hfirst|done].
Qed.

(** *** The close handler *)

(** C5, as the code has it. When the child closes while the promise is
    pending: with an exit code other than zero the promise is rejected
    with an error whose message holds the exit code and the text of
    stderr; with exit code zero, a non-empty stderr and an empty stdout it
    is rejected as well; in every other case of exit code zero it is
    resolved with stdout without the white space at its ends. When the
    promise was settled before, by the timer or by an error event of the
    child, the close leaves it as it is, whatever the exit code. *)
Theorem close_outcome (r : running) (code : option Z) :
  let r' := handle r (Close code) in
  (settled r = None ->
   (code <> Some 0%Z ->
      settled r'
      = Some (Rejected (Error ("Claude Code error (code " +:+ showCode code
                               +:+ "): " +:+ stderr r))))
   /\ (code = Some 0%Z -> stderr r <> "" -> stdout r = "" ->
       settled r'
       = Some (Rejected (Error ("Claude Code error: " +:+ stderr r))))
   /\ (code = Some 0%Z -> stderr r = "" \/ stdout r <> "" ->
       settled r' = Some (Resolved (trim (stdout r)))
       /\ isTrimmed (trim (stdout r))
       /\ exists pre post,
            stdout r = pre +:+ trim (stdout r) +:+ post
            /\ allWhiteSpace pre = true /\ allWhiteSpace post = true))
  /\ (forall o, settled r = Some o -> settled r' = Some o).
Proof.
  intros r'. subst r'. split;
    [|intros o Ho; unfold handle, settle, clearTimer; simpl; by rewrite Ho].
  intros Hp. unfold handle, settle, clearTimer; simpl.
  rewrite Hp. unfold onClose. split; [|split].
  - intros Hc. replace (isZero code) with false; [done|].
    destruct code as [z|]; [|done]. simpl. symmetry. apply Z.eqb_neq.
    by intros ->.
  - intros -> He Ho. simpl. apply nonEmpty_true in He. by rewrite He, Ho.
  - intros -> H. split; [|split].
    + simpl. destruct H as [He|Ho].
      * apply nonEmpty_false in He. by rewrite He.
      * apply nonEmpty_true in Ho. by rewrite Ho, andb_false_r.
    + by destruct (trim_spec (stdout r)) as (? & ? & ? & ? & ? & ?).
    + destruct (trim_spec (stdout r)) as (pre & post & ? & ? & ? & ?).
      by exists pre, post.
Qed.

(** A child that wrote to stdout and to stderr and exits with code 2. *)
Lemma close_outcome_witness :
  settled Scenarios.chattyChild = None
  /\ settled (handle Scenarios.chattyChild (Close (Some 2%Z)))
     = Some (Rejected (Error "Claude Code error (code 2): usage limit")).
Proof.
  split; [reflexivity|].
  apply (proj1 (proj1 (close_outcome Scenarios.chattyChild (Some 2%Z))
                  eq_refl)).
  discriminate.
Defined.

(** C5 as stated fails: the child writes to stderr and does not end, the
    timer fires and kills it, and the child closes, without an exit code
    as a killed child does. The promise is rejected with the notice of
    the timeout, which holds neither the exit code nor the text of
    stderr. *)
Lemma close_after_timeout :
  let r := deliver (startChild Scenarios.calmSystem "/usr/bin/claude" ["-p"])
             [StderrData "busy"; TimerFired; Close None] in
  stderr r = "busy"
  /\ settled r
     = Some (Rejected (Error "Claude Code timed out after 5 minutes"))
  /\ settled r
     <> Some (Rejected (Error ("Claude Code error (code " +:+ showCode None
                               +:+ "): " +:+ stderr r))).
Proof. vm_compute. split; [done|]. split; [done|]. discriminate. Qed.

(** *** The exports of the RC file *)

Lemma applyExport_other env entry k :
  k <> entry.1 -> applyExport env entry !! k = env !! k.
Proof.
  intros Hk. unfold applyExport.
  destruct (negb (truthyValue (getProperty env entry.1))); [|done].
  by rewrite lookup_insert_ne.
Qed.

(** A read depends on the own property of its key only. *)
Lemma getProperty_lookup env env' k :
  env' !! k = env !! k -> getProperty env' k = getProperty env k.
Proof. unfold getProperty. by intros ->. Qed.

(** The loop over the entries of an object, key by key. *)
Lemma applyExports_lookup entries : forall env k,
  NoDup entries.*1 ->
  applyExports entries env !! k
  = if truthyValue (getProperty env k) then env !! k
    else match (list_to_map entries : gmap string string) !! k with
         | Some v => Some v
         | None => env !! k
         end.
Proof.
  induction entries as [|[k0 v0] entries IH]; intros env k Hnd.
  - simpl. rewrite lookup_empty. by destruct (truthyValue _).
  - apply NoDup_cons in Hnd as [Hk0 Hnd].
    change (applyExports ((k0, v0) :: entries) env)
      with (applyExports entries (applyExport env (k0, v0))).
    rewrite IH by done. cbn [list_to_map foldr].
    destruct (decide (k = k0)) as [->|Hne].
    + cbn [uncurry fst snd]. rewrite lookup_insert_eq.
      rewrite (not_elem_of_list_to_map_1 _ _ Hk0).
      unfold applyExport; cbn [fst snd].
      destruct (truthyValue (getProperty env k0)) eqn:E; cbn [negb];
        [by rewrite E|].
      unfold getProperty at 1. rewrite !lookup_insert_eq.
      cbn [truthyValue]. by destruct (nonEmpty v0).
    + cbn [uncurry fst snd]. rewrite lookup_insert_ne by done.
      rewrite (getProperty_lookup env (applyExport env (k0, v0)))
        by (by apply applyExport_other).
      by rewrite applyExport_other.
Qed.

Lemma mergeRCEnvironment_lookup rcConfig env k :
  mergeRCEnvironment rcConfig env !! k
  = if truthyValue (getProperty env k) then env !! k
    else match rcConfig ≫= (fun rc => environment (effective rc) !! k) with
         | Some v => Some v
         | None => env !! k
         end.
Proof.
  destruct rcConfig as [rc|]; simpl; [|by destruct (truthyValue _)].
  rewrite applyExports_lookup by apply NoDup_fst_map_to_list.
  by rewrite list_to_map_to_list.
Qed.

(** C7, as the code has it. The first step of [executeClaudeCode] writes
    an environment key only if the RC file exports it and the read
    [process.env[key]] does not count as true: the variable is set to the
    empty string, or it is unset and the key names no member that
    [process.env] inherits. The key then holds the exported value. Every
    key whose read counts as true keeps what it held, and so does every
    key the RC file does not export. *)
Theorem rc_exports_merge (rcConfig : option rcconfig)
  (env : gmap string string) (k : string) :
  let env' := mergeRCEnvironment rcConfig env in
  (truthyValue (getProperty env k) = true -> env' !! k = env !! k)
  /\ (rcConfig ≫= (fun rc => environment (effective rc) !! k) = None ->
      env' !! k = env !! k)
  /\ (forall v, truthyValue (getProperty env k) = false ->
        rcConfig ≫= (fun rc => environment (effective rc) !! k) = Some v ->
        env' !! k = Some v)
  /\ (truthyValue (getProperty env k) = false <->
      env !! k = Some "" \/ (env !! k = None /\ inherited k = false)).
Proof.
  intros env'. subst env'. rewrite mergeRCEnvironment_lookup.
  split; [by intros ->|]. split; [intros ->; by destruct (truthyValue _)|].
  split; [by intros v -> ->|].
  unfold getProperty. destruct (env !! k) as [value|]; cbn [truthyValue].
  - rewrite nonEmpty_false. split.
    + intros ->. by left.
    + by intros [[= ->]|[? _]].
  - destruct (inherited k); cbn [truthyValue]; split; try done.
    + by intros [?|[_ ?]].
    + intros _. by right.
Qed.

(** The RC file exports CLAUDE_CODE_TIMEOUT, and the environment holds a
    value for it: the value of the environment stays. *)
Lemma rc_exports_merge_witness :
  environment (effective Scenarios.rcCached) !! "CLAUDE_CODE_TIMEOUT"
  = Some "300000"
  /\ Scenarios.shortTimeoutEnv !! "CLAUDE_CODE_TIMEOUT" = Some "1000"
  /\ truthyValue (getProperty Scenarios.shortTimeoutEnv "CLAUDE_CODE_TIMEOUT")
     = true
  /\ mergeRCEnvironment (Some Scenarios.rcCached) Scenarios.shortTimeoutEnv
       !! "CLAUDE_CODE_TIMEOUT"
     = Some "1000".
Proof.
  split; [vm_compute; reflexivity|]. split; [reflexivity|].
  split; [reflexivity|].
  exact (proj1 (rc_exports_merge (Some Scenarios.rcCached)
                  Scenarios.shortTimeoutEnv "CLAUDE_CODE_TIMEOUT") eq_refl).
Defined.

(** C7 as stated fails: a key that is set, to the empty string, is
    overwritten by the export of the RC file. *)
Lemma empty_value_overwritten :
  Scenarios.emptyTimeoutEnv !! "CLAUDE_CODE_TIMEOUT" = Some ""
  /\ mergeRCEnvironment (Some Scenarios.rcCached) Scenarios.emptyTimeoutEnv
       !! "CLAUDE_CODE_TIMEOUT"
     = Some "300000".
Proof. split; by vm_compute. Qed.

(** *** The temporary file *)

Lemma prepare_files w options s : files (prepare w options s).2 = files s.
Proof.
  unfold prepare. destruct (getRCConfig w (env s) (self s)) as [rcConfig pr1].
  by destruct (getClaudeCommandParsed w _ options pr1).
Qed.

(** The handlers of the child's events act on the promise only, so the
    state an invocation leaves is the state at its [return]. *)
Lemma invocation_state w sy input options evs s :
  (invocation w sy input options evs s).2
  = (executeClaudeCode w sy input options s).2.
Proof.
  unfold invocation. by destruct (executeClaudeCode w sy input options s).
Qed.

(** The [finally] block with [tempFile] assigned: the file is gone unless
    the system refuses to unlink it, other files stay, nothing is thrown. *)
Lemma finallyBlock_assigned sy s :
  tempFile s = Some (tempFileOf sy) -> tempFileOf sy <> "" ->
  (finallyBlock sy s).1 = Ok ()
  /\ (unlinkFails sy (tempFileOf sy) = None ->
      files (finallyBlock sy s).2 !! tempFileOf sy = None)
  /\ (forall g, g <> tempFileOf sy ->
        files (finallyBlock sy s).2 !! g = files s !! g)
  /\ tempFile (finallyBlock sy s).2 = tempFile s.
Proof.
  intros Ht Hne. unfold finallyBlock, bind, getTempFile. rewrite Ht.
  replace (truthy (Some (tempFileOf sy))) with true
    by (symmetry; apply truthy_Some; eauto).
  unfold tryCatch, unlinkSync, ret. simpl.
  destruct (unlinkFails sy (tempFileOf sy)) as [e|]; simpl; [done|].
  destruct (files s !! tempFileOf sy) eqn:E; simpl.
  - repeat split; [by rewrite lookup_delete_eq | |done].
    intros g Hg. by rewrite lookup_delete_ne.
  - done.
Qed.

(** The [try] block past the access check: [tempFile] is assigned, and no
    file but the temporary one is written. *)
Lemma tryBlock_assigned sy input cmd s :
  canExecute sy (executable cmd) = true ->
  tempFile (tryBlock sy input (Some cmd) s).2 = Some (tempFileOf sy)
  /\ forall g, g <> tempFileOf sy ->
       files (tryBlock sy input (Some cmd) s).2 !! g = files s !! g.
Proof.
  intros Hx. unfold tryBlock, bind, getEnv, throw. simpl. rewrite Hx. simpl.
  unfold writeFileSync. destruct (writeFails sy (tempFileOf sy)); simpl.
  - done.
  - split; [done|]. intros g Hg. by rewrite lookup_insert_ne.
Qed.

(** C6. In an invocation that reaches the creation of the temporary file
    (the command is resolved and the executable passes the access check),
    the [finally] block has run by the time the function returns its
    promise, hence before the invocation completes, whatever events
    follow (success, rejection or timeout): the caller sees the outcome of
    the [try] block, never an error of the deletion; the temporary file
    does not exist afterwards unless the system refuses to unlink it; and
    no other file is touched. *)
Theorem temp_file_cleanup w sy input options evs s cmd :
  (prepare w options s).1 = Ok (Some cmd) ->
  canExecute sy (executable cmd) = true ->
  tempFileOf sy <> "" ->
  let body := tryBlock sy input (Some cmd) (prepare w options s).2 in
  let final := invocation w sy input options evs s in
  final.1 = completion body.1 evs
  /\ tempFile body.2 = Some (tempFileOf sy)
  /\ (unlinkFails sy (tempFileOf sy) = None ->
      files final.2 !! tempFileOf sy = None)
  /\ (forall g, g <> tempFileOf sy -> files final.2 !! g = files s !! g).
Proof.
  intros Hp Hx Hne body final. subst body final.
  rewrite invocation_state. unfold invocation, executeClaudeCode, bind.
  pose proof (prepare_files w options s) as Hfiles.
  destruct (prepare w options s) as [r1 s1]. simpl in Hp, Hfiles. subst r1.
  cbn [snd]. unfold tryFinally, tryCatch.
  destruct (tryBlock_assigned sy input cmd s1 Hx) as [Ht Hframe].
  destruct (finallyBlock_assigned sy _ Ht Hne) as (Hok & Hgone & Hkeep & _).
  destruct (tryBlock sy input (Some cmd) s1) as [r2 s2]. simpl in *.
  assert ((match r2 with
           | Ok a => (Ok a, s2)
           | Throw e => throw e s2
           end) = (r2, s2)) as -> by (by destruct r2).
  destruct (finallyBlock sy s2) as [r3 s3]. simpl in *. subst r3. simpl.
  repeat split; [done..|].
  intros g Hg. by rewrite Hkeep, Hframe, Hfiles.
Qed.

(** A child that never ends: the timer fires, and the file is gone. *)
Lemma temp_file_cleanup_witness :
  (invocation Scenarios.bareWorld Scenarios.calmSystem "Human: Hi"
     Scenarios.noParams [TimerFired] Scenarios.startState).1
  = Some timedOut
  /\ files (invocation Scenarios.bareWorld Scenarios.calmSystem "Human: Hi"
              Scenarios.noParams [TimerFired] Scenarios.startState).2
       !! tempFileOf Scenarios.calmSystem
     = None.
Proof.
  split; [vm_compute; reflexivity|].
  refine (proj1 (proj2 (proj2 (temp_file_cleanup Scenarios.bareWorld
            Scenarios.calmSystem "Human: Hi" Scenarios.noParams [TimerFired]
            Scenarios.startState
            {| executable := "/usr/bin/claude"; args := [] |} _ _ _))) _).
  - vm_compute. reflexivity.
  - reflexivity.
  - vm_compute. discriminate.
  - reflexivity.
Defined.

End ExecutorFacts.

(** ** Object generation *)
Module ObjectGenFacts.
Import Js JsFacts Executor ObjectGen.

Lemma length_app (s t : string) :
  String.length (s +:+ t) = String.length s + String.length t.
Proof. induction s as [|c s IH]; [done|]. rewrite ?app_cons. simpl. lia. Qed.

Lemma indexOf_app c pre rest :
  indexOf c pre = None ->
  indexOf c (pre +:+ String c rest) = Some (String.length pre).
Proof.
  induction pre as [|d pre IH]; simpl.
  - intros _. rewrite ?app_nil_l. simpl. by rewrite Ascii.eqb_refl.
  - rewrite ?app_cons. simpl. destruct (Ascii.eqb d c); [done|].
    destruct (indexOf c pre); [done|]. intros _. by rewrite IH.
Qed.

Lemma indexOf_None_app c s t :
  indexOf c (s +:+ t) = None <-> indexOf c s = None /\ indexOf c t = None.
Proof.
  induction s as [|d s IH]; simpl.
  - rewrite ?app_nil_l. tauto.
  - rewrite ?app_cons. simpl. destruct (Ascii.eqb d c).
    { split; [done|]. by intros [? _]. }
    by rewrite !fmap_None.
Qed.

Lemma lastIndexOf_None c s : lastIndexOf c s = None <-> indexOf c s = None.
Proof.
  induction s as [|d s IH]; simpl; [done|].
  destruct (Ascii.eqb d c).
  - by destruct (lastIndexOf c s).
  - rewrite fmap_None, <-IH. by destruct (lastIndexOf c s).
Qed.

Lemma lastIndexOf_app c a post :
  indexOf c post = None ->
  lastIndexOf c (a +:+ String c post) = Some (String.length a).
Proof.
  intros Hpost. apply lastIndexOf_None in Hpost.
  induction a as [|d a IH]; simpl.
  - rewrite ?app_nil_l. simpl. by rewrite Hpost, Ascii.eqb_refl.
  - rewrite ?app_cons. simpl. by rewrite IH.
Qed.

Lemma substring_0_app (x post : string) :
  String.substring 0 (String.length x) (x +:+ post) = x.
Proof.
  induction x as [|c x IH]; simpl.
  - rewrite ?app_nil_l. by destruct post.
  - rewrite ?app_cons. simpl. by rewrite IH.
Qed.

Lemma substring_skip (pre t : string) (m : nat) :
  String.substring (String.length pre) m (pre +:+ t) = String.substring 0 m t.
Proof. induction pre as [|c pre IH]; [done|]. by rewrite ?app_cons. Qed.

(** The characters at the positions from [String.length pre] up to, and
    without, [String.length pre + String.length x]. *)
Lemma substring_middle (pre x post : string) :
  substring (String.length pre) (String.length pre + String.length x)
    (pre +:+ x +:+ post) = x.
Proof.
  unfold substring. rewrite !length_app.
  set (n := String.length pre). set (m := String.length x).
  set (k := String.length post).
  replace ((n `min` (n + (m + k))) `min` ((n + m) `min` (n + (m + k))))
    with n by lia.
  replace (((n `min` (n + (m + k))) `max` ((n + m) `min` (n + (m + k)))) - n)
    with m by lia.
  subst n m.
  by rewrite substring_skip, substring_0_app.
Qed.

(** The text from the first opening to the last closing brace. *)
Lemma betweenBraces_found pre mid post :
  indexOf "{"%char pre = None -> indexOf "}"%char post = None ->
  betweenBraces (pre +:+ "{" +:+ mid +:+ "}" +:+ post)
  = "{" +:+ mid +:+ "}".
Proof.
  intros Hpre Hpost. unfold betweenBraces.
  change ("{" +:+ mid +:+ "}" +:+ post) with (String "{" (mid +:+ "}" +:+ post)).
  rewrite indexOf_app by done.
  replace (pre +:+ String "{" (mid +:+ "}" +:+ post))
    with ((pre +:+ "{" +:+ mid) +:+ String "}" post)
    by (by rewrite !app_assoc).
  rewrite lastIndexOf_app by done.
  replace ((pre +:+ "{" +:+ mid) +:+ String "}" post)
    with (pre +:+ ("{" +:+ mid +:+ "}") +:+ post)
    by (by rewrite !app_assoc).
  replace (String.length (pre +:+ "{" +:+ mid) + 1)
    with (String.length pre + String.length ("{" +:+ mid +:+ "}")).
  - apply substring_middle.
  - rewrite !length_app. simpl. lia.
Qed.

Lemma betweenBraces_missing s :
  indexOf "{"%char s = None \/ indexOf "}"%char s = None ->
  betweenBraces s = s.
Proof.
  unfold betweenBraces. intros [H|H].
  - by rewrite H.
  - apply lastIndexOf_None in H. rewrite H. by destruct (indexOf _ _).
Qed.

(** A text without a backquote holds no fence. *)
Lemma removeMarker_plain marker s :
  firstChar marker = Some "`"%char -> indexOf "`"%char s = None ->
  removeMarker marker s = s.
Proof.
  intros Hm. unfold removeMarker.
  induction s as [|c s IH]; simpl; [done|].
  destruct (Ascii.eqb c "`") eqn:E; [done|].
  destruct (indexOf "`" s) eqn:Hs; [done|]. intros _.
  destruct marker as [|d marker]; [done|]. injection Hm as ->.
  destruct (ascii_dec "`" c) as [<-|Hne]; [by rewrite Ascii.eqb_refl in E|].
  by rewrite IH.
Qed.

Lemma stripFences_plain s : indexOf "`"%char s = None -> stripFences s = s.
Proof.
  intros H. unfold stripFences.
  rewrite (removeMarker_plain "```json") by done.
  by apply removeMarker_plain.
Qed.

(** *** The global replacement, occurrence by occurrence *)

Lemma prefix_here marker rest : String.prefix marker (marker +:+ rest) = true.
Proof.
  induction marker as [|c marker IH].
  - rewrite app_nil_l. by destruct rest.
  - rewrite app_cons. simpl. by destruct (ascii_dec c c).
Qed.

Lemma prefix_split marker : forall s,
  String.prefix marker s = true -> exists rest, s = marker +:+ rest.
Proof.
  induction marker as [|c marker IH]; intros s H.
  - exists s. by rewrite app_nil_l.
  - destruct s as [|d s]; [done|]. simpl in H.
    destruct (ascii_dec c d) as [<-|]; [|done].
    destruct (IH s H) as [rest ->]. exists rest. by rewrite app_cons.
Qed.

(** An occurrence that starts inside a text and is not longer than the
    text lies inside it. *)
Lemma app_split_prefix marker : forall x t rest,
  x +:+ t = marker +:+ rest -> String.length marker <= String.length x ->
  exists b, x = marker +:+ b.
Proof.
  induction marker as [|c marker IH]; intros x t rest H Hlen.
  - exists x. by rewrite app_nil_l.
  - destruct x as [|d x]; [simpl in Hlen; lia|].
    rewrite !app_cons in H. injection H as -> H.
    destruct (IH x t rest H) as [b ->]; [simpl in Hlen; lia|].
    exists b. by rewrite app_cons.
Qed.

Lemma removeFrom_skip marker x : forall n rest,
  String.length x = n ->
  removeFrom marker (afterDrop n) (x +:+ rest)
  = removeFrom marker Space rest.
Proof.
  induction x as [|c x IH]; intros n rest Hn.
  - subst n. by rewrite app_nil_l.
  - destruct n as [|n]; [done|]. injection Hn as Hn.
    rewrite app_cons. cbn [afterDrop removeFrom].
    replace (S n - 1) with n by lia. by apply IH.
Qed.

(** At an occurrence of the marker the scan drops it and goes on in the
    white space after it. *)
Lemma removeFrom_match marker rest :
  marker <> "" ->
  removeFrom marker Copy (marker +:+ rest) = removeFrom marker Space rest.
Proof.
  intros Hm. destruct marker as [|d marker]; [done|].
  pose proof (prefix_here (String d marker) rest) as Hp.
  rewrite app_cons in *. cbn [removeFrom]. rewrite Hp.
  replace (String.length (String d marker) - 1) with (String.length marker)
    by (simpl; lia).
  by apply removeFrom_skip.
Qed.

Lemma removeFrom_space marker ws : forall rest,
  allWhiteSpace ws = true ->
  (forall c, firstChar rest = Some c -> isWhiteSpace c = false) ->
  removeFrom marker Space (ws +:+ rest) = removeFrom marker Copy rest.
Proof.
  induction ws as [|c ws IH]; intros rest Hws Hrest.
  - rewrite app_nil_l. destruct rest as [|c rest]; [done|].
    cbn [removeFrom]. by rewrite (Hrest c).
  - simpl in Hws. apply andb_true_iff in Hws as [Hc Hws].
    rewrite app_cons. cbn [removeFrom]. rewrite Hc. by apply IH.
Qed.

(** Before the first occurrence of the marker the scan copies. *)
Lemma removeFrom_copy marker pre : forall rest,
  (forall a b, pre +:+ marker = a +:+ marker +:+ b -> a = pre) ->
  removeFrom marker Copy (pre +:+ marker +:+ rest)
  = pre +:+ removeFrom marker Copy (marker +:+ rest).
Proof.
  induction pre as [|c pre IH]; intros rest Hfirst.
  - by rewrite !app_nil_l.
  - rewrite !app_cons. cbn [removeFrom].
    destruct (String.prefix marker (String c (pre +:+ marker +:+ rest)))
      eqn:Hp.
    + exfalso. apply prefix_split in Hp as [tail Hp].
      rewrite <-app_cons, <-app_assoc in Hp.
      apply app_split_prefix in Hp as [b Hb].
      * specialize (Hfirst "" b). rewrite app_nil_l in Hfirst.
        by specialize (Hfirst Hb).
      * rewrite length_app. lia.
    + rewrite IH; [done|].
      intros a b Hab.
      specialize (Hfirst (String c a) b).
      rewrite !app_cons, Hab in Hfirst. by injection (Hfirst eq_refl).
Qed.

(** A text in which the marker does not occur is copied. *)
Lemma removeMarker_absent marker s :
  (forall a b, s <> a +:+ marker +:+ b) -> removeMarker marker s = s.
Proof.
  unfold removeMarker. induction s as [|c s IH]; intros Hs; [done|].
  cbn [removeFrom].
  destruct (String.prefix marker (String c s)) eqn:Hp.
  - exfalso. apply prefix_split in Hp as [tail Hp].
    apply (Hs "" tail). by rewrite app_nil_l.
  - rewrite IH; [done|]. intros a b ->.
    apply (Hs (String c a) b). by rewrite app_cons.
Qed.

(** The first occurrence of the marker goes with the white space after
    it, and the replacement goes on with what follows. *)
Lemma removeMarker_first marker pre ws rest :
  marker <> "" ->
  (forall a b, pre +:+ marker = a +:+ marker +:+ b -> a = pre) ->
  allWhiteSpace ws = true ->
  (forall c, firstChar rest = Some c -> isWhiteSpace c = false) ->
  removeMarker marker (pre +:+ marker +:+ ws +:+ rest)
  = pre +:+ removeMarker marker rest.
Proof.
  intros Hm Hfirst Hws Hrest. unfold removeMarker.
  rewrite removeFrom_copy by done.
  rewrite removeFrom_match by done.
  by rewrite removeFrom_space.
Qed.

Lemma substring_swap a b s : substring a b s = substring b a s.
Proof.
  unfold substring.
  by rewrite (Nat.min_comm (a `min` _)), (Nat.max_comm (a `min` _)).
Qed.

(** When the last closing brace comes before the first opening brace,
    [substring] swaps its bounds: what is taken is the text between the
    two, without them. *)
Lemma betweenBraces_crossed pre mid post :
  indexOf "{"%char (pre +:+ "}" +:+ mid) = None ->
  indexOf "}"%char (mid +:+ "{" +:+ post) = None ->
  betweenBraces (pre +:+ "}" +:+ mid +:+ "{" +:+ post) = mid.
Proof.
  intros Hopen Hclose. unfold betweenBraces.
  replace (pre +:+ "}" +:+ mid +:+ "{" +:+ post)
    with ((pre +:+ "}" +:+ mid) +:+ String "{" post) at 1
    by (by rewrite !app_assoc).
  rewrite indexOf_app by done.
  change ("}" +:+ mid +:+ "{" +:+ post)
    with (String "}" (mid +:+ "{" +:+ post)).
  rewrite lastIndexOf_app by done.
  rewrite substring_swap.
  replace (pre +:+ String "}" (mid +:+ "{" +:+ post))
    with ((pre +:+ "}") +:+ mid +:+ ("{" +:+ post))
    by (by rewrite !app_assoc).
  replace (String.length (pre +:+ "}" +:+ mid))
    with (String.length (pre +:+ "}") + String.length mid)
    by (rewrite !length_app; simpl; lia).
  replace (String.length pre + 1) with (String.length (pre +:+ "}"))
    by (rewrite length_app; simpl; lia).
  apply substring_middle.
Qed.

Section Parsing.
Context {json : Type} (JSON_parse : string -> json + string)
  (handleError : string -> jsError -> jsError).

(** C8, as the code has it. A call of [generateObject] whose text
    generation succeeded returns the value [JSON.parse] yields on the
    text made from the generated text in four steps. The white space at
    both ends is removed. Then every fence that opens a json block is
    deleted together with the white space after it, and then every
    remaining fence together with the white space after it: a text
    without the marker is left as it is, and otherwise the first
    occurrence goes with all the white space that follows it, and the
    deletion goes on in the same way with the rest. Last, the part from
    the first opening brace to the last closing brace is taken when the
    text has both (the text between the two when the closing one comes
    first; the whole text when a brace is missing). When [JSON.parse]
    fails, the error raised wraps the message of the parser, and goes
    through [handleError]. A fenced object inside prose is handed to the
    parser as the bare object. *)
Theorem generateObject_parses (rid : string) (elapsed : Z) (tr : textResult) :
  let trimmed := trim (text tr) in
  let cleaned := removeMarker "```" (removeMarker "```json" trimmed) in
  let candidate := jsonCandidate (text tr) in
  (forall v, JSON_parse candidate = inl v ->
     generateObject json JSON_parse handleError rid elapsed (Ok tr)
     = Ok {| object := v; objectUsage := textUsage tr; requestId := rid;
             responseTime := elapsed |})
  /\ (forall msg, JSON_parse candidate = inr msg ->
        generateObject json JSON_parse handleError rid elapsed (Ok tr)
        = Throw (handleError "object generation"
                   (Error ("Failed to parse JSON from Claude Code response: "
                           +:+ msg))))
  /\ (exists before after,
        text tr = before +:+ trimmed +:+ after
        /\ allWhiteSpace before = true /\ allWhiteSpace after = true
        /\ isTrimmed trimmed)
  /\ (forall marker s,
        (forall a b, s <> a +:+ marker +:+ b) -> removeMarker marker s = s)
  /\ (forall marker pre ws rest,
        marker <> "" ->
        (forall a b, pre +:+ marker = a +:+ marker +:+ b -> a = pre) ->
        allWhiteSpace ws = true ->
        (forall c, firstChar rest = Some c -> isWhiteSpace c = false) ->
        removeMarker marker (pre +:+ marker +:+ ws +:+ rest)
        = pre +:+ removeMarker marker rest)
  /\ (forall pre mid post,
        cleaned = pre +:+ "{" +:+ mid +:+ "}" +:+ post ->
        indexOf "{"%char pre = None -> indexOf "}"%char post = None ->
        candidate = "{" +:+ mid +:+ "}")
  /\ (forall pre mid post,
        cleaned = pre +:+ "}" +:+ mid +:+ "{" +:+ post ->
        indexOf "{"%char (pre +:+ "}" +:+ mid) = None ->
        indexOf "}"%char (mid +:+ "{" +:+ post) = None ->
        candidate = mid)
  /\ (indexOf "{"%char cleaned = None \/ indexOf "}"%char cleaned = None ->
      candidate = cleaned)
  /\ (indexOf "`"%char (text tr) = None -> cleaned = trimmed)
  /\ jsonCandidate Scenarios.fencedAnswer = Scenarios.fencedObject.
Proof.
  intros trimmed cleaned candidate. subst trimmed cleaned candidate.
  unfold generateObject, parseResponse, jsonCandidate.
  fold (stripFences (trim (text tr))).
  split; [by intros v ->|]. split; [by intros msg ->|].
  split; [apply ExecutorFacts.trim_spec|].
  split; [apply removeMarker_absent|].
  split; [apply removeMarker_first|].
  split; [intros pre mid post -> Hpre Hpost; by apply betweenBraces_found|].
  split; [intros pre mid post -> Hopen Hclose;
          by apply betweenBraces_crossed|].
  split; [apply betweenBraces_missing|]. split; [|by vm_compute].
  intros H. apply stripFences_plain.
  destruct (ExecutorFacts.trim_spec (text tr)) as (pre & post & Ht & _).
  rewrite Ht in H. apply indexOf_None_app in H as [_ H].
  by apply indexOf_None_app in H as [H _].
Qed.

End Parsing.

(** The fenced answer, with a parser that rejects everything. *)
Lemma generateObject_parses_witness :
  removeMarker "```" (removeMarker "```json" (trim Scenarios.fencedAnswer))
  = ("Here is the object you asked for:" +:+ nl) +:+ "{"
    +:+ (String dquote "a" +:+ String dquote ":1") +:+ "}"
    +:+ (nl +:+ "Let me know if you need anything else.")
  /\ jsonCandidate Scenarios.fencedAnswer
     = "{" +:+ (String dquote "a" +:+ String dquote ":1") +:+ "}".
Proof.
  split; [vm_compute; reflexivity|].
  pose proof (generateObject_parses
                (fun _ : string => @inr unit string "rejected") (fun _ e => e)
                "request-1" 0%Z
                {| text := Scenarios.fencedAnswer;
                   textUsage := {| promptTokens := 0; completionTokens := 0;
                                   totalTokens := 0 |} |})
    as (_ & _ & _ & _ & _ & H & _).
  refine (H ("Here is the object you asked for:" +:+ nl)
            (String dquote "a" +:+ String dquote ":1")
            (nl +:+ "Let me know if you need anything else.") _ _ _).
  - vm_compute. reflexivity.
  - vm_compute. reflexivity.
  - vm_compute. reflexivity.
Defined.

(** C8 as stated fails: the object generated holds, in a string, a fence
    marker followed by two spaces. The code deletes the marker with the
    two spaces; deleting the markers alone, as the statement has it, keeps
    them, and the two texts are objects with different members. With the
    text itself taken for its value, [generateObject] returns the first of
    the two. *)
Lemma fence_space_deleted :
  jsonCandidate Scenarios.markdownAnswer = Scenarios.markdownObject "a b"
  /\ wordedCandidate Scenarios.markdownAnswer
     = Scenarios.markdownObject "a   b"
  /\ jsonCandidate Scenarios.markdownAnswer
     <> wordedCandidate Scenarios.markdownAnswer
  /\ generateObject string inl (fun _ error => error) "request-1" 0%Z
       (Ok {| text := Scenarios.markdownAnswer;
              textUsage := {| promptTokens := 0; completionTokens := 0;
                              totalTokens := 0 |} |})
     = Ok {| object := Scenarios.markdownObject "a b";
             objectUsage := {| promptTokens := 0; completionTokens := 0;
                               totalTokens := 0 |};
             requestId := "request-1"; responseTime := 0 |}.
Proof.
  split; [vm_compute; reflexivity|]. split; [vm_compute; reflexivity|].
  split; [vm_compute; discriminate|]. vm_compute. reflexivity.
Qed.

End ObjectGenFacts.

(** ** The scenarios of the specification *)
Module TokenizerChecks.
Import Tokenizer.

Example parse_quoted_path :
  parseCommand (String Js.dquote "/a b/x" +:+ String Js.dquote " --flag v")
  = {| executable := "/a b/x"; args := ["--flag"; "v"] |}.
Proof. reflexivity. Qed.

Example parse_escaped_quote :
  parseCommand (String Js.dquote "/a/with\" +:+ String Js.dquote "quote/x"
                +:+ String Js.dquote " --f")
  = {| executable := "/a/with" +:+ String Js.dquote "quote/x";
       args := ["--f"] |}.
Proof. reflexivity. Qed.

Example parse_backslash_space :
  parseCommand "a\ b c" = {| executable := "a\"; args := ["b"; "c"] |}.
Proof. reflexivity. Qed.

Example parse_escaped_backslash_then_quote :
  parseCommand ("a\\" +:+ String Js.dquote "b c" +:+ String Js.dquote " d")
  = {| executable := "a\b c"; args := ["d"] |}.
Proof. reflexivity. Qed.

End TokenizerChecks.

Module ProviderChecks.
Import Tokenizer Provider.

(** The model of the parameters is resolved through the built-in table. *)
Example resolve_opus :
  (getClaudeCommand Scenarios.bareWorld (<["CLAUDE_CODE_COMMAND" := "claude"]> ∅)
     {| claudeCodeCommand := None; modelId := Some "opus" |} newProvider).1
  = Some "claude --model claude-opus-4-20250514".
Proof. vm_compute. reflexivity. Qed.

(** A command that already names its model is left as it is. *)
Example resolve_existing_flag :
  (getClaudeCommand Scenarios.bareWorld Scenarios.sonnetEnv Scenarios.noParams
     newProvider).1
  = Some "claude --model claude-3-5-sonnet".
Proof. vm_compute. reflexivity. Qed.

(** A flag without a value does not count: the model is appended. *)
Example resolve_dangling_flag :
  (getClaudeCommandParsed Scenarios.bareWorld
     (<["CLAUDE_CODE_COMMAND" := "claude --model"]>
      (<["CLAUDE_CODE_MODEL" := "opus"]> ∅))
     Scenarios.noParams newProvider).1
  = Some {| executable := "claude";
            args := ["--model"; "--model"; "claude-opus-4-20250514"] |}.
Proof. vm_compute. reflexivity. Qed.

(** Nothing configured and nothing installed: no command. *)
Example resolve_nothing :
  (getClaudeCommandParsed Scenarios.bareWorld ∅ Scenarios.noParams
     newProvider).1 = None
  /\ (isAvailable Scenarios.bareWorld ∅ Scenarios.noParams newProvider).1
     = false.
Proof. split; vm_compute; reflexivity. Qed.

(** The four sources on a fresh instance, removed one after the other. *)
Example precedence_chain :
  let w := {| rcFiles := [None; Some Scenarios.rcContent; None];
              isDarwin := false;
              homePath := fun segments => "/home/dev/" +:+ Js.join "/" segments;
              whichClaude := Some "/found/claude";
              existsSync := fun _ => true;
              accessExecutable := fun _ => true |} in
  let bare := {| rcFiles := [None; None; None];
                 isDarwin := false;
                 homePath := fun segments => "/home/dev/" +:+ Js.join "/" segments;
                 whichClaude := Some "/found/claude";
                 existsSync := fun _ => true;
                 accessExecutable := fun _ => true |} in
  let env : gmap string string := <["CLAUDE_CODE_COMMAND" := "/env/claude"]> ∅ in
  let explicit := {| claudeCodeCommand := Some "/param/claude";
                     modelId := None |} in
  (getClaudeCommand w env explicit newProvider).1 = Some "/param/claude"
  /\ (getClaudeCommand w env Scenarios.noParams newProvider).1
     = Some "/env/claude"
  /\ (getClaudeCommand w ∅ Scenarios.noParams newProvider).1
     = Some "/rc/claude"
  /\ (getClaudeCommand bare ∅ Scenarios.noParams newProvider).1
     = Some "/found/claude".
Proof. repeat split; vm_compute; reflexivity. Qed.

End ProviderChecks.

(* ===================================================================== *)
(** * Part III: further properties of the code                            *)
(* ===================================================================== *)

(** ** The tokenizer *)
Module TokenizerMore.
Import Js JsFacts Tokenizer TokenizerFacts Shapes.

Lemma plainToken_inv s :
  plainToken s = true -> s <> "" /\ plainWord s = true.
Proof.
  unfold plainToken. intros H. apply andb_true_iff in H as [H1 H2].
  by apply nonEmpty_true in H1.
Qed.

(** The step on a space outside quotes and escapes. *)
Lemma step_space st next :
  escapeNext st = false -> inQuote st = false ->
  step st space next
  = if nonEmpty (current st)
    then {| parts := parts st ++ [current st]; current := "";
            inQuote := false; quoteChar := quoteChar st;
            escapeNext := false |}
    else st.
Proof.
  destruct st as [ps cur q qc e]; simpl. intros -> ->. reflexivity.
Qed.

(** The scan of words separated by one space, from a state between two
    tokens. *)
Lemma scan_words ws : forall st,
  escapeNext st = false -> inQuote st = false -> current st = "" ->
  Forall (fun w => plainToken w = true) ws ->
  flush (scanFrom st (join " " ws)) = parts st ++ ws.
Proof.
  induction ws as [|w ws IH]; intros st He Hq Hc Hws.
  - simpl. unfold flush. rewrite Hc. simpl. by rewrite List.app_nil_r.
  - apply Forall_cons in Hws as [Hw Hws].
    apply plainToken_inv in Hw as [Hne Hw].
    destruct ws as [|w' ws].
    + simpl. rewrite <-(app_nil_r w) at 1.
      rewrite scanFrom_plain by done. simpl. unfold flush; simpl.
      rewrite Hc, app_nil_l. apply nonEmpty_true in Hne. by rewrite Hne.
    + change (join " " (w :: w' :: ws))
        with (w +:+ String space (join " " (w' :: ws))).
      rewrite scanFrom_plain by done. rewrite Hc, app_nil_l.
      change (scanFrom (withCurrent st w) (String space (join " " (w' :: ws))))
        with (scanFrom (step (withCurrent st w) space
                          (peek (join " " (w' :: ws))))
                (join " " (w' :: ws))).
      rewrite step_space by (by destruct st).
      simpl current. apply nonEmpty_true in Hne. rewrite Hne.
      rewrite IH by done. simpl. by rewrite <-(assoc_L (++)).
Qed.

(** A first word and a space: the word is the first token. *)
Lemma tokens_word a rest :
  plainToken a = true ->
  tokens (a +:+ String space rest) = a :: tokens rest.
Proof.
  intros Ha. apply plainToken_inv in Ha as [Hne Ha].
  unfold tokens. rewrite scanFrom_plain by done.
  change (current initial +:+ a) with a.
  change (scanFrom (withCurrent initial a) (String space rest))
    with (scanFrom (step (withCurrent initial a) space (peek rest)) rest).
  rewrite step_space by done. cbn [withCurrent current parts initial].
  apply nonEmpty_true in Hne. rewrite Hne.
  change {| parts := [] ++ [a]; current := ""; inQuote := false;
            quoteChar := quoteChar (withCurrent initial a);
            escapeNext := false |}
    with (prepend [a] initial).
  by rewrite scanFrom_prepend, flush_prepend.
Qed.

(** X1. Words without space, quote or backslash, joined by single spaces,
    are recovered by the tokenizer, in their order. *)
Theorem tokens_join (ws : list string) :
  Forall (fun w => plainToken w = true) ws ->
  tokens (join " " ws) = ws.
Proof. intros H. unfold tokens. by rewrite scan_words. Qed.

Lemma tokens_join_witness :
  Forall (fun w => plainToken w = true) ["claude"; "--model"; "opus"]
  /\ tokens (join " " ["claude"; "--model"; "opus"])
     = ["claude"; "--model"; "opus"].
Proof.
  assert (Forall (fun w => plainToken w = true) ["claude"; "--model"; "opus"])
    as H by (repeat constructor).
  split; [exact H|]. exact (tokens_join _ H).
Defined.

Lemma scan_spaces s : forall st,
  escapeNext st = false -> inQuote st = false -> current st = "" ->
  allSpaces s = true -> scanFrom st s = st.
Proof.
  induction s as [|c s IH]; intros st He Hq Hc Hs; [done|].
  simpl in Hs. apply andb_true_iff in Hs as [Hsp Hs].
  apply Ascii.eqb_eq in Hsp as ->. simpl.
  rewrite step_space by done. rewrite Hc. simpl. by apply IH.
Qed.

(** X2. No token is the empty string, so an argument written as an empty
    pair of quotes is dropped; and a command made of spaces only has no
    token at all: its executable is the empty string. *)
Theorem tokens_never_empty (command : string) :
  ~ In "" (tokens command)
  /\ (allSpaces command = true ->
      parseCommand command = {| executable := ""; args := [] |}).
Proof.
  split.
  - intros Hin. pose proof (tokens_nonEmpty command) as H.
    rewrite Forall_forall in H. apply list_elem_of_In in Hin.
    by apply (H "" Hin).
  - intros Hs. apply parseCommand_nil. unfold tokens.
    by rewrite scan_spaces.
Qed.

Lemma tokens_never_empty_witness :
  allSpaces "   " = true
  /\ parseCommand "   " = {| executable := ""; args := [] |}.
Proof.
  split; [reflexivity|]. apply (proj2 (tokens_never_empty "   ")). reflexivity.
Defined.

(** The step inside a quote [q] on a character that is neither [q] nor a
    backslash. *)
Lemma step_in_quote ps cur q c next :
  isQuote q = true -> Ascii.eqb c q = false -> Ascii.eqb c backslash = false ->
  step {| parts := ps; current := cur; inQuote := true; quoteChar := Some q;
          escapeNext := false |} c next
  = {| parts := ps; current := push cur c; inQuote := true;
       quoteChar := Some q; escapeNext := false |}.
Proof.
  intros Hq Hc Hb. unfold step; simpl. rewrite Hb, Hc. simpl.
  by rewrite !andb_false_r.
Qed.

Lemma scan_in_quote q body : forall ps cur rest,
  isQuote q = true -> quotable q body = true ->
  scanFrom {| parts := ps; current := cur; inQuote := true;
              quoteChar := Some q; escapeNext := false |} (body +:+ rest)
  = scanFrom {| parts := ps; current := cur +:+ body; inQuote := true;
                quoteChar := Some q; escapeNext := false |} rest.
Proof.
  induction body as [|c body IH]; intros ps cur rest Hq Hb.
  - by rewrite app_nil_l, app_nil_r.
  - simpl in Hb. apply andb_true_iff in Hb as [Hb Hbody].
    apply andb_true_iff in Hb as [Hc Hbs].
    apply negb_true_iff in Hc, Hbs.
    rewrite app_cons. simpl. rewrite step_in_quote by done.
    rewrite IH by done. by rewrite app_push.
Qed.

(** The step on the quote that opens, and on the quote that closes. *)
Lemma step_open_quote ps cur q next :
  isQuote q = true ->
  step {| parts := ps; current := cur; inQuote := false; quoteChar := None;
          escapeNext := false |} q next
  = {| parts := ps; current := cur; inQuote := true; quoteChar := Some q;
       escapeNext := false |}.
Proof.
  intros Hq. unfold step; simpl. rewrite Hq.
  assert (Ascii.eqb q backslash = false) as ->; [|done].
  unfold isQuote in Hq. apply orb_true_iff in Hq as [H|H];
    apply Ascii.eqb_eq in H as ->; reflexivity.
Qed.

Lemma step_close_quote ps cur q next :
  isQuote q = true ->
  step {| parts := ps; current := cur; inQuote := true; quoteChar := Some q;
          escapeNext := false |} q next
  = {| parts := ps; current := cur; inQuote := false; quoteChar := None;
       escapeNext := false |}.
Proof.
  intros Hq. unfold step; simpl. rewrite Hq, Ascii.eqb_refl.
  assert (Ascii.eqb q backslash = false) as ->; [|done].
  unfold isQuote in Hq. apply orb_true_iff in Hq as [H|H];
    apply Ascii.eqb_eq in H as ->; reflexivity.
Qed.

(** X3. A text between two equal quotes, single or double, that holds
    neither that quote nor a backslash is one token, spaces and quotes of
    the other kind included, and the quotes themselves are removed; an
    empty pair of quotes gives no token. When the closing quote is
    missing, the text up to the end of the command is that token: an
    unterminated quote is no error. *)
Theorem quoted_token (q : ascii) (body rest : string) :
  isQuote q = true -> quotable q body = true ->
  tokens (String q (body +:+ String q (String space rest)))
    = (if nonEmpty body then [body] else []) ++ tokens rest
  /\ tokens (String q body) = if nonEmpty body then [body] else [].
Proof.
  intros Hq Hb. unfold tokens. split.
  - simpl. unfold initial. rewrite step_open_quote by done.
    rewrite scan_in_quote by done. rewrite app_nil_l. simpl.
    rewrite step_close_quote by done.
    unfold step; simpl.
    destruct (nonEmpty body) eqn:E; simpl.
    + change {| parts := [body]; current := ""; inQuote := false;
                quoteChar := None; escapeNext := false |}
        with (prepend [body] initial).
      by rewrite scanFrom_prepend, flush_prepend.
    + apply nonEmpty_false in E. by subst body.
  - simpl. unfold initial. rewrite step_open_quote by done.
    rewrite <-(app_nil_r body) at 1. rewrite scan_in_quote by done.
    rewrite app_nil_l. simpl. unfold flush; simpl.
    by destruct (nonEmpty body).
Qed.

Lemma quoted_token_witness :
  isQuote dquote = true /\ quotable dquote "/path with spaces/it's" = true
  /\ tokens (String dquote ("/path with spaces/it's"
                            +:+ String dquote (String space "-p")))
     = ["/path with spaces/it's"; "-p"].
Proof.
  split; [reflexivity|]. split; [reflexivity|].
  exact (proj1 (quoted_token dquote "/path with spaces/it's" "-p"
                  eq_refl eq_refl)).
Defined.

End TokenizerMore.

(** ** Model names, auto-detection and the caches of the instance *)
Module ProviderMore.
Import Js JsFacts Tokenizer TokenizerFacts ClaudeRC ClaudeRCFacts Provider
  ProviderFacts.

(** The three entries of the built-in table. *)
Lemma builtinAliases_values key full :
  builtinAliases !! key = Some full ->
  (key = "opus" /\ full = "claude-opus-4-20250514")
  \/ (key = "sonnet" /\ full = "claude-sonnet-4-20250514")
  \/ (key = "haiku" /\ full = "claude-3-haiku-20240307").
Proof.
  unfold builtinAliases. rewrite !lookup_insert, lookup_empty.
  repeat case_decide; subst; intros [= <-]; auto.
Qed.

Lemma lowerChar_idem c : lowerChar (lowerChar c) = lowerChar c.
Proof. by destruct c as [[] [] [] [] [] [] [] []]. Qed.

Lemma toLowerCase_idem s : toLowerCase (toLowerCase s) = toLowerCase s.
Proof.
  induction s as [|c s IH]; [done|]. simpl. by rewrite lowerChar_idem, IH.
Qed.

(** Of the inherited members, two have a name in lower case. *)
Lemma inherited_lower key :
  inherited key = true -> toLowerCase key = key ->
  key = "constructor" \/ key = "__proto__".
Proof.
  unfold inherited, prototypeFunctions. cbn [existsb].
  rewrite !orb_true_iff, !String.eqb_eq.
  intros H Hl.
  repeat (destruct H as [H|H]); subst; try (by auto); try done;
    by vm_compute in Hl.
Qed.

(** X4. [resolveModelAlias] answers a non-empty name with a value that
    counts as true, and [null] otherwise. When the answer is a string,
    resolving that string again gives it back. The answer is not a string
    exactly for the names that read constructor or __proto__ in lower
    case: it is then the member the table inherits from
    [Object.prototype], which has no [toLowerCase] and cannot be resolved
    again. Two names that differ in the case of their letters only, one
    of which the table knows, resolve to the same model. *)
Theorem resolveModelAlias_stable (o : option string) :
  truthyValue (resolveModelAlias o) = truthy o
  /\ (forall s, resolveModelAlias o = Some (Str s) ->
        resolveModelAlias (Some s) = Some (Str s))
  /\ (forall key,
        resolveModelAlias o = Some (Inherited key) <->
        (key = "constructor" \/ key = "__proto__")
        /\ exists name, o = Some name /\ toLowerCase name = key)
  /\ (forall a b full,
        o = Some a -> toLowerCase a = toLowerCase b ->
        builtinAliases !! toLowerCase a = Some full ->
        resolveModelAlias (Some b) = Some (Str full)
        /\ resolveModelAlias o = Some (Str full)).
Proof.
  split; [|split; [|split]].
  - destruct o as [name|]; [|done].
    unfold resolveModelAlias, truthy. fold (nonEmpty name).
    destruct (nonEmpty name) eqn:E; [|done].
    by destruct (truthyValue (getProperty _ _)) eqn:L.
  - destruct o as [name|]; [|done]. cbn [resolveModelAlias].
    destruct (nonEmpty name) eqn:E; [|done].
    destruct (truthyValue (getProperty _ _)) eqn:L.
    + intros s. unfold getProperty.
      destruct (builtinAliases !! toLowerCase name) as [full|] eqn:Hown.
      * intros [= <-].
        apply builtinAliases_values in Hown as [[_ ->]|[[_ ->]|[_ ->]]];
          by vm_compute.
      * by destruct (inherited _).
    + intros s [= <-]. by rewrite E, L.
  - intros key. split.
    + destruct o as [name|]; [|done]. cbn [resolveModelAlias].
      destruct (nonEmpty name) eqn:E; [|done].
      destruct (truthyValue (getProperty _ _)) eqn:L; [|done].
      unfold getProperty.
      destruct (builtinAliases !! toLowerCase name) as [full|]; [done|].
      destruct (inherited (toLowerCase name)) eqn:Hi; [|done].
      intros [= <-]. split; [|by exists name].
      apply inherited_lower; [done|apply toLowerCase_idem].
    + intros [Hkey (name & -> & Hname)]. cbn [resolveModelAlias].
      assert (nonEmpty name = true) as ->.
      { destruct name; [|done]. cbn in Hname. subst key.
        by destruct Hkey. }
      rewrite Hname. by destruct Hkey as [-> | ->].
  - intros a b full -> Hab L.
    assert (forall c, toLowerCase c = toLowerCase a -> nonEmpty c = true)
      as Hne.
    { intros c Hc. destruct c; [|done]. simpl in Hc. rewrite <-Hc in L.
      by apply builtinAliases_values in L as [[? _]|[[? _]|[? _]]]. }
    assert (full <> "") as Hfull.
    { by apply builtinAliases_values in L as [[_ ->]|[[_ ->]|[_ ->]]]. }
    cbn [resolveModelAlias].
    rewrite (Hne a eq_refl), (Hne b (eq_sym Hab)), <-Hab.
    unfold getProperty. rewrite L. cbn [truthyValue].
    apply nonEmpty_true in Hfull. by rewrite Hfull.
Qed.

Lemma resolveModelAlias_stable_witness :
  toLowerCase "Opus" = toLowerCase "OPUS"
  /\ resolveModelAlias (Some "OPUS") = Some (Str "claude-opus-4-20250514")
  /\ resolveModelAlias (Some "Constructor") = Some (Inherited "constructor").
Proof.
  split; [reflexivity|]. split.
  - refine (proj1 (proj2 (proj2 (proj2 (resolveModelAlias_stable (Some "Opus"))))
              "Opus" "OPUS" "claude-opus-4-20250514" eq_refl eq_refl _)).
    vm_compute. reflexivity.
  - apply (proj2 (proj2 (resolveModelAlias_stable (Some "Constructor")))).
    split; [by left|]. by exists "Constructor".
Defined.

Lemma detectClaudeCommand_again w w' pr :
  detectClaudeCommand w' (detectClaudeCommand w pr).2
  = detectClaudeCommand w pr.
Proof.
  unfold detectClaudeCommand.
  destruct (_detectedCommand pr) eqn:E; simpl.
  - destruct (match whichClaude w with Some _ => _ | None => _ end); simpl;
      [done|].
    by destruct (probe w (commonPaths w)).
  - by rewrite E.
  - by rewrite E.
Qed.

Lemma detectClaudeCommand_loaded w pr :
  _rcConfigLoaded (detectClaudeCommand w pr).2 = _rcConfigLoaded pr.
Proof.
  unfold detectClaudeCommand. destruct (_detectedCommand pr); [|done..].
  destruct (match whichClaude w with Some _ => _ | None => _ end); [done|].
  by destruct (probe w (commonPaths w)).
Qed.

Lemma getRCConfig_cached w env pr :
  _rcConfigLoaded pr = true -> getRCConfig w env pr = (_rcConfig pr, pr).
Proof. intros H. unfold getRCConfig. by rewrite H. Qed.

Lemma getRCConfig_loaded w env pr :
  _rcConfigLoaded (getRCConfig w env pr).2 = true
  /\ _rcConfig (getRCConfig w env pr).2 = (getRCConfig w env pr).1.
Proof.
  unfold getRCConfig. by destruct (_rcConfigLoaded pr) eqn:E.
Qed.

(** X5. Auto-detection runs once for an instance: after a first
    detection, every later detection on the instance gives the same
    answer and leaves the instance as it is, whatever the file system has
    become in the meantime; in particular a negative answer is kept. *)
Theorem detection_memoized (w w' : world) (pr : provider) :
  let first := detectClaudeCommand w pr in
  _detectedCommand first.2 <> NotAttempted
  /\ detectClaudeCommand w' first.2 = first.
Proof.
  split; [|apply detectClaudeCommand_again].
  unfold detectClaudeCommand.
  destruct (_detectedCommand pr) eqn:E; simpl; [|by rewrite E..].
  destruct (match whichClaude w with Some _ => _ | None => _ end); simpl;
    [done|].
  by destruct (probe w (commonPaths w)).
Qed.

Lemma probe_Some w paths p :
  probe w paths = Some p ->
  p ∈ paths /\ existsSync w p = true /\ accessExecutable w p = true.
Proof.
  induction paths as [|q paths IH]; simpl; [done|].
  destruct (existsSync w q && accessExecutable w q) eqn:E.
  - intros [= <-]. apply andb_true_iff in E as [? ?].
    split; [apply list_elem_of_here|done].
  - intros H. destruct (IH H) as (? & ? & ?).
    split; [by apply list_elem_of_further|done].
Qed.

Lemma probe_None w paths :
  probe w paths = None ->
  forall p, p ∈ paths -> existsSync w p && accessExecutable w p = false.
Proof.
  induction paths as [|q paths IH]; simpl; intros H p Hp.
  - by apply elem_of_nil in Hp.
  - destruct (existsSync w q && accessExecutable w q) eqn:E; [done|].
    apply elem_of_cons in Hp as [->|Hp]; [done|by apply IH].
Qed.

(** X6. A first detection answers with a path only if that path exists,
    and the path is either the non-empty answer of the lookup in PATH or
    one of the well-known paths of the platform that is also executable.
    The lookup in PATH comes first: when it names an existing file, that
    file is the answer. The answer is [null] only if no well-known path
    both exists and is executable. *)
Theorem detection_sound (w : world) (pr : provider) :
  _detectedCommand pr = NotAttempted ->
  (forall p, (detectClaudeCommand w pr).1 = Some p ->
     existsSync w p = true
     /\ ((whichClaude w = Some p /\ p <> "")
         \/ (p ∈ commonPaths w /\ accessExecutable w p = true)))
  /\ (forall r, whichClaude w = Some r -> r <> "" -> existsSync w r = true ->
        (detectClaudeCommand w pr).1 = Some r)
  /\ ((detectClaudeCommand w pr).1 = None ->
      forall p, p ∈ commonPaths w ->
        existsSync w p && accessExecutable w p = false).
Proof.
  intros E. unfold detectClaudeCommand. rewrite E. split; [|split].
  - intros p.
    destruct (whichClaude w) as [r|] eqn:Hw.
    + destruct (nonEmpty r && existsSync w r) eqn:Hr; simpl.
      * intros [= <-]. apply andb_true_iff in Hr as [Hn Hx].
        apply nonEmpty_true in Hn. auto.
      * destruct (probe w (commonPaths w)) as [q|] eqn:Hp; simpl; [|done].
        intros [= <-]. apply probe_Some in Hp as (? & ? & ?). auto.
    + destruct (probe w (commonPaths w)) as [q|] eqn:Hp; simpl; [|done].
      intros [= <-]. apply probe_Some in Hp as (? & ? & ?). auto.
  - intros r -> Hn Hx. apply nonEmpty_true in Hn. by rewrite Hn, Hx.
  - destruct (match whichClaude w with Some _ => _ | None => _ end);
      simpl; [done|].
    destruct (probe w (commonPaths w)) eqn:Hp; simpl; [done|].
    intros _. by apply probe_None.
Qed.

Lemma detection_sound_witness :
  _detectedCommand newProvider = NotAttempted
  /\ (detectClaudeCommand Scenarios.bareWorld newProvider).1 = None
  /\ existsSync Scenarios.bareWorld "/usr/bin/claude"
     && accessExecutable Scenarios.bareWorld "/usr/bin/claude" = false.
Proof.
  split; [reflexivity|]. split; [reflexivity|].
  refine (proj2 (proj2 (detection_sound Scenarios.bareWorld newProvider
                          eq_refl)) eq_refl "/usr/bin/claude" _).
  apply list_elem_of_here.
Defined.

(** X7. The RC configuration is read once for an instance: after a first
    call of [getRCConfig], the instance is marked as loaded, and every
    later call gives the same configuration and leaves the instance as it
    is, whatever the files and the environment have become; a load that
    found no file is not tried again. *)
Theorem rc_config_memoized (w w' : world) (env env' : gmap string string)
  (pr : provider) :
  let first := getRCConfig w env pr in
  _rcConfigLoaded first.2 = true
  /\ _rcConfig first.2 = first.1
  /\ getRCConfig w' env' first.2 = first.
Proof.
  unfold getRCConfig. destruct (_rcConfigLoaded pr) eqn:E; simpl.
  - rewrite E. by destruct pr.
  - done.
Qed.

Lemma selectBaseCommand_again w w' env ps rc pr :
  selectBaseCommand w' env ps rc (selectBaseCommand w env ps rc pr).2
  = selectBaseCommand w env ps rc pr.
Proof.
  unfold selectBaseCommand.
  repeat (destruct (truthy _); [done|]).
  pose proof (detectClaudeCommand_again w w' pr) as H.
  destruct (detectClaudeCommand w pr) as [d pr2]. simpl in H.
  destruct (truthy d) eqn:E; simpl; by rewrite H, E.
Qed.

Lemma selectBaseCommand_keeps w env ps rc pr :
  _rcConfigLoaded (selectBaseCommand w env ps rc pr).2 = _rcConfigLoaded pr
  /\ _rcConfig (selectBaseCommand w env ps rc pr).2 = _rcConfig pr.
Proof.
  unfold selectBaseCommand.
  repeat (destruct (truthy _); [done|]).
  pose proof (detectClaudeCommand_loaded w pr) as H1.
  pose proof (detectClaudeCommand_rcConfig w pr) as H2.
  destruct (detectClaudeCommand w pr) as [d pr2]. simpl in *.
  by destruct (truthy d).
Qed.

(** X8. A resolution repeated on the same instance with the same
    parameters and environment gives the same answer and leaves the
    instance as the first one left it, even if the RC files or the
    installed executables have changed in between: the instance answers
    from its caches. *)
Theorem resolution_repeatable (w w' : world) (env : gmap string string)
  (ps : params) (pr : provider) :
  let first := getClaudeCommandParsed w env ps pr in
  getClaudeCommandParsed w' env ps first.2 = first.
Proof.
  unfold getClaudeCommandParsed, resolve.
  destruct (getRCConfig_loaded w env pr) as [Hl Hc].
  destruct (getRCConfig w env pr) as [rc pr1]. simpl in Hl, Hc.
  pose proof (selectBaseCommand_again w w' env ps rc pr1) as Hagain.
  destruct (selectBaseCommand_keeps w env ps rc pr1) as [Hl' Hc'].
  destruct (selectBaseCommand w env ps rc pr1) as [b pr2]. simpl in *.
  rewrite Hl in Hl'. rewrite Hc in Hc'.
  destruct b as [s|]; [destruct (nonEmpty s) eqn:En|]; cbn [snd];
    rewrite (getRCConfig_cached _ _ _ Hl'), Hc', Hagain; by rewrite ?En.
Qed.

(** X9. Resolution looks for an installed executable only when the
    parameters, the environment and the cached RC configuration hold no
    command: with a command in one of them, the detection cache of the
    instance stays as it was; without, detection has been attempted by
    the time the resolution returns. *)
Theorem detection_on_demand (w : world) (env : gmap string string)
  (ps : params) (pr : provider) :
  let after := (getClaudeCommandParsed w env ps pr).2 in
  (firstAvailable [ claudeCodeCommand ps; env !! "CLAUDE_CODE_COMMAND";
                    rcConfigOf w env pr ≫= (command ∘ effective) ] <> None ->
   _detectedCommand after = _detectedCommand pr)
  /\ (firstAvailable [ claudeCodeCommand ps; env !! "CLAUDE_CODE_COMMAND";
                       rcConfigOf w env pr ≫= (command ∘ effective) ] = None ->
      _detectedCommand after <> NotAttempted).
Proof.
  unfold getClaudeCommandParsed, resolve, rcConfigOf.
  assert (_detectedCommand (getRCConfig w env pr).2 = _detectedCommand pr)
    as Hd by (unfold getRCConfig; by destruct (_rcConfigLoaded pr)).
  destruct (getRCConfig w env pr) as [rc pr1]. simpl in *.
  unfold selectBaseCommand.
  cbn [firstAvailable].
  destruct (truthy (claudeCodeCommand ps)) eqn:E1.
  { split; [intros _|by intros H; rewrite H in E1].
    destruct (claudeCodeCommand ps) as [s|]; [|done].
    by destruct (nonEmpty s). }
  destruct (truthy (env !! "CLAUDE_CODE_COMMAND")) eqn:E2.
  { split; [intros _|by intros H; rewrite H in E2].
    destruct (env !! "CLAUDE_CODE_COMMAND") as [s|]; [|done].
    by destruct (nonEmpty s). }
  destruct (truthy (rc ≫= (command ∘ effective))) eqn:E3.
  { split; [intros _|by intros H; rewrite H in E3].
    destruct (rc ≫= (command ∘ effective)) as [s|]; [|done].
    by destruct (nonEmpty s). }
  split; [done|]. intros _.
  assert (_detectedCommand (detectClaudeCommand w pr1).2 <> NotAttempted) as H.
  { unfold detectClaudeCommand.
    destruct (_detectedCommand pr1) eqn:E; simpl; [|by rewrite E..].
    destruct (match whichClaude w with Some _ => _ | None => _ end); simpl;
      [done|].
    by destruct (probe w (commonPaths w)). }
  destruct (detectClaudeCommand w pr1) as [d pr2]. simpl in H.
  destruct (truthy d); [|done].
  destruct d as [s|]; [|done]. by destruct (nonEmpty s).
Qed.

Lemma detection_on_demand_witness :
  firstAvailable
    [ claudeCodeCommand Scenarios.noParams;
      Scenarios.plainEnv !! "CLAUDE_CODE_COMMAND";
      rcConfigOf Scenarios.bareWorld Scenarios.plainEnv newProvider
        ≫= (command ∘ effective) ] <> None
  /\ _detectedCommand
       (getClaudeCommandParsed Scenarios.bareWorld Scenarios.plainEnv
          Scenarios.noParams newProvider).2
     = NotAttempted.
Proof.
  assert (firstAvailable
    [ claudeCodeCommand Scenarios.noParams;
      Scenarios.plainEnv !! "CLAUDE_CODE_COMMAND";
      rcConfigOf Scenarios.bareWorld Scenarios.plainEnv newProvider
        ≫= (command ∘ effective) ] <> None) as H by (vm_compute; discriminate).
  split; [exact H|].
  exact (proj1 (detection_on_demand Scenarios.bareWorld Scenarios.plainEnv
                  Scenarios.noParams newProvider) H).
Defined.

End ProviderMore.

(** ** The RC-file helpers *)
Module ClaudeRCMore.
Import Js JsFacts Tokenizer ClaudeRC ClaudeRCFacts Shapes.

Lemma isQuote_cases q : isQuote q = true -> q = dquote \/ q = squote.
Proof.
  unfold isQuote. rewrite orb_true_iff, !Ascii.eqb_eq. tauto.
Qed.

Lemma lastChar_snoc s c : lastChar (s +:+ String c "") = Some c.
Proof.
  induction s as [|d s IH]; [done|]. rewrite app_cons. simpl.
  rewrite IH. by destruct s.
Qed.

Lemma dropLast_snoc s c : dropLast (s +:+ String c "") = s.
Proof.
  induction s as [|d s IH]; [done|]. rewrite app_cons. simpl.
  rewrite IH. by destruct s.
Qed.

Lemma startsWith_char a c r :
  startsWith (String a "") (String c r) = Ascii.eqb a c.
Proof.
  unfold startsWith. cbn [String.prefix].
  destruct (ascii_dec a c) as [->|Hne].
  - rewrite Ascii.eqb_refl. by destruct r.
  - symmetry. by apply Ascii.eqb_neq.
Qed.

Lemma unquote_quoted q s :
  isQuote q = true -> unquote (String q (s +:+ String q "")) = s.
Proof.
  intros Hq. unfold unquote, startsWith, endsWithChar.
  change (String q (s +:+ String q "")) with ((String q s) +:+ String q "").
  rewrite lastChar_snoc. rewrite app_cons. simpl.
  rewrite dropLast_snoc.
  apply isQuote_cases in Hq as [-> | ->]; simpl; by destruct s.
Qed.

Lemma unquote_other c r : isQuote c = false -> unquote (String c r) = String c r.
Proof.
  intros Hc. unfold unquote. rewrite !startsWith_char.
  unfold isQuote in Hc. apply orb_false_iff in Hc as [H1 H2].
  rewrite Ascii.eqb_sym in H1. rewrite Ascii.eqb_sym in H2.
  by rewrite H1, H2.
Qed.

(** X10. [unquote] removes one pair of equal quotes around a text,
    whatever the text holds, and nothing else: a text that does not start
    with a quote is returned as it is. A text made of one quote character
    only becomes empty. *)
Theorem unquote_pair (q : ascii) (s : string) :
  isQuote q = true ->
  unquote (String q (s +:+ String q "")) = s
  /\ unquote (String q "") = ""
  /\ (forall c r, isQuote c = false -> unquote (String c r) = String c r).
Proof.
  intros Hq. split; [by apply unquote_quoted|]. split.
  - by apply isQuote_cases in Hq as [-> | ->].
  - intros c r Hc. by apply unquote_other.
Qed.

Lemma unquote_pair_witness :
  isQuote dquote = true
  /\ unquote (String dquote ("--model 'x'" +:+ String dquote ""))
     = "--model 'x'".
Proof.
  split; [reflexivity|].
  exact (proj1 (unquote_pair dquote "--model 'x'" eq_refl)).
Defined.

(** The loop of [findUnquotedChar] answers with a position of the
    character. *)
Lemma findUnquotedFrom_get char rest : forall sq dq esc i j,
  findUnquotedFrom char sq dq esc i rest = Some j ->
  exists k, j = i + k /\ String.get k rest = Some char.
Proof.
  induction rest as [|c rest IH]; intros sq dq esc i j; simpl; [done|].
  assert (forall sq' dq' esc',
    findUnquotedFrom char sq' dq' esc' (S i) rest = Some j ->
    exists k, j = i + k /\
      match k with 0 => Some c | S k' => String.get k' rest end = Some char)
    as Hnext.
  { intros sq' dq' esc' H. apply IH in H as (k & -> & Hk).
    exists (S k). split; [lia|done]. }
  destruct esc; [by apply Hnext|].
  destruct (Ascii.eqb c backslash); [by apply Hnext|].
  destruct (Ascii.eqb c squote && negb dq); [by apply Hnext|].
  destruct (Ascii.eqb c dquote && negb sq); [by apply Hnext|].
  destruct (Ascii.eqb c char && negb sq && negb dq) eqn:E; [|by apply Hnext].
  intros [= <-]. exists 0. split; [lia|].
  apply andb_true_iff in E as [E _]. apply andb_true_iff in E as [E _].
  by apply Ascii.eqb_eq in E as ->.
Qed.

(** On a text without quote and backslash the loop is a plain search. *)
Lemma findUnquotedFrom_quoteFree char s : forall i,
  quoteFree s = true ->
  findUnquotedFrom char false false false i s
  = (fun k => i + k) <$> indexOf char s.
Proof.
  induction s as [|c s IH]; intros i Hs; simpl; [done|].
  simpl in Hs. apply andb_true_iff in Hs as [Hc Hs].
  apply andb_true_iff in Hc as [Hq Hb].
  apply negb_true_iff in Hq, Hb. rewrite Hb.
  unfold isQuote in Hq. apply orb_false_iff in Hq as [Hd Hsq].
  rewrite Hd, Hsq. simpl. rewrite andb_true_r.
  destruct (Ascii.eqb c char); simpl; [f_equal; lia|].
  rewrite IH by done. destruct (indexOf char s); simpl; [f_equal; lia|done].
Qed.

(** Inside a pair of quotes nothing is found. *)
Lemma findUnquotedFrom_inside char q body : forall i rest,
  isQuote q = true -> quotable q body = true ->
  findUnquotedFrom char (Ascii.eqb q squote) (Ascii.eqb q dquote) false i
    (body +:+ String q rest)
  = findUnquotedFrom char false false false (S (i + String.length body)) rest.
Proof.
  induction body as [|c body IH]; intros i rest Hq Hb.
  - rewrite app_nil_l. simpl.
    apply isQuote_cases in Hq as [-> | ->]; simpl; f_equal; lia.
  - simpl in Hb. apply andb_true_iff in Hb as [Hc Hbody].
    apply andb_true_iff in Hc as [Hcq Hcb].
    apply negb_true_iff in Hcq, Hcb.
    rewrite app_cons. simpl. rewrite Hcb.
    replace (S (i + S (String.length body)))
      with (S (S i + String.length body)) by lia.
    rewrite <-IH by done.
    apply isQuote_cases in Hq as [-> | ->]; simpl in *.
    + rewrite Hcq. simpl. rewrite !andb_false_r. done.
    + rewrite Hcq. simpl. rewrite !andb_false_r.
      by destruct (Ascii.eqb c dquote).
Qed.

(** Starting the count of the loop later moves its answer. *)
Lemma findUnquotedFrom_shift char n rest : forall sq dq esc i,
  findUnquotedFrom char sq dq esc (n + i) rest
  = (fun k => n + k) <$> findUnquotedFrom char sq dq esc i rest.
Proof.
  induction rest as [|c rest IH]; intros sq dq esc i; [done|].
  cbn [findUnquotedFrom]. replace (S (n + i)) with (n + S i) by lia.
  destruct esc; [by apply IH|].
  destruct (Ascii.eqb c backslash); [by apply IH|].
  destruct (Ascii.eqb c squote && negb dq); [by apply IH|].
  destruct (Ascii.eqb c dquote && negb sq); [by apply IH|].
  destruct (Ascii.eqb c char && negb sq && negb dq); [done|by apply IH].
Qed.

Lemma findUnquotedFrom_open char q i rest :
  isQuote q = true ->
  findUnquotedFrom char false false false i (String q rest)
  = findUnquotedFrom char (Ascii.eqb q squote) (Ascii.eqb q dquote) false
      (S i) rest.
Proof.
  intros Hq. by apply isQuote_cases in Hq as [-> | ->].
Qed.

(** X11. [findUnquotedChar] answers with an index at which the text holds
    the character. On a text without quotes and backslashes it is the
    first index of the character. A pair of quotes hides what it
    encloses: the search over a quoted text followed by [rest] is the
    search over [rest], moved by the length of the quoted text. *)
Theorem findUnquotedChar_spec (char : ascii) (s : string) :
  (forall i, findUnquotedChar s char = Some i -> String.get i s = Some char)
  /\ (quoteFree s = true -> findUnquotedChar s char = indexOf char s)
  /\ (forall q body rest,
        isQuote q = true -> quotable q body = true ->
        s = String q (body +:+ String q rest) ->
        findUnquotedChar s char
        = (fun k => String.length body + 2 + k) <$> findUnquotedChar rest char).
Proof.
  unfold findUnquotedChar. split; [|split].
  - intros i H. by apply findUnquotedFrom_get in H as (k & -> & H).
  - intros H. rewrite findUnquotedFrom_quoteFree by done.
    by destruct (indexOf char s).
  - intros q body rest Hq Hb ->.
    rewrite findUnquotedFrom_open by done.
    rewrite findUnquotedFrom_inside by done.
    rewrite <-findUnquotedFrom_shift. f_equal. lia.
Qed.

Lemma findUnquotedChar_spec_witness :
  quoteFree "fast=--model x" = true
  /\ findUnquotedChar "fast=--model x" "=" = indexOf "="%char "fast=--model x".
Proof.
  split; [reflexivity|].
  exact (proj1 (proj2 (findUnquotedChar_spec "=" "fast=--model x")) eq_refl).
Defined.

(** *** Lines of the RC file *)

Lemma substringFrom_app pre c s :
  substringFrom (S (String.length pre)) (pre +:+ String c s) = s.
Proof.
  induction pre as [|d pre IH]; [by rewrite app_nil_l|].
  by rewrite app_cons.
Qed.

Lemma substring_prefix x post : substring 0 (String.length x) (x +:+ post) = x.
Proof. exact (ObjectGenFacts.substring_middle "" x post). Qed.

Lemma trimEnd_snoc s c :
  isWhiteSpace c = false -> trimEnd (s +:+ String c "") = s +:+ String c "".
Proof.
  intros Hc. induction s as [|d s IH].
  - rewrite app_nil_l. simpl. by rewrite Hc.
  - rewrite app_cons. simpl. rewrite IH. by destruct s.
Qed.

Lemma trim_ends c s d :
  isWhiteSpace c = false -> isWhiteSpace d = false ->
  trim (String c (s +:+ String d "")) = String c (s +:+ String d "").
Proof.
  intros Hc Hd. unfold trim. cbn [trimStart]. rewrite Hc.
  change (String c (s +:+ String d "")) with (String c s +:+ String d "").
  by apply trimEnd_snoc.
Qed.

Lemma nameChars_cons c r :
  nameChars (String c r) = true ->
  isWhiteSpace c = false /\ isQuote c = false /\ Ascii.eqb c backslash = false
  /\ Ascii.eqb c "=" = false /\ nameChars r = true.
Proof.
  simpl. rewrite !andb_true_iff, !negb_true_iff. tauto.
Qed.

Lemma trim_name s : nameChars s = true -> trim s = s.
Proof.
  intros H. unfold trim.
  assert (trimStart s = s) as ->.
  { destruct s as [|c r]; [done|].
    apply nameChars_cons in H as (Hc & _). simpl. by rewrite Hc. }
  induction s as [|c r IH]; [done|].
  apply nameChars_cons in H as (Hc & _ & _ & _ & Hr).
  simpl. rewrite IH by done. destruct r; [by rewrite Hc|done].
Qed.

Lemma isQuote_notWhiteSpace q : isQuote q = true -> isWhiteSpace q = false.
Proof. intros Hq. by apply isQuote_cases in Hq as [-> | ->]. Qed.

(** The first equals sign after a name is the one the search answers
    with, whatever follows it. *)
Lemma findUnquotedFrom_name name rest : forall i,
  nameChars name = true ->
  findUnquotedFrom "=" false false false i (name +:+ String "=" rest)
  = Some (i + String.length name).
Proof.
  induction name as [|c name IH]; intros i H.
  - rewrite app_nil_l. simpl. f_equal. lia.
  - apply nameChars_cons in H as (_ & Hq & Hb & He & Hr).
    rewrite app_cons. cbn [findUnquotedFrom]. rewrite Hb.
    unfold isQuote in Hq. apply orb_false_iff in Hq as [Hd Hs].
    rewrite Hd, Hs, He. cbn [andb]. rewrite IH by done.
    f_equal. simpl. lia.
Qed.

(** X12. A line [alias name=<q>text<q>], with a name free of white space,
    quotes, backslashes and equals signs and with the text between two
    equal quotes, records [text] under [name], whatever characters the
    text holds; when the text is empty nothing is recorded. The name
    [__proto__] is the exception: the assignment to it changes nothing,
    and the line records nothing. An equals sign that stands between
    quotes is not seen: a line whose content is one quoted text records
    nothing. *)
Theorem parseAlias_line (name text : string) (q : ascii)
  (als : gmap string string) :
  plainName name = true -> isQuote q = true ->
  (name <> "__proto__" ->
   parseAlias
     ("alias " +:+ name +:+ String "=" (String q (text +:+ String q ""))) als
   = (if nonEmpty text then <[name := text]> als else als))
  /\ (name = "__proto__" ->
      parseAlias
        ("alias " +:+ name +:+ String "=" (String q (text +:+ String q "")))
        als
      = als)
  /\ (quotable q text = true ->
      parseAlias ("alias " +:+ String q (text +:+ String q "")) als = als).
Proof.
  intros Hname Hq. pose proof Hname as Hplain. unfold plainName in Hname.
  apply andb_true_iff in Hname as [Hne Hname].
  pose proof (isQuote_notWhiteSpace q Hq) as Hws.
  assert (parseAlias
            ("alias " +:+ name
             +:+ String "=" (String q (text +:+ String q ""))) als
          = if nonEmpty text then setProperty als name text else als) as Hset.
  2:{ rewrite Hset. split; [|split].
      - intros Hn. by rewrite setProperty_insert.
      - intros ->. by destruct (nonEmpty text).
      - intros Hb. unfold parseAlias.
        change (substringFrom 6 ("alias " +:+ ?x)) with x.
        rewrite trim_ends by done.
        unfold findUnquotedChar.
        rewrite findUnquotedFrom_open, findUnquotedFrom_inside by done.
        done. }
  - unfold parseAlias.
    change (substringFrom 6 ("alias " +:+ ?x)) with x.
    destruct name as [|c name]; [done|].
    pose proof Hname as Hname'.
    apply nameChars_cons in Hname' as (Hc & _).
    set (value := String q (text +:+ String q "")).
    assert (trim (String c name +:+ String "=" value)
            = String c name +:+ String "=" value) as ->.
    { rewrite app_cons. subst value.
      change (String "=" (String q (text +:+ String q "")))
        with (String "=" (String q text) +:+ String q "").
      rewrite <-app_assoc. by apply trim_ends. }
    unfold findUnquotedChar. rewrite findUnquotedFrom_name by done.
    cbn [Nat.add]. rewrite substring_prefix, trim_name by done.
    rewrite substringFrom_app. subst value.
    rewrite trim_ends, unquote_quoted by done. done.
Qed.

Lemma parseAlias_line_witness :
  plainName "fast" = true /\ isQuote squote = true /\ "fast" <> "__proto__"
  /\ parseAlias
       ("alias " +:+ "fast" +:+
        String "=" (String squote ("--model sonnet" +:+ String squote "")))
       ∅
     = <[ "fast" := "--model sonnet" ]> ∅.
Proof.
  assert ("fast" <> "__proto__") as Hn by discriminate.
  split; [reflexivity|]. split; [reflexivity|]. split; [exact Hn|].
  exact (proj1 (parseAlias_line "fast" "--model sonnet" squote ∅
                  eq_refl eq_refl) Hn).
Defined.

(** *** References to variables *)

Lemma expandVariables_expandFrom env s :
  expandVariables env s = expandFrom env 0 s.
Proof. by destruct s. Qed.

Lemma expandFrom_0 env c r :
  expandFrom env 0 (String c r)
  = match matchReference (String c r) with
    | Some (varName, len) =>
        default (substring 0 len (String c r)) (lookupTruthy env varName)
        +:+ expandFrom env (len - 1) r
    | None => String c (expandFrom env 0 r)
    end.
Proof.
  cbn [expandFrom]. destruct (matchReference _) as [[varName len]|]; [|done].
  by destruct (lookupTruthy env varName).
Qed.

Lemma matchReference_other c r :
  c <> "$"%char -> matchReference (String c r) = None.
Proof.
  intros Hc.
  destruct c as [[] [] [] [] [] [] [] []]; try reflexivity.
  by destruct Hc.
Qed.

Lemma expandFrom_plain env pre s :
  indexOf "$" pre = None ->
  expandFrom env 0 (pre +:+ s) = pre +:+ expandFrom env 0 s.
Proof.
  induction pre as [|c pre IH]; [by rewrite !app_nil_l|].
  intros Hpre. cbn [indexOf] in Hpre.
  destruct (Ascii.eqb_spec c "$") as [|Hc]; [done|].
  apply fmap_None in Hpre. rewrite !app_cons.
  rewrite expandFrom_0, matchReference_other by done.
  by rewrite IH.
Qed.

Lemma expandFrom_skip env x rest :
  expandFrom env (String.length x) (x +:+ rest) = expandFrom env 0 rest.
Proof.
  induction x as [|c x IH]; [by rewrite app_nil_l|].
  rewrite app_cons. simpl. exact IH.
Qed.

Lemma wordPrefix_app name rest :
  wordChars name = true ->
  (forall c, firstChar rest = Some c -> isWordChar c = false) ->
  wordPrefix (name +:+ rest) = name.
Proof.
  intros Hname Hrest. induction name as [|c name IH].
  - rewrite app_nil_l. destruct rest as [|d rest]; [done|].
    simpl. by rewrite (Hrest d).
  - simpl in Hname. apply andb_true_iff in Hname as [Hc Hname].
    rewrite app_cons. simpl. by rewrite Hc, IH.
Qed.

Lemma matchReference_word c r :
  isWordChar c = true ->
  matchReference (String "$" (String c r))
  = Some (wordPrefix (String c r), S (String.length (wordPrefix (String c r)))).
Proof.
  intros Hc. cbn [wordPrefix]. rewrite Hc.
  destruct c as [[] [] [] [] [] [] [] []]; try reflexivity;
    by vm_compute in Hc.
Qed.

Lemma matchReference_braces name rest :
  nonEmpty name = true -> indexOf "}" name = None ->
  matchReference (String "$" (String "{" (name +:+ String "}" rest)))
  = Some (name, String.length name + 3).
Proof.
  intros Hne Hname. cbn [matchReference].
  rewrite ObjectGenFacts.indexOf_app by done.
  destruct name as [|c name]; [done|]. cbn [String.length].
  change (S (String.length name)) with (String.length (String c name)).
  by rewrite substring_prefix.
Qed.

(** X13. [expandVariables] copies a text without dollar sign as it is.
    After a text without dollar sign, a reference [$NAME] (a run of word
    characters that the next character does not continue) or [${NAME}]
    (any non-empty name without closing brace) is replaced by what the read
    [process.env[NAME]] gives when that counts as true, and left as written
    otherwise. The read gives the value of the variable when it is set:
    the reference is replaced when the value is not empty. When the
    variable is not set, the read gives the member that [process.env]
    inherits under that name, if there is one, and the reference is
    replaced by the text of that member: [$constructor] becomes the text
    of a function. What replaces the reference is not expanded again, and
    the expansion goes on with the text after the reference. *)
Theorem expandVariables_reference (env : gmap string string)
  (pre name rest : string) :
  indexOf "$" pre = None -> nonEmpty name = true ->
  let read :=
    match env !! name with
    | Some value => if nonEmpty value then Some value else None
    | None => if inherited name then Some (text (Inherited name)) else None
    end in
  expandVariables env pre = pre
  /\ (wordChars name = true ->
      (forall c, firstChar rest = Some c -> isWordChar c = false) ->
      expandVariables env (pre +:+ String "$" (name +:+ rest))
      = pre +:+ default (String "$" name) read
            +:+ expandVariables env rest)
  /\ (indexOf "}" name = None ->
      expandVariables env
        (pre +:+ String "$" (String "{" (name +:+ String "}" rest)))
      = pre +:+ default (String "$" (String "{" (name +:+ "}"))) read
            +:+ expandVariables env rest)
  /\ (env !! "constructor" = None ->
      expandVariables env "$constructor"
      = "function Object() { [native code] }").
Proof.
  intros Hpre Hne read.
  assert (lookupTruthy env name = read) as <- by apply lookupTruthy_read.
  assert (env !! "constructor" = None ->
          expandVariables env "$constructor"
          = "function Object() { [native code] }") as Hmember.
  { intros Hc. rewrite expandVariables_expandFrom.
    rewrite expandFrom_0.
    change (matchReference "$constructor") with (Some ("constructor", 12)).
    cbn match. rewrite (lookupTruthy_inherited env "constructor" Hc eq_refl).
    reflexivity. }
  rewrite !expandVariables_expandFrom.
  split; [|split; [|split; [|exact Hmember]]].
  - rewrite <-(app_nil_r pre) at 1. rewrite expandFrom_plain by done.
    by rewrite app_nil_r.
  - intros Hname Hrest. rewrite expandFrom_plain by done. f_equal.
    destruct name as [|c name]; [done|].
    pose proof Hname as Hc. simpl in Hc. apply andb_true_iff in Hc as [Hc _].
    rewrite app_cons, expandFrom_0, matchReference_word by done.
    rewrite <-app_cons, wordPrefix_app by done.
    cbn [Nat.sub]. rewrite Nat.sub_0_r, expandFrom_skip.
    f_equal. f_equal.
    change (S (String.length (String c name)))
      with (String.length (String "$" (String c name))).
    change (String "$" (String c name +:+ rest))
      with (String "$" (String c name) +:+ rest).
    by rewrite substring_prefix.
  - intros Hname. rewrite expandFrom_plain by done. f_equal.
    rewrite expandFrom_0, matchReference_braces by done.
    replace (String.length name + 3 - 1)
      with (String.length (String "{" (name +:+ "}")))
      by (rewrite <-app_cons, ObjectGenFacts.length_app; simpl; lia).
    replace (String "{" (name +:+ String "}" rest))
      with (String "{" (name +:+ "}") +:+ rest)
      by (by rewrite app_cons, app_assoc).
    rewrite expandFrom_skip. f_equal. f_equal.
    replace (String.length name + 3)
      with (String.length (String "$" (String "{" (name +:+ "}"))))
      by (rewrite <-!app_cons, ObjectGenFacts.length_app; simpl; lia).
    exact (substring_prefix (String "$" (String "{" (name +:+ "}"))) rest).
Qed.

Lemma expandVariables_reference_witness :
  indexOf "$" "--dir " = None /\ nonEmpty "HOME" = true
  /\ expandVariables {[ "HOME" := "/home/dev" ]} "--dir $HOME/bin"
     = "--dir /home/dev/bin"
  /\ expandVariables {[ "HOME" := "/home/dev" ]} "$constructor"
     = "function Object() { [native code] }".
Proof.
  split; [reflexivity|]. split; [reflexivity|].
  pose proof (expandVariables_reference {[ "HOME" := "/home/dev" ]}
                "--dir " "HOME" "/bin" eq_refl eq_refl) as (_ & H & _ & Hc).
  split; [|exact (Hc eq_refl)].
  refine (H eq_refl _). by intros c [= <-].
Defined.

(** *** Assignments *)

Lemma lastChar_cons c r :
  lastChar (String c r) = Some (default c (lastChar r)).
Proof.
  revert c. induction r as [|d r IH]; intros c; [done|].
  change (lastChar (String c (String d r))) with (lastChar (String d r)).
  by rewrite IH.
Qed.

Lemma lastChar_app x c r : lastChar (x +:+ String c r) = lastChar (String c r).
Proof.
  induction x as [|d x IH]; [by rewrite app_nil_l|].
  rewrite app_cons, lastChar_cons, IH. by rewrite lastChar_cons.
Qed.

Lemma trimEnd_lastChar s :
  (forall c, lastChar s = Some c -> isWhiteSpace c = false) -> trimEnd s = s.
Proof.
  induction s as [|c r IH]; intros H; [done|].
  cbn [trimEnd]. rewrite IH.
  - destruct r; [|done]. by rewrite (H c).
  - intros d Hd. apply H. rewrite lastChar_cons, Hd. done.
Qed.

Lemma trim_isTrimmed s : isTrimmed s -> trim s = s.
Proof.
  intros [Hfirst Hlast]. unfold trim.
  assert (trimStart s = s) as ->; [|by apply trimEnd_lastChar].
  destruct s as [|c r]; [done|]. cbn [trimStart]. by rewrite (Hfirst c).
Qed.

Lemma nameChars_indexOf c name :
  nameChars name = true ->
  (isWhiteSpace c || isQuote c || Ascii.eqb c backslash || Ascii.eqb c "=")%bool
  = true ->
  indexOf c name = None.
Proof.
  intros Hname Hc. induction name as [|d name IH]; [done|].
  apply nameChars_cons in Hname as (H1 & H2 & H3 & H4 & Hr).
  cbn [indexOf]. destruct (Ascii.eqb_spec d c) as [->|_].
  - by rewrite H1, H2, H3, H4 in Hc.
  - by rewrite IH.
Qed.

(** A name, an equals sign and a text without white space at its ends
    make a text without white space at its ends. *)
Lemma assignment_isTrimmed name value :
  plainName name = true -> isTrimmed value ->
  isTrimmed (name +:+ String "=" value).
Proof.
  intros Hname [_ Hlast]. apply andb_true_iff in Hname as [Hne Hname].
  destruct name as [|c name]; [done|].
  apply nameChars_cons in Hname as (Hc & _). split.
  - rewrite app_cons. by intros ? [= <-].
  - intros d. rewrite lastChar_app, lastChar_cons.
    destruct (lastChar value) as [e|] eqn:E; cbn [default]; intros [= <-].
    + by apply Hlast.
    + done.
Qed.

Lemma parseAssignment_line env name value target :
  plainName name = true -> isTrimmed value ->
  parseAssignment env (name +:+ String "=" value) target
  = setProperty target name (expandVariables env (unquote value)).
Proof.
  intros Hname Hvalue. unfold parseAssignment.
  pose proof Hname as Hn. apply andb_true_iff in Hn as [Hne Hn].
  rewrite ObjectGenFacts.indexOf_app by (by apply nameChars_indexOf).
  rewrite substring_prefix, substringFrom_app, trim_name by done.
  by rewrite Hne, trim_isTrimmed.
Qed.

Lemma startsWith_app p s : startsWith p (p +:+ s) = true.
Proof.
  unfold startsWith. induction p as [|a p IH].
  - rewrite app_nil_l. by destruct s.
  - rewrite app_cons. cbn [String.prefix].
    by destruct (ascii_dec a a).
Qed.

Lemma startsWith_alias s :
  includesChar space s = false -> startsWith "alias " s = false.
Proof.
  unfold includesChar, startsWith. intros H.
  destruct s as [|c0 [|c1 [|c2 [|c3 [|c4 [|c5 s]]]]]]; try reflexivity;
    cbn [String.prefix];
    repeat (match goal with
            | |- context [ascii_dec ?a ?b] =>
                destruct (ascii_dec a b) as [<-|]; [|reflexivity]
            end);
    try reflexivity.
  by vm_compute in H.
Qed.

Lemma startsWith_export s :
  includesChar space s = false -> startsWith "export " s = false.
Proof.
  unfold includesChar, startsWith. intros H.
  destruct s as [|c0 [|c1 [|c2 [|c3 [|c4 [|c5 [|c6 s]]]]]]]; try reflexivity;
    cbn [String.prefix];
    repeat (match goal with
            | |- context [ascii_dec ?a ?b] =>
                destruct (ascii_dec a b) as [<-|]; [|reflexivity]
            end);
    try reflexivity.
  by vm_compute in H.
Qed.

(** X14. A line [export NAME=text] records, among the exports, the text
    under the name, after one pair of quotes around the text is removed
    and the references to variables in it are expanded, single quotes or
    not. A line [NAME=text] without space records the same among the
    variables. The name holds no white space, quote, backslash or equals
    sign, and the text no white space at its ends. For the name
    [__proto__] the assignment changes nothing, and the line leaves the
    record as it is. *)
Theorem parseLine_assignment (env : gmap string string) (name value : string)
  (config : rcdata) :
  plainName name = true -> isTrimmed value ->
  let recorded (target : gmap string string) :=
    if String.eqb name "__proto__" then target
    else <[name := expandVariables env (unquote value)]> target in
  parseLine env ("export " +:+ name +:+ String "=" value) config
  = {| variables := variables config; aliases := aliases config;
       exports := recorded (exports config);
       raw := raw config |}
  /\ (includesChar space value = false ->
      parseLine env (name +:+ String "=" value) config
      = {| variables := recorded (variables config);
           aliases := aliases config; exports := exports config;
           raw := raw config |})
  /\ (name = "__proto__" ->
      parseLine env ("export " +:+ name +:+ String "=" value) config = config).
Proof.
  intros Hname Hvalue recorded.
  assert (parseLine env ("export " +:+ name +:+ String "=" value) config
          = {| variables := variables config; aliases := aliases config;
               exports := recorded (exports config);
               raw := raw config |}) as Hexport.
  { unfold parseLine.
    change (startsWith "alias " ("export " +:+ ?x)) with false.
    rewrite startsWith_app. unfold parseExport.
    change (substringFrom 7 ("export " +:+ ?x)) with x.
    rewrite trim_isTrimmed by (by apply assignment_isTrimmed).
    by rewrite parseAssignment_line. }
  split; [exact Hexport|]. split.
  - intros Hsp. unfold parseLine, parseVariable.
    pose proof Hname as Hn. apply andb_true_iff in Hn as [_ Hn].
    assert (includesChar space (name +:+ String "=" value) = false) as Hline.
    { unfold includesChar in *.
      replace (indexOf space (name +:+ String "=" value)) with (@None nat);
        [done|].
      symmetry. apply ObjectGenFacts.indexOf_None_app. split.
      - by apply nameChars_indexOf.
      - cbn [indexOf]. change (Ascii.eqb "=" space) with false.
        cbn match. by destruct (indexOf space value). }
    rewrite startsWith_alias, startsWith_export, Hline by done.
    assert (includesChar "=" (name +:+ String "=" value) = true) as ->.
    { unfold includesChar.
      by rewrite ObjectGenFacts.indexOf_app by (by apply nameChars_indexOf). }
    cbn [andb negb]. by rewrite parseAssignment_line.
  - intros Hproto. rewrite Hexport. subst recorded. cbn beta.
    rewrite Hproto. change (String.eqb "__proto__" "__proto__") with true.
    by destruct config.
Qed.

Lemma parseLine_assignment_witness :
  plainName "CLAUDE_CODE_TIMEOUT" = true /\ isTrimmed "300000"
  /\ exports (parseLine ∅ "export CLAUDE_CODE_TIMEOUT=300000"
                {| variables := ∅; aliases := ∅; exports := ∅; raw := [] |})
     = <[ "CLAUDE_CODE_TIMEOUT" := "300000" ]> ∅.
Proof.
  assert (isTrimmed "300000") as H by (split; by intros c [= <-]).
  split; [reflexivity|]. split; [exact H|].
  exact (f_equal exports
           (proj1 (parseLine_assignment ∅ "CLAUDE_CODE_TIMEOUT" "300000"
                     {| variables := ∅; aliases := ∅; exports := ∅;
                        raw := [] |} eq_refl H))).
Defined.

(** *** Text after the closing quote *)

Lemma parseAlias_assignment name value als :
  plainName name = true -> isTrimmed value ->
  parseAlias ("alias " +:+ name +:+ String "=" value) als
  = if nonEmpty (unquote value) then setProperty als name (unquote value)
    else als.
Proof.
  intros Hname Hvalue. unfold parseAlias.
  change (substringFrom 6 ("alias " +:+ ?x)) with x.
  rewrite trim_isTrimmed by (by apply assignment_isTrimmed).
  apply andb_true_iff in Hname as [Hne Hname].
  unfold findUnquotedChar. rewrite findUnquotedFrom_name by done.
  cbn [Nat.add]. rewrite substring_prefix, substringFrom_app, trim_name by done.
  by rewrite Hne, trim_isTrimmed.
Qed.

Lemma unquote_unclosed s :
  (forall c, lastChar s = Some c -> isQuote c = false) -> unquote s = s.
Proof.
  intros H. unfold unquote, endsWithChar.
  destruct (nonEmpty s); [|done]. cbn [negb].
  destruct (lastChar s) as [d|]; [|by rewrite !andb_false_r].
  specialize (H d eq_refl). unfold isQuote in H.
  apply orb_false_iff in H as [H1 H2].
  rewrite Ascii.eqb_sym in H1. rewrite Ascii.eqb_sym in H2.
  by rewrite H1, H2, !andb_false_r.
Qed.

(** X15. The parser of aliases knows no comment at the end of a line:
    when a text that ends with a character other than a quote or white
    space follows the closing quote, the expansion recorded is the whole
    right-hand side, quotes and trailing text included (for the name
    [__proto__], as always, nothing is recorded). The RC file that
    [createDefaultClaudeRC] proposes has such a line: its alias [quiet]
    expands to five arguments, of which only the first is the flag. *)
Theorem trailing_comment (env : gmap string string) (name text trail : string)
  (q d : ascii) (als : gmap string string) :
  plainName name = true -> isQuote q = true ->
  isWhiteSpace d = false -> isQuote d = false ->
  parseAlias
    ("alias " +:+ name
     +:+ String "=" (String q (text +:+ String q (trail +:+ String d ""))))
    als
  = (if String.eqb name "__proto__" then als
     else <[name := String q (text +:+ String q (trail +:+ String d ""))]>
            als)
  /\ aliases (parseClaudeRC env Defaults.createDefaultClaudeRC) !! "quiet"
     = Some (Defaults.quoted "-p" +:+ "  # Print mode only")
  /\ Tokenizer.args
       (parseCommand ("dummy " +:+ Defaults.quoted "-p"
                      +:+ "  # Print mode only"))
     = ["-p"; "#"; "Print"; "mode"; "only"].
Proof.
  intros Hname Hq Hws Hd. split; [|split].
  - set (value := String q (text +:+ String q (trail +:+ String d ""))).
    assert (forall c, lastChar value = Some c -> c = d) as Hlast.
    { intros c. subst value.
      change (String q (text +:+ String q (trail +:+ String d "")))
        with (String q text +:+ String q (trail +:+ String d "")).
      rewrite lastChar_app.
      change (String q (trail +:+ String d ""))
        with (String q trail +:+ String d "").
      rewrite lastChar_app. by intros [= <-]. }
    rewrite parseAlias_assignment; [|done|].
    + rewrite unquote_unclosed; [done|].
      intros c Hc. by rewrite (Hlast c Hc).
    + split.
      * subst value. intros c [= <-]. by apply isQuote_notWhiteSpace.
      * intros c Hc. by rewrite (Hlast c Hc).
  - vm_compute. reflexivity.
  - vm_compute. reflexivity.
Qed.

Lemma trailing_comment_witness :
  plainName "quiet" = true /\ isQuote dquote = true
  /\ isWhiteSpace "y" = false /\ isQuote "y" = false
  /\ parseAlias
       ("alias " +:+ "quiet"
        +:+ String "=" (String dquote ("-p" +:+ String dquote
                                         ("  # Print mode onl"
                                          +:+ String "y" ""))))
       ∅
     = <["quiet" := String dquote ("-p" +:+ String dquote
                                     ("  # Print mode onl"
                                      +:+ String "y" ""))]> ∅.
Proof.
  split; [reflexivity|]. split; [reflexivity|].
  split; [reflexivity|]. split; [reflexivity|].
  exact (proj1 (trailing_comment ∅ "quiet" "-p" "  # Print mode onl" dquote
                  "y" ∅ eq_refl eq_refl eq_refl eq_refl)).
Defined.

(** *** The file as a whole *)

Lemma parseLines_complete env lines : forall config,
  Forall (fun l => complete l = true) lines ->
  parseLines env config None lines
  = foldl (fun cfg l => parseLine env l cfg) config
      (filter (fun l => isStatement l = true) (trim <$> lines)).
Proof.
  induction lines as [|next rest IH]; intros config Hall; [done|].
  apply Forall_cons in Hall as [Hnext Hrest].
  unfold complete in Hnext. apply negb_true_iff in Hnext.
  cbn [parseLines fmap list_fmap]. rewrite Hnext.
  destruct (negb (nonEmpty (trim next)) || startsWith "#" (trim next)) eqn:E.
  - rewrite filter_cons_False; [by apply IH|].
    unfold isStatement. apply orb_true_iff in E as [E|E].
    + apply negb_true_iff in E. by rewrite E.
    + rewrite E. by rewrite andb_false_r.
  - rewrite filter_cons_True; [by apply IH|].
    unfold isStatement. apply orb_false_iff in E as [E1 E2].
    apply negb_false_iff in E1. by rewrite E1, E2.
Qed.

(** X16. When no line of the file ends with a backslash, [parseClaudeRC]
    reads the lines one after the other, each without the white space at
    its ends, and passes over the blank lines and the lines that start
    with a number sign: the result is that of [parseLine] applied in turn
    to the lines that remain, from the empty record. *)
Theorem parseClaudeRC_statements (env : gmap string string)
  (content : string) :
  Forall (fun l => complete l = true) (splitOn newline content) ->
  parseClaudeRC env content
  = foldl (fun cfg l => parseLine env l cfg)
      {| variables := ∅; aliases := ∅; exports := ∅; raw := [] |}
      (filter (fun l => isStatement l = true)
         (trim <$> splitOn newline content)).
Proof. intros H. unfold parseClaudeRC. by apply parseLines_complete. Qed.

Lemma parseClaudeRC_statements_witness :
  Forall (fun l => complete l = true)
    (splitOn newline Scenarios.rcContent)
  /\ parseClaudeRC ∅ Scenarios.rcContent
     = foldl (fun cfg l => parseLine ∅ l cfg)
         {| variables := ∅; aliases := ∅; exports := ∅; raw := [] |}
         (filter (fun l => isStatement l = true)
            (trim <$> splitOn newline Scenarios.rcContent)).
Proof.
  assert (Forall (fun l => complete l = true)
            (splitOn newline Scenarios.rcContent)) as H.
  { vm_compute. repeat constructor. }
  split; [exact H|].
  exact (parseClaudeRC_statements ∅ Scenarios.rcContent H).
Defined.

Lemma named_empty : named ∅.
Proof. intros key value H. by rewrite lookup_empty in H. Qed.

Lemma parseAssignment_named env content target :
  named target -> named (parseAssignment env content target).
Proof.
  intros Hn. unfold parseAssignment.
  destruct (indexOf _ _) as [equalsIndex|]; [|done].
  destruct (nonEmpty _) eqn:E; [|done].
  apply nonEmpty_true in E. intros key value Hkey.
  apply lookup_setProperty in Hkey as [[-> _]|Hkey]; [done|].
  by apply (Hn key value).
Qed.

Lemma parseLine_named env fullLine config :
  named (variables config) /\ named (exports config) ->
  named (variables (parseLine env fullLine config))
  /\ named (exports (parseLine env fullLine config)).
Proof.
  intros [Hv He]. unfold parseLine, parseExport, parseVariable.
  destruct (startsWith "alias " fullLine); [done|].
  destruct (startsWith "export " fullLine).
  { split; [done|]. by apply parseAssignment_named. }
  destruct (_ && _); [|done].
  split; [|done]. by apply parseAssignment_named.
Qed.

Lemma parseLines_named env lines : forall config pending,
  named (variables config) /\ named (exports config) ->
  named (variables (parseLines env config pending lines))
  /\ named (exports (parseLines env config pending lines)).
Proof.
  induction lines as [|next rest IH]; intros config pending H; simpl.
  - destruct pending; [by apply parseLine_named|done].
  - destruct pending as [fullLine|].
    + destruct (endsWithChar _ _); apply IH; [done|by apply parseLine_named].
    + destruct (_ || _); [by apply IH|].
      destruct (endsWithChar _ _); apply IH; [done|by apply parseLine_named].
Qed.

(** X17. Whatever the file holds, no entry that [parseClaudeRC] records
    has the empty string as its name, be it a variable, an export or an
    alias, and no alias has the empty string as its expansion; the value
    of a variable or export may be empty. *)
Theorem parseClaudeRC_entries (env : gmap string string) (content : string) :
  named (variables (parseClaudeRC env content))
  /\ named (exports (parseClaudeRC env content))
  /\ aliasesWellFormed (aliases (parseClaudeRC env content))
  /\ exists line,
       variables (parseClaudeRC env line) !! "model" = Some "".
Proof.
  destruct (parseLines_named env (splitOn newline content)
              {| variables := ∅; aliases := ∅; exports := ∅; raw := [] |}
              None) as [Hv He].
  { split; apply named_empty. }
  split; [exact Hv|]. split; [exact He|].
  split; [apply parseClaudeRC_aliases_wellFormed|].
  exists "model=". unfold parseClaudeRC.
  change (splitOn newline "model=") with ["model="].
  cbn [parseLines].
  change (trim "model=") with "model=".
  change (negb (nonEmpty "model=") || startsWith "#" "model=") with false.
  change (endsWithChar backslash "model=") with false.
  cbn match. unfold parseLine.
  change (startsWith "alias " "model=") with false.
  change (startsWith "export " "model=") with false.
  change (includesChar "=" "model=") with true.
  change (includesChar space "model=") with false.
  cbn [andb negb variables]. unfold parseVariable.
  assert (isTrimmed "") as Ht by (by split).
  pose proof (parseAssignment_line env "model" "" ∅ eq_refl Ht) as H.
  change ("model" +:+ "=") with "model=" in H. rewrite H.
  rewrite setProperty_insert by done. by rewrite lookup_insert_eq.
Qed.

(** *** Aliases in a command *)

Lemma splitStep_plain ps cur c :
  isQuote c = false -> Ascii.eqb c space = false ->
  splitStep {| sparts := ps; scurrent := cur; sinQuote := false;
               squoteChar := None |} c
  = {| sparts := ps; scurrent := push cur c; sinQuote := false;
       squoteChar := None |}.
Proof. intros Hq Hs. unfold splitStep. cbn. by rewrite Hq, Hs. Qed.

Lemma splitStep_space ps cur :
  nonEmpty cur = true ->
  splitStep {| sparts := ps; scurrent := cur; sinQuote := false;
               squoteChar := None |} space
  = {| sparts := ps ++ [cur]; scurrent := ""; sinQuote := false;
       squoteChar := None |}.
Proof. intros Hne. unfold splitStep. cbn. by rewrite Hne. Qed.

Lemma splitFrom_unbroken w : forall ps cur rest,
  unbroken w = true ->
  splitFrom {| sparts := ps; scurrent := cur; sinQuote := false;
               squoteChar := None |} (w +:+ rest)
  = splitFrom {| sparts := ps; scurrent := cur +:+ w; sinQuote := false;
                 squoteChar := None |} rest.
Proof.
  induction w as [|c w IH]; intros ps cur rest Hw.
  - by rewrite app_nil_l, app_nil_r.
  - simpl in Hw. apply andb_true_iff in Hw as [Hc Hw].
    apply andb_true_iff in Hc as [Hq Hs]. apply negb_true_iff in Hq, Hs.
    rewrite app_cons. cbn [splitFrom]. rewrite splitStep_plain by done.
    rewrite IH by done. by rewrite app_push.
Qed.

(** The end of the splitting loop. *)
Lemma splitParts_eq command :
  splitParts command
  = let st := splitFrom {| sparts := []; scurrent := ""; sinQuote := false;
                           squoteChar := None |} command in
    if nonEmpty (scurrent st) then sparts st ++ [scurrent st] else sparts st.
Proof. reflexivity. Qed.

Lemma splitFrom_words ws : forall ps,
  Forall (fun w => plainPart w = true) ws ->
  let st := splitFrom {| sparts := ps; scurrent := ""; sinQuote := false;
                         squoteChar := None |} (join " " ws) in
  (if nonEmpty (scurrent st) then sparts st ++ [scurrent st] else sparts st)
  = ps ++ ws.
Proof.
  induction ws as [|w ws IH]; intros ps Hws.
  - simpl. by rewrite List.app_nil_r.
  - apply Forall_cons in Hws as [Hw Hws].
    apply andb_true_iff in Hw as [Hne Hw].
    destruct ws as [|w' ws].
    + cbn [join String.concat].
      assert (splitFrom {| sparts := ps; scurrent := ""; sinQuote := false;
                           squoteChar := None |} w
              = {| sparts := ps; scurrent := w; sinQuote := false;
                   squoteChar := None |}) as ->.
      { rewrite <-(app_nil_r w) at 1.
        rewrite splitFrom_unbroken by done. by rewrite app_nil_l. }
      cbn zeta. cbn [scurrent sparts]. by rewrite Hne.
    + change (join " " (w :: w' :: ws))
        with (w +:+ String space (join " " (w' :: ws))).
      rewrite splitFrom_unbroken by done. rewrite app_nil_l.
      cbn [splitFrom]. rewrite splitStep_space by done.
      specialize (IH (ps ++ [w]) Hws). cbn zeta in IH. rewrite IH.
      by rewrite <-(assoc_L (++)).
Qed.

Lemma splitStep_inside ps cur q c :
  isQuote q = true -> Ascii.eqb c q = false ->
  splitStep {| sparts := ps; scurrent := cur; sinQuote := true;
               squoteChar := Some q |} c
  = {| sparts := ps; scurrent := push cur c; sinQuote := true;
       squoteChar := Some q |}.
Proof.
  intros Hq Hc. unfold splitStep. cbn.
  rewrite Hc. by rewrite !andb_false_r.
Qed.

Lemma splitFrom_inside body : forall ps cur q rest,
  isQuote q = true -> indexOf q body = None ->
  splitFrom {| sparts := ps; scurrent := cur; sinQuote := true;
               squoteChar := Some q |} (body +:+ rest)
  = splitFrom {| sparts := ps; scurrent := cur +:+ body; sinQuote := true;
                 squoteChar := Some q |} rest.
Proof.
  induction body as [|c body IH]; intros ps cur q rest Hq Hb.
  - by rewrite app_nil_l, app_nil_r.
  - cbn [indexOf] in Hb. destruct (Ascii.eqb c q) eqn:Hc; [done|].
    apply fmap_None in Hb.
    rewrite app_cons. cbn [splitFrom]. rewrite splitStep_inside by done.
    rewrite IH by done. by rewrite app_push.
Qed.

Lemma splitParts_quoted q body :
  isQuote q = true -> indexOf q body = None ->
  splitParts (String q (body +:+ String q ""))
  = [String q (body +:+ String q "")].
Proof.
  intros Hq Hb. rewrite splitParts_eq. cbn [splitFrom].
  assert (splitStep {| sparts := []; scurrent := ""; sinQuote := false;
                       squoteChar := None |} q
          = {| sparts := []; scurrent := String q ""; sinQuote := true;
               squoteChar := Some q |}) as ->.
  { unfold splitStep. cbn. by rewrite Hq. }
  rewrite splitFrom_inside by done. cbn [splitFrom].
  assert (splitStep {| sparts := []; scurrent := String q "" +:+ body;
                       sinQuote := true; squoteChar := Some q |} q
          = {| sparts := []; scurrent := push (String q "" +:+ body) q;
               sinQuote := false; squoteChar := None |}) as ->.
  { unfold splitStep. cbn. by rewrite Hq, Ascii.eqb_refl. }
  cbn zeta. cbn [scurrent sparts]. rewrite push_nonEmpty.
  unfold push. by rewrite app_cons, app_nil_l.
Qed.

(** X18. Without aliases [applyAliases] returns the command as it is. With
    aliases, every word of a command made of words without quote,
    separated by single spaces, is replaced by what the read
    [aliases[word]] gives when that counts as true, the first word and the
    later ones alike; and a command that is one quoted text is replaced
    when the read of the text without its quotes counts as true. The read
    gives the expansion of the alias of that name when there is one. When
    there is none, it gives the member that the object inherits under that
    name, if any, and the word is replaced by the text of that member: the
    word [constructor] becomes the text of a function. *)
Theorem applyAliases_words (als : gmap string string) :
  let read word :=
    match als !! word with
    | Some expansion => if nonEmpty expansion then Some expansion else None
    | None => if inherited word then Some (text (Inherited word)) else None
    end in
  (forall command, applyAliases command ∅ = command)
  /\ (als <> ∅ ->
      (forall ws, Forall (fun w => plainPart w = true) ws ->
         applyAliases (join " " ws) als
         = join " " ((fun w => default w (read w)) <$> ws))
      /\ (forall q body, isQuote q = true -> indexOf q body = None ->
            applyAliases (String q (body +:+ String q "")) als
            = default (String q (body +:+ String q "")) (read body))
      /\ (als !! "constructor" = None ->
          applyAliases "constructor" als
          = "function Object() { [native code] }")).
Proof.
  intros read.
  assert (forall w, lookupTruthy als w = read w) as Hread
    by (intros w; apply lookupTruthy_read).
  split; [done|]. intros Hals.
  assert (forall ws, Forall (fun w => plainPart w = true) ws ->
            applyAliases (join " " ws) als
            = join " " ((fun w => default w (read w)) <$> ws)) as Hwords.
  { intros ws Hws. unfold applyAliases.
    rewrite bool_decide_eq_false_2 by done. rewrite splitParts_eq.
    pose proof (splitFrom_words ws [] Hws) as H. cbn zeta in H.
    cbn zeta. rewrite H. cbn [app]. f_equal.
    apply Forall_fmap_ext_1. eapply Forall_impl; [exact Hws|].
    intros w Hw. unfold expandPart.
    apply andb_true_iff in Hw as [Hne Hw].
    destruct w as [|c w]; [done|]. simpl in Hw.
    apply andb_true_iff in Hw as [Hc _]. apply andb_true_iff in Hc as [Hc _].
    apply negb_true_iff in Hc. rewrite unquote_other by done.
    rewrite Hread. by destruct (read _). }
  split; [exact Hwords|]. split.
  - intros q body Hq Hb. unfold applyAliases.
    rewrite bool_decide_eq_false_2 by done.
    rewrite splitParts_quoted by done.
    cbn [fmap list_fmap]. unfold expandPart.
    rewrite unquote_quoted by done.
    rewrite Hread. by destruct (read body).
  - intros Hc.
    assert (Forall (fun w => plainPart w = true) ["constructor"]) as Hws
      by (repeat constructor).
    change "constructor" with (join " " ["constructor"]) at 1.
    rewrite (Hwords _ Hws). cbn [fmap list_fmap]. subst read. cbn beta.
    by rewrite Hc.
Qed.

Lemma applyAliases_words_witness :
  aliases Scenarios.rcFile <> ∅
  /\ Forall (fun w => plainPart w = true) ["claude"; "fast"]
  /\ applyAliases (join " " ["claude"; "fast"]) (aliases Scenarios.rcFile)
     = "claude --model haiku --verbose"
  /\ applyAliases "constructor" (aliases Scenarios.rcFile)
     = "function Object() { [native code] }".
Proof.
  assert (aliases Scenarios.rcFile <> ∅) as Hne.
  { intros H. apply (f_equal (fun m => m !! "fast")) in H.
    vm_compute in H. discriminate H. }
  assert (Forall (fun w => plainPart w = true) ["claude"; "fast"]) as Hws
    by (repeat constructor).
  split; [exact Hne|]. split; [exact Hws|].
  destruct (proj2 (applyAliases_words (aliases Scenarios.rcFile)) Hne)
    as (Hwords & _ & Hmember).
  split; [|exact (Hmember eq_refl)].
  rewrite (Hwords _ Hws). vm_compute. reflexivity.
Defined.

End ClaudeRCMore.

(** ** The execution of the command *)
Module ExecutorMore.
Import Js JsFacts Tokenizer ClaudeRC Provider Executor ExecutorFacts Streams.

(** *** The synchronous part *)

(** The [finally] block never throws. *)
Lemma finallyBlock_ok sy s : (finallyBlock sy s).1 = Ok ().
Proof.
  unfold finallyBlock, bind, getTempFile.
  destruct (truthy (tempFile s)); [|done].
  unfold tryCatch. by destruct (unlinkSync sy _ s) as [[[]|e] s'].
Qed.

(** It removes at most the file named by [tempFile]. *)
Lemma finallyBlock_files sy s :
  tempFile s = None -> files (finallyBlock sy s).2 = files s.
Proof. intros Ht. unfold finallyBlock, bind, getTempFile. by rewrite Ht. Qed.

Lemma finallyBlock_env sy s : env (finallyBlock sy s).2 = env s.
Proof.
  unfold finallyBlock, bind, getTempFile.
  destruct (truthy (tempFile s)); [|done].
  unfold tryCatch, unlinkSync.
  destruct (unlinkFails sy _); [done|].
  by destruct (files s !! _).
Qed.

Lemma tryBlock_env sy input pc s : env (tryBlock sy input pc s).2 = env s.
Proof.
  destruct pc as [cmd|]; [|done].
  unfold tryBlock, bind, getEnv, throw. cbn.
  destruct (canExecute sy (executable cmd)); cbn; [|done].
  unfold writeFileSync. by destruct (writeFails sy (tempFileOf sy)).
Qed.

Lemma prepare_ok w options s : exists pc, (prepare w options s).1 = Ok pc.
Proof.
  unfold prepare. destruct (getRCConfig w (env s) (self s)) as [rcConfig pr1].
  destruct (getClaudeCommandParsed w _ options pr1) as [pc pr2].
  by exists pc.
Qed.

Lemma prepare_tempFile w options s : tempFile (prepare w options s).2 = None.
Proof.
  unfold prepare. destruct (getRCConfig w (env s) (self s)) as [rcConfig pr1].
  by destruct (getClaudeCommandParsed w _ options pr1).
Qed.

Lemma prepare_env w options s :
  env (prepare w options s).2
  = mergeRCEnvironment (getRCConfig w (env s) (self s)).1 (env s).
Proof.
  unfold prepare. destruct (getRCConfig w (env s) (self s)) as [rcConfig pr1].
  by destruct (getClaudeCommandParsed w _ options pr1).
Qed.

(** The function hands on what its [try] block returns or throws. *)
Lemma executeClaudeCode_try w sy input options s pc :
  (prepare w options s).1 = Ok pc ->
  (executeClaudeCode w sy input options s).1
  = (tryBlock sy input pc (prepare w options s).2).1
  /\ (executeClaudeCode w sy input options s).2
     = (finallyBlock sy (tryBlock sy input pc (prepare w options s).2).2).2.
Proof.
  intros Hp. unfold executeClaudeCode, bind.
  destruct (prepare w options s) as [r1 s1]. cbn in Hp. subst r1. cbn [snd].
  unfold tryFinally, tryCatch.
  destruct (tryBlock sy input pc s1) as [r2 s2]. cbn [fst snd].
  assert ((match r2 with
           | Ok a => (Ok a, s2)
           | Throw e => throw e s2
           end) = (r2, s2)) as -> by (by destruct r2).
  pose proof (finallyBlock_ok sy s2) as Hf.
  destruct (finallyBlock sy s2) as [r3 s3]. cbn in Hf. by subst r3.
Qed.




Lemma tryBlock_none sy input s :
  tryBlock sy input None s = (Throw (Error notFoundMessage), s).
Proof. reflexivity. Qed.

Lemma tryBlock_refused sy input cmd s :
  canExecute sy (executable cmd) = false ->
  tryBlock sy input (Some cmd) s
  = (Throw (Error (notExecutableMessage (executable cmd))), s).
Proof.
  intros Hx. unfold tryBlock, bind, getEnv, throw. cbn. by rewrite Hx.
Qed.

(** X20. The failures before the child is started. Without a resolved
    command the function throws the installation notice; with an
    executable that fails the access check it throws the notice that names
    the executable; in both cases no file is written or removed. When the
    prompt cannot be written, the exception of the write is thrown as it
    is. *)
Theorem early_failures w sy input options s :
  ((prepare w options s).1 = Ok None ->
   (executeClaudeCode w sy input options s).1 = Throw (Error notFoundMessage)
   /\ files (executeClaudeCode w sy input options s).2 = files s)
  /\ (forall cmd,
        (prepare w options s).1 = Ok (Some cmd) ->
        canExecute sy (executable cmd) = false ->
        (executeClaudeCode w sy input options s).1
        = Throw (Error (notExecutableMessage (executable cmd)))
        /\ files (executeClaudeCode w sy input options s).2 = files s)
  /\ (forall cmd e,
        (prepare w options s).1 = Ok (Some cmd) ->
        canExecute sy (executable cmd) = true ->
        writeFails sy (tempFileOf sy) = Some e ->
        (executeClaudeCode w sy input options s).1 = Throw e).
Proof.
  pose proof (prepare_files w options s) as Hfiles.
  pose proof (prepare_tempFile w options s) as Htemp.
  split; [|split].
  - intros Hp.
    destruct (executeClaudeCode_try w sy input options s None Hp) as [-> ->].
    rewrite tryBlock_none. cbn [fst snd].
    split; [done|]. by rewrite finallyBlock_files.
  - intros cmd Hp Hx.
    destruct (executeClaudeCode_try w sy input options s _ Hp) as [-> ->].
    rewrite tryBlock_refused by done. cbn [fst snd].
    split; [done|]. by rewrite finallyBlock_files.
  - intros cmd e Hp Hx Hw.
    destruct (executeClaudeCode_try w sy input options s _ Hp) as [-> _].
    unfold tryBlock, bind, getEnv, throw. cbn. rewrite Hx. cbn.
    unfold writeFileSync. by rewrite Hw.
Qed.

Lemma early_failures_witness :
  (prepare Scenarios.bareWorld Scenarios.noParams
     {| env := ∅; files := ∅; self := newProvider; tempFile := None |}).1
  = Ok None
  /\ (executeClaudeCode Scenarios.bareWorld Scenarios.calmSystem "Human: Hi"
        Scenarios.noParams
        {| env := ∅; files := ∅; self := newProvider; tempFile := None |}).1
     = Throw (Error notFoundMessage).
Proof.
  assert ((prepare Scenarios.bareWorld Scenarios.noParams
             {| env := ∅; files := ∅; self := newProvider;
                tempFile := None |}).1 = Ok None) as H
    by (vm_compute; reflexivity).
  split; [exact H|].
  exact (proj1 (proj1 (early_failures Scenarios.bareWorld Scenarios.calmSystem
                         "Human: Hi" Scenarios.noParams _) H)).
Defined.

(** *** The environment *)

Lemma truthy_merged rcConfig env k :
  truthyValue (getProperty env k) = true ->
  truthyValue (getProperty (mergeRCEnvironment rcConfig env) k) = true.
Proof.
  intros H. rewrite (getProperty_lookup env); [done|].
  by rewrite mergeRCEnvironment_lookup, H.
Qed.

(** X21. Whatever its outcome, an invocation leaves in [process.env] the
    former environment completed by the exports of the RC file, for good:
    the variables stay after the call. Completing twice is completing
    once. *)
Theorem environment_after w sy input options s :
  env (executeClaudeCode w sy input options s).2
  = mergeRCEnvironment (getRCConfig w (env s) (self s)).1 (env s)
  /\ forall rcConfig e,
       mergeRCEnvironment rcConfig (mergeRCEnvironment rcConfig e)
       = mergeRCEnvironment rcConfig e.
Proof.
  split.
  - destruct (prepare_ok w options s) as [pc Hp].
    rewrite (proj2 (executeClaudeCode_try w sy input options s pc Hp)).
    by rewrite finallyBlock_env, tryBlock_env, prepare_env.
  - intros rcConfig e. apply map_eq. intros k.
    rewrite (mergeRCEnvironment_lookup rcConfig (mergeRCEnvironment _ _)).
    destruct (truthyValue (getProperty (mergeRCEnvironment rcConfig e) k))
      eqn:E1; [done|].
    destruct (rcConfig ≫= _) as [v|] eqn:E2; [|done].
    rewrite mergeRCEnvironment_lookup, E2.
    destruct (truthyValue (getProperty e k)) eqn:E3; [|done].
    by rewrite (truthy_merged rcConfig e k E3) in E1.
Qed.

(** *** The promise *)

Lemma handle_fixed r ev :
  program (handle r ev) = program r /\ arguments (handle r ev) = arguments r.
Proof. destruct ev; cbn; try done. by destruct (timerArmed r). Qed.

Lemma handle_settled r ev o :
  settled r = Some o -> settled (handle r ev) = Some o.
Proof.
  intros H. destruct ev; cbn; rewrite ?H; try done.
  destruct (timerArmed r); cbn; by rewrite ?H.
Qed.

Lemma deliver_settled evs : forall r o,
  settled r = Some o -> settled (deliver r evs) = Some o.
Proof.
  induction evs as [|ev evs IH]; intros r o H; [done|].
  apply (IH (handle r ev)). by apply handle_settled.
Qed.

(** What holds of the promise and its timer at every moment. *)
Lemma handle_invariant r ev :
  (settled r <> None -> timerArmed r = false) ->
  (childKilled r = true -> settled r = Some timedOut) ->
  (settled (handle r ev) <> None -> timerArmed (handle r ev) = false)
  /\ (childKilled (handle r ev) = true -> settled (handle r ev) = Some timedOut).
Proof.
  intros Ht Hk. destruct ev; cbn; try done.
  - split; [done|]. intros H. by rewrite (Hk H).
  - split; [done|]. intros H. by rewrite (Hk H).
  - destruct (timerArmed r) eqn:E; [|done]. cbn. split; [done|].
    intros _. destruct (settled r) as [o|]; [|done].
    by discriminate Ht.
Qed.

Lemma deliver_invariant evs : forall r,
  (settled r <> None -> timerArmed r = false) ->
  (childKilled r = true -> settled r = Some timedOut) ->
  (settled (deliver r evs) <> None -> timerArmed (deliver r evs) = false)
  /\ (childKilled (deliver r evs) = true ->
      settled (deliver r evs) = Some timedOut).
Proof.
  induction evs as [|ev evs IH]; intros r Ht Hk; [done|].
  destruct (handle_invariant r ev Ht Hk) as [Ht' Hk'].
  by apply (IH (handle r ev)).
Qed.

(** X22. Whatever events reach a child started by [executeClaudeCode],
    in whatever order: once the promise is settled the timer is cleared;
    the child is killed by the timer only, and then the promise is
    rejected with the notice of the timeout; and a settled promise keeps
    its outcome under all later events. *)
Theorem promise_invariants sy claudePath args (evs later : list event) :
  let r := deliver (startChild sy claudePath args) evs in
  (settled r <> None -> timerArmed r = false)
  /\ (childKilled r = true -> settled r = Some timedOut)
  /\ (forall o, settled r = Some o -> settled (deliver r later) = Some o).
Proof.
  intros r. subst r.
  destruct (deliver_invariant evs (startChild sy claudePath args)) as [Ht Hk].
  - unfold startChild. by destruct (spawnThrows sy).
  - unfold startChild. by destruct (spawnThrows sy).
  - split; [exact Ht|]. split; [exact Hk|].
    intros o. apply deliver_settled.
Qed.

Lemma deliver_data evs : forall r,
  Forall (fun ev => isData ev = true) evs ->
  deliver r evs
  = {| program := program r; arguments := arguments r;
       stdout := stdout r +:+ stdoutOf evs;
       stderr := stderr r +:+ stderrOf evs;
       timerArmed := timerArmed r; childKilled := childKilled r;
       settled := settled r |}.
Proof.
  induction evs as [|ev evs IH]; intros r Hall.
  - cbn. rewrite !app_nil_r. by destruct r.
  - apply Forall_cons in Hall as [Hev Hall].
    change (deliver r (ev :: evs)) with (deliver (handle r ev) evs).
    rewrite IH by done.
    destruct ev; try done; cbn; by rewrite app_assoc.
Qed.

Lemma deliver_app r evs later :
  deliver r (evs ++ later) = deliver (deliver r evs) later.
Proof. apply foldl_app. Qed.

Lemma deliver_cons r ev evs : deliver r (ev :: evs) = deliver (handle r ev) evs.
Proof. reflexivity. Qed.

(** X23. The chunks the child writes are put together in the order of
    their arrival, stream by stream; when the child then closes, the
    outcome is that of the close handler on the two texts, and the events
    that follow do not change it. *)
Theorem first_close_decides sy claudePath args (evs later : list event)
  (code : option Z) :
  spawnThrows sy = None ->
  Forall (fun ev => isData ev = true) evs ->
  settled (deliver (startChild sy claudePath args)
             (evs ++ Close code :: later))
  = Some (onClose code (stdoutOf evs) (stderrOf evs)).
Proof.
  intros Hs Hevs. rewrite deliver_app, deliver_cons.
  apply deliver_settled. rewrite deliver_data by done.
  unfold startChild. rewrite Hs. cbn. by rewrite !app_nil_l.
Qed.

Lemma first_close_decides_witness :
  spawnThrows Scenarios.calmSystem = None
  /\ Forall (fun ev => isData ev = true)
       [StdoutData " {"; StderrData "note"; StdoutData "} "]
  /\ settled (deliver (startChild Scenarios.calmSystem "/usr/bin/claude" ["-p"])
                ([StdoutData " {"; StderrData "note"; StdoutData "} "]
                 ++ Close (Some 0%Z) :: [TimerFired]))
     = Some (Resolved "{}").
Proof.
  assert (Forall (fun ev => isData ev = true)
            [StdoutData " {"; StderrData "note"; StdoutData "} "]) as H
    by (repeat constructor).
  split; [reflexivity|]. split; [exact H|].
  exact (first_close_decides Scenarios.calmSystem "/usr/bin/claude" ["-p"]
           _ [TimerFired] (Some 0%Z) eq_refl H).
Defined.

End ExecutorMore.

(** ** The generation of text and objects *)
Module GenerationMore.
Import Js JsFacts Tokenizer Provider Executor ObjectGen Generation.

Lemma join_snoc_pair sep l x y :
  join sep (l ++ [x; y]) = join sep (l ++ [x +:+ sep +:+ y]).
Proof.
  induction l as [|h [|h' t] IH]; [done..|].
  change (join sep ((h :: h' :: t) ++ [x; y]))
    with (h +:+ sep +:+ join sep ((h' :: t) ++ [x; y])).
  by rewrite IH.
Qed.

Lemma formatMessage_unknown r c :
  String.eqb r "system" = false -> String.eqb r "user" = false ->
  String.eqb r "assistant" = false ->
  formatMessage {| role := r; content := c |} = "".
Proof. intros H1 H2 H3. unfold formatMessage. cbn. by rewrite H1, H2, H3. Qed.

(** The prompt reads the array through the texts of its messages and the
    role of the last one. *)
Lemma formatPrompt_ext ms ms' :
  formatMessage <$> ms = formatMessage <$> ms' ->
  role <$> last ms = role <$> last ms' ->
  formatPrompt ms = formatPrompt ms'.
Proof.
  intros Hf Hl. unfold formatPrompt. rewrite Hf.
  destruct (last ms) as [m|], (last ms') as [m'|]; try done.
  cbn in Hl. injection Hl as ->. done.
Qed.

(** X24. The prompt of [generateText] holds the contents as they are, so
    it does not tell a message from a marker written inside a content: a
    user message followed by a system or user message gives the prompt of
    the one user message that holds both texts. And the content of a
    message whose role is none of system, user and assistant does not
    reach the prompt. *)
Theorem prompt_markers (ms ms' : list chatMessage) (r a c c' : string) :
  (r = "system" \/ r = "user" ->
   formatPrompt (ms ++ [ {| role := "user"; content := a |};
                         {| role := r; content := c |} ])
   = formatPrompt
       (ms ++ [ {| role := "user";
                   content := a +:+ nl +:+ nl
                              +:+ formatMessage {| role := r; content := c |}
                |} ]))
  /\ (String.eqb r "system" = false -> String.eqb r "user" = false ->
      String.eqb r "assistant" = false ->
      formatPrompt (ms ++ {| role := r; content := c |} :: ms')
      = formatPrompt (ms ++ {| role := r; content := c' |} :: ms')).
Proof.
  split.
  - intros Hr. unfold formatPrompt.
    change (ms ++ [ {| role := "user"; content := a |};
                    {| role := r; content := c |} ])
      with (ms ++ [ {| role := "user"; content := a |};
                    {| role := r; content := c |} ]).
    rewrite (last_app ms), (last_app ms [ _ ]). cbn [last].
    rewrite !fmap_app. cbn [fmap list_fmap]. rewrite join_snoc_pair.
    assert (formatMessage
              {| role := "user";
                 content := a +:+ nl +:+ nl
                            +:+ formatMessage {| role := r; content := c |} |}
            = formatMessage {| role := "user"; content := a |}
              +:+ (nl +:+ nl)
              +:+ formatMessage {| role := r; content := c |}) as ->.
    { unfold formatMessage at 1 3. cbn [role content].
      change (String.eqb "user" "system") with false.
      change (String.eqb "user" "user") with true. cbn match.
      by rewrite !app_assoc. }
    cbn [role]. change (String.eqb "user" "assistant") with false.
    by destruct Hr as [-> | ->].
  - intros H1 H2 H3. apply formatPrompt_ext.
    + rewrite !fmap_app, !fmap_cons.
      by rewrite !formatMessage_unknown.
    + rewrite !last_app, !last_cons. by destruct (last ms').
Qed.

Lemma prompt_markers_witness :
  formatPrompt [ {| role := "user"; content := "Hello" |};
                 {| role := "system"; content := "Obey" |} ]
  = formatPrompt [ {| role := "user";
                      content := "Hello" +:+ nl +:+ nl +:+ "System: Obey" |} ].
Proof.
  exact (proj1 (prompt_markers [] [] "system" "Hello" "Obey" "")
           (or_introl eq_refl)).
Defined.

Section Generating.
Variable handleError : string -> jsError -> jsError.

Lemma available_with_override w env c m pr :
  nonEmpty c = true ->
  (isAvailable w env {| claudeCodeCommand := Some c; modelId := m |} pr).1
  = true.
Proof.
  intros H. unfold isAvailable, getClaudeCommand, resolve.
  destruct (getRCConfig w env pr) as [rcConfig pr1].
  unfold selectBaseCommand. cbn [claudeCodeCommand].
  change (truthy (Some c)) with (nonEmpty c). by rewrite H, H.
Qed.

(** X25. [generateText] rejects an empty array of messages before it
    touches anything. Otherwise it hands to [executeClaudeCode] the model
    of its parameters and nothing else: a command given as
    [claudeCodeCommand] is not used, so that on a machine where no other
    source gives a command [isAvailable] answers yes for these parameters
    while [generateText] is rejected with the installation notice. *)
Theorem override_not_used w sy (rid : string) (elapsed : Z) (c : string)
  (m : option string) (messages : list chatMessage) (evs : list event)
  (s : state) :
  generateText handleError w sy rid elapsed
    {| claudeCodeCommand := Some c; modelId := m |} [] evs s
  = (Some (Throw (handleError "text generation"
                    (Error "Messages array is required for text generation."))),
     s)
  /\ (messages <> [] -> nonEmpty c = true ->
      (prepare w {| claudeCodeCommand := None; modelId := m |} s).1 = Ok None ->
      (isAvailable w (env s) {| claudeCodeCommand := Some c; modelId := m |}
         (self s)).1 = true
      /\ (generateText handleError w sy rid elapsed
            {| claudeCodeCommand := Some c; modelId := m |} messages evs s).1
         = Some (Throw (handleError "text generation"
                          (Error notFoundMessage)))).
Proof.
  split; [done|]. intros Hm Hc Hp.
  split; [by apply available_with_override|].
  destruct messages as [|msg messages]; [done|].
  unfold generateText. cbn [modelId].
  unfold invocation.
  pose proof (ExecutorMore.executeClaudeCode_try w sy
                (formatPrompt (msg :: messages))
                {| claudeCodeCommand := None; modelId := m |} s None Hp)
    as [H _].
  destruct (executeClaudeCode w sy _ _ s) as [r s']. cbn in H. subst r.
  done.
Qed.

Variable json : Type.
Variable JSON_parse : string -> json + string.

Lemma last_withInstruction objectName ms c :
  withInstruction objectName (ms ++ [ {| role := "user"; content := c |} ])
  = ms ++ [ {| role := "user"; content := c +:+ instruction objectName |} ].
Proof.
  unfold withInstruction. rewrite last_snoc. cbn [role content].
  change (String.eqb "user" "user") with true. cbn match.
  by rewrite removelast_last.
Qed.

(** X26. [generateObject] writes its instruction into the last message of
    the caller's array when that is a user message: the caller's array
    holds it after the call, and a second call with the same array sends
    the instruction twice. Every failure passes through [handleError]
    twice, first for the text generation, then for the object
    generation. *)
Theorem generateObject_effects w sy (rid textRid : string)
  (elapsed textElapsed : Z) (ps : params) (objectName : option string)
  (ms : list chatMessage) (c : string) (evs : list event) (s : state) :
  let name := default "object" objectName in
  let messages := ms ++ [ {| role := "user"; content := c |} ] in
  let first :=
    callGenerateObject handleError json JSON_parse w sy rid elapsed textRid
      textElapsed ps objectName messages evs s in
  callerMessages _ first
  = ms ++ [ {| role := "user"; content := c +:+ instruction name |} ]
  /\ (forall evs' s',
        callerMessages _
          (callGenerateObject handleError json JSON_parse w sy rid elapsed textRid
             textElapsed ps objectName (callerMessages _ first) evs' s')
        = ms ++ [ {| role := "user";
                     content := (c +:+ instruction name)
                                +:+ instruction name |} ])
  /\ (forall error,
        (invocation w sy (formatPrompt (callerMessages _ first))
           {| claudeCodeCommand := None; modelId := modelId ps |} evs s).1
        = Some (Rejected error) ->
        promise _ first
        = Some (Throw (handleError "object generation"
                         (handleError "text generation" error)))).
Proof.
  intros name messages first.
  assert (callerMessages _ first
          = ms ++ [ {| role := "user"; content := c +:+ instruction name |} ])
    as Hfirst.
  { subst first. unfold callGenerateObject.
    destruct (generateText _ _ _ _ _ _ _ _ _) as [answer s1]. cbn.
    apply last_withInstruction. }
  split; [exact Hfirst|]. split.
  - intros evs' s'. rewrite Hfirst. unfold callGenerateObject.
    destruct (generateText _ _ _ _ _ _ _ _ _) as [answer s1]. cbn.
    apply last_withInstruction.
  - intros error. rewrite Hfirst. subst first messages.
    unfold callGenerateObject. rewrite last_withInstruction.
    fold name. unfold generateText.
    destruct (ms ++ [ {| role := "user";
                         content := c +:+ instruction name |} ]) as [|m0 l] eqn:E.
    { by destruct ms. }
    destruct (invocation _ _ _ _ _ _) as [o s1]. cbn. by intros ->.
Qed.

End Generating.

Lemma override_not_used_witness :
  [ {| role := "user"; content := "Hi" |} ] <> []
  /\ nonEmpty "/opt/claude" = true
  /\ (prepare Scenarios.bareWorld
        {| claudeCodeCommand := None; modelId := None |}
        {| env := ∅; files := ∅; self := newProvider; tempFile := None |}).1
     = Ok None
  /\ (generateText (fun _ error => error) Scenarios.bareWorld
        Scenarios.calmSystem "id" 0
        {| claudeCodeCommand := Some "/opt/claude"; modelId := None |}
        [ {| role := "user"; content := "Hi" |} ] []
        {| env := ∅; files := ∅; self := newProvider; tempFile := None |}).1
     = Some (Throw (Error notFoundMessage)).
Proof.
  assert ([ {| role := "user"; content := "Hi" |} ] <> []) as H1 by done.
  assert ((prepare Scenarios.bareWorld
             {| claudeCodeCommand := None; modelId := None |}
             {| env := ∅; files := ∅; self := newProvider;
                tempFile := None |}).1 = Ok None) as H3
    by (vm_compute; reflexivity).
  split; [exact H1|]. split; [reflexivity|]. split; [exact H3|].
  exact (proj2 (proj2 (override_not_used (fun _ error => error)
                         Scenarios.bareWorld
                         Scenarios.calmSystem "id" 0 "/opt/claude" None
                         _ [] _) H1 eq_refl H3)).
Defined.

Lemma generateObject_effects_witness :
  (invocation Scenarios.bareWorld Scenarios.calmSystem
     (formatPrompt
        [ {| role := "user";
             content := "A user" +:+ instruction "object" |} ])
     {| claudeCodeCommand := None; modelId := None |} []
     {| env := ∅; files := ∅; self := newProvider; tempFile := None |}).1
  = Some (Rejected (Error notFoundMessage))
  /\ promise _
       (callGenerateObject (fun _ error => error) string inl Scenarios.bareWorld
          Scenarios.calmSystem "id" 0 "id" 0 Scenarios.noParams None
          [ {| role := "user"; content := "A user" |} ] []
          {| env := ∅; files := ∅; self := newProvider; tempFile := None |})
     = Some (Throw (Error notFoundMessage)).
Proof.
  assert ((invocation Scenarios.bareWorld Scenarios.calmSystem
             (formatPrompt
                [ {| role := "user";
                     content := "A user" +:+ instruction "object" |} ])
             {| claudeCodeCommand := None; modelId := None |} []
             {| env := ∅; files := ∅; self := newProvider;
                tempFile := None |}).1
          = Some (Rejected (Error notFoundMessage))) as H
    by (vm_compute; reflexivity).
  split; [exact H|].
  exact (proj2 (proj2 (generateObject_effects (fun _ error => error) string
                         inl Scenarios.bareWorld Scenarios.calmSystem "id"
                         "id" 0 0 Scenarios.noParams None [] "A user" []
                         {| env := ∅; files := ∅; self := newProvider;
                            tempFile := None |}))
           (Error notFoundMessage) H).
Defined.

End GenerationMore.

(** ** The validation of the setup *)
Module ValidationMore.
Import Js JsFacts Tokenizer TokenizerFacts Provider Executor Shapes Text.
Import Validation.

(** The string [getClaudeCommand] returns: the executable and the
    arguments, separated by spaces. *)
Lemma getClaudeCommand_join w env ps pr cmd :
  (getClaudeCommandParsed w env ps pr).1 = Some cmd ->
  (getClaudeCommand w env ps pr).1
  = Some (join " " (executable cmd :: args cmd)).
Proof.
  unfold getClaudeCommandParsed, getClaudeCommand.
  destruct (resolve w env ps pr) as [r pr']. cbn. intros ->.
  f_equal. destruct (args cmd); [by rewrite app_nil_r|done].
Qed.

(** X27. [validate] reads the executable back from the string of
    [getClaudeCommand], where the resolved executable and arguments stand
    separated by spaces. When none of them holds a space, quote or
    backslash, that gives the resolved command again. When the resolved
    executable holds a space, as a quoted path does, the executable that
    [validate] checks is the text before that space, not the executable
    that [executeClaudeCode] runs. *)
Theorem reparsed_command w env ps pr (cmd : parsed) :
  (getClaudeCommandParsed w env ps pr).1 = Some cmd ->
  (getClaudeCommand w env ps pr).1
  = Some (join " " (executable cmd :: args cmd))
  /\ (Forall (fun t => plainToken t = true) (executable cmd :: args cmd) ->
      parseCommand (join " " (executable cmd :: args cmd)) = cmd)
  /\ (forall a b, plainToken a = true ->
        executable cmd = a +:+ String space b ->
        executable (parseCommand (join " " (executable cmd :: args cmd)))
        = a).
Proof.
  intros H. split; [by apply getClaudeCommand_join|]. split.
  - intros Hplain.
    rewrite (parseCommand_cons _ (executable cmd) (args cmd));
      [by destruct cmd|].
    unfold tokens.
    by rewrite (TokenizerMore.scan_words _ initial eq_refl eq_refl eq_refl).
  - intros a b Ha ->.
    assert (exists rest, join " " ((a +:+ String space b) :: args cmd)
                         = a +:+ String space rest) as [rest ->].
    { destruct (args cmd) as [|x l].
      - by exists b.
      - exists (b +:+ " " +:+ join " " (x :: l)).
        change (join " " ((a +:+ String space b) :: x :: l))
          with ((a +:+ String space b) +:+ " " +:+ join " " (x :: l)).
        by rewrite app_assoc, app_cons. }
    by rewrite (parseCommand_cons _ a (tokens rest))
      by (by apply TokenizerMore.tokens_word).
Qed.

Lemma reparsed_command_witness :
  (getClaudeCommandParsed Scenarios.bareWorld Scenarios.sonnetEnv
     Scenarios.noParams newProvider).1
  = Some {| executable := "claude";
            args := ["--model"; "claude-3-5-sonnet"] |}
  /\ (getClaudeCommand Scenarios.bareWorld Scenarios.sonnetEnv
        Scenarios.noParams newProvider).1
     = Some "claude --model claude-3-5-sonnet".
Proof.
  assert ((getClaudeCommandParsed Scenarios.bareWorld Scenarios.sonnetEnv
             Scenarios.noParams newProvider).1
          = Some {| executable := "claude";
                    args := ["--model"; "claude-3-5-sonnet"] |}) as H
    by (vm_compute; reflexivity).
  split; [exact H|].
  exact (proj1 (reparsed_command _ _ _ _ _ H)).
Defined.

(** The test prompt when no command is resolved. *)
Lemma classify_notFound :
  classify (Error notFoundMessage)
  = {| type := UNKNOWN;
       errorText := "Claude Code error: " +:+ notFoundMessage;
       fixText := "Check Claude Code logs or try reinstalling" |}.
Proof. vm_compute. reflexivity. Qed.

(** X28. [validate] answers with no warning and at most one error, and
    with [isValid] exactly when there is no error. Its test prompt runs
    the command resolved without parameters: when the command that passed
    the two checks came from the parameters and no other source gives
    one, the answer is an error of type UNKNOWN that carries the
    installation notice. When the test prompt has not answered before the
    timer of the race, the error is of type SUBSCRIPTION. *)
Theorem validate_verdict w sy (accessSync : string -> accessResult)
  (ps : params) (evs : list event) (s : state) :
  let v := (validate w sy accessSync ps evs s).1 in
  let s1 := {| env := env s; files := files s;
               self := (getClaudeCommand w (env s) ps (self s)).2;
               tempFile := tempFile s |} in
  let test :=
    invocation w sy "Hi" {| claudeCodeCommand := None; modelId := None |}
      evs s1 in
  warnings v = [] /\ length (errors v) <= 1
  /\ (isValid v = true <-> errors v = [])
  /\ (forall command,
        (getClaudeCommand w (env s) ps (self s)).1 = Some command ->
        command <> "" ->
        accessSync (executable (parseCommand command)) = Accessible ->
        ((prepare w {| claudeCodeCommand := None; modelId := None |} s1).1
         = Ok None ->
         v = invalid
               {| type := UNKNOWN;
                  errorText := "Claude Code error: " +:+ notFoundMessage;
                  fixText := "Check Claude Code logs or try reinstalling" |})
        /\ (test.1 = None ->
            v = invalid
                  {| type := SUBSCRIPTION;
                     errorText :=
                       "Claude Code did not respond within 30 seconds";
                     fixText :=
                       "Ensure you have an active Claude PRO or MAX subscription"
                  |})).
Proof.
  intros v s1 test. subst v s1 test. unfold validate.
  destruct (getClaudeCommand w (env s) ps (self s)) as [command pr1].
  cbn [fst snd].
  destruct (truthy command) eqn:Et; cbn [negb].
  2:{ cbn. split; [done|]. split; [lia|]. split; [done|].
      intros c -> Hc. apply nonEmpty_true in Hc.
      change (truthy (Some c)) with (nonEmpty c) in Et. congruence. }
  destruct (accessSync (executable (parseCommand (default "" command))))
    as [|code accessMessage] eqn:Ea.
  2:{ cbn. split; [done|]. split; [lia|]. split; [done|].
      intros c -> _ Hx. cbn in Ea. congruence. }
  set (options := {| claudeCodeCommand := None; modelId := None |}).
  set (s1 := {| env := env s; files := files s; self := pr1;
                tempFile := tempFile s |}).
  assert (forall pc, (prepare w options s1).1 = Ok pc -> pc = None ->
            (invocation w sy "Hi" options evs s1).1
            = Some (Rejected (Error notFoundMessage))) as Hnone.
  { intros pc Hp ->. unfold invocation.
    pose proof (ExecutorMore.executeClaudeCode_try w sy "Hi" options s1 None
                  Hp) as [H _].
    destruct (executeClaudeCode w sy "Hi" options s1) as [r s2].
    cbn in H. by subst r. }
  destruct (invocation w sy "Hi" options evs s1) as [o s2] eqn:Ei.
  cbn [fst snd] in *.
  destruct o as [[text|error]|]; cbn.
  - split; [done|]. split; [lia|]. split; [done|].
    intros c _ _ _. split; [|done].
    intros Hp. by specialize (Hnone None Hp eq_refl).
  - split; [done|]. split; [lia|]. split; [done|].
    intros c _ _ _. split; [|done].
    intros Hp. specialize (Hnone None Hp eq_refl).
    injection Hnone as ->. by rewrite classify_notFound.
  - split; [done|]. split; [lia|]. split; [done|].
    intros c _ _ _. split; [|done].
    intros Hp. by specialize (Hnone None Hp eq_refl).
Qed.

Lemma validate_verdict_witness :
  (validate Scenarios.bareWorld Scenarios.calmSystem (fun _ => Accessible)
     {| claudeCodeCommand := Some "/opt/claude"; modelId := None |} []
     {| env := ∅; files := ∅; self := newProvider; tempFile := None |}).1
  = invalid
      {| type := UNKNOWN;
         errorText := "Claude Code error: " +:+ notFoundMessage;
         fixText := "Check Claude Code logs or try reinstalling" |}.
Proof.
  refine (proj1 (proj2 (proj2 (proj2
            (validate_verdict Scenarios.bareWorld Scenarios.calmSystem
               (fun _ => Accessible)
               {| claudeCodeCommand := Some "/opt/claude"; modelId := None |}
               []
               {| env := ∅; files := ∅; self := newProvider;
                  tempFile := None |})))
            "/opt/claude" _ _ _) _).
  - vm_compute. reflexivity.
  - discriminate.
  - reflexivity.
  - vm_compute. reflexivity.
Defined.

(** *** The reading of an exception *)

Lemma includesText_app_r needle a b :
  includesText needle b = true -> includesText needle (a +:+ b) = true.
Proof.
  intros H. induction a as [|c a IH]; [by rewrite app_nil_l|].
  rewrite app_cons. cbn [includesText]. rewrite IH. apply orb_true_r.
Qed.

Lemma untilStop_noStop s : indexOf "." (untilStop s) = None.
Proof.
  induction s as [|c s IH]; [done|]. cbn [untilStop].
  destruct (Ascii.eqb c ".") eqn:E; [done|].
  cbn [indexOf]. by rewrite E, IH.
Qed.

Lemma resetHere_group s group :
  resetHere s = Some group -> group <> "" /\ indexOf "." group = None.
Proof.
  unfold resetHere.
  destruct s as [|c1 [|c2 [|c3 [|c4 [|c5 rest]]]]]; try done.
  destruct (_ && _); [|done].
  match goal with
  | |- match ?t with _ => _ end = _ -> _ =>
      destruct t as [|sp1 [|a [|b [|sp2 tail]]]]; try done
  end.
  destruct (nonEmpty (untilStop tail)) eqn:E;
    [|by rewrite andb_false_r].
  destruct (_ && _); [|done].
  intros [= <-]. split; [by apply nonEmpty_true|apply untilStop_noStop].
Qed.

Lemma resetMatch_group s group :
  resetMatch s = Some group -> group <> "" /\ indexOf "." group = None.
Proof.
  induction s as [|c s IH].
  - cbn. done.
  - cbn [resetMatch]. destruct (resetHere (String c s)) as [g|] eqn:E.
    + intros [= <-]. by apply (resetHere_group (String c s)).
    + exact IH.
Qed.

(** X29. An exception of the test prompt whose message is not the word of
    the race timer and holds the words usage limit or rate limit gives an
    error of type SUBSCRIPTION, whatever else the message holds; its text
    is the fixed notice, followed, when the message tells when the limit
    resets, by that text up to the first full stop. So it is for a child
    that ends with a code other than zero after it wrote such words to
    its error stream. *)
Theorem limit_errors (error : jsError) (code : option Z)
  (stdout stderr : string) :
  (message error <> "TIMEOUT" ->
   includesText "usage limit" (message error)
   || includesText "rate limit" (message error) = true ->
   type (classify error) = SUBSCRIPTION
   /\ (errorText (classify error) = "Usage limit reached"
       \/ exists group,
            errorText (classify error)
            = "Usage limit reached" +:+ " (resets " +:+ group +:+ ")"
            /\ group <> "" /\ indexOf "." group = None))
  /\ (isZero code = false -> includesText "usage limit" stderr = true ->
      exists failure,
        onClose code stdout stderr = Rejected failure
        /\ type (classify failure) = SUBSCRIPTION).
Proof.
  assert (forall e, message e <> "TIMEOUT" ->
            includesText "usage limit" (message e)
            || includesText "rate limit" (message e) = true ->
            type (classify e) = SUBSCRIPTION
            /\ (errorText (classify e) = "Usage limit reached"
                \/ exists group,
                     errorText (classify e)
                     = "Usage limit reached" +:+ " (resets " +:+ group +:+ ")"
                     /\ group <> "" /\ indexOf "." group = None)) as Hlimit.
  { intros e Ht Hl. unfold classify, errorMessageOf.
    apply String.eqb_neq in Ht. rewrite Ht.
    destruct (nonEmpty (message e)) eqn:Hne.
    2:{ apply nonEmpty_false in Hne. rewrite Hne in Hl. by vm_compute in Hl. }
    rewrite Hl. cbn [type errorText]. split; [done|].
    destruct (resetMatch (message e)) as [group|] eqn:Hm.
    - right. exists group. split; [done|]. by apply (resetMatch_group _ _ Hm).
    - left. by rewrite app_nil_r. }
  split; [by apply Hlimit|].
  intros Hcode Hs. unfold onClose. rewrite Hcode. cbn [negb].
  eexists. split; [done|].
  apply Hlimit.
  - cbn [message]. done.
  - cbn [message]. apply orb_true_iff. left.
    rewrite <-!app_assoc. by apply includesText_app_r.
Qed.

Lemma limit_errors_witness :
  isZero (Some 1%Z) = false
  /\ includesText "usage limit" "Claude usage limit reached." = true
  /\ exists failure,
       onClose (Some 1%Z) "" "Claude usage limit reached." = Rejected failure
       /\ type (classify failure) = SUBSCRIPTION.
Proof.
  split; [reflexivity|]. split; [reflexivity|].
  exact (proj2 (limit_errors (Error "") (Some 1%Z) ""
                  "Claude usage limit reached.") eq_refl eq_refl).
Defined.

End ValidationMore.

(** ** The provider of claude-cli.js *)
Module ClaudeCliMore.
Import Js JsFacts Executor Text Generation ClaudeCli.

Lemma includesText_here needle b : includesText needle (needle +:+ b) = true.
Proof.
  destruct (needle +:+ b) eqn:E; cbn [includesText]; rewrite <-E;
    pose proof (ClaudeRCMore.startsWith_app needle b) as H;
    unfold startsWith in H; by rewrite H.
Qed.

(** X30. The command line of the second provider is the value of its
    variable, with [ -p] put after it unless the value holds the text
    [ -p] or [--print] anywhere: a value that holds neither gets the flag,
    a value that holds [ -p] is run as it is, and so is a value that holds
    [--print]. The line so made holds one of the two, and making it again
    changes nothing. The test looks for a text, not for an argument: a
    value with an argument that only starts with [-p] gets no flag. Its
    prompt leaves out the messages whose role is none of system, user and
    assistant. *)
Theorem cli_provider (command : string) (ms ms' : list chatMessage)
  (m : chatMessage) :
  nonEmpty command = true ->
  (exists line,
     commandLine (Some command) = Ok line
     /\ (line = command \/ line = command +:+ " -p")
     /\ includesText " -p" line || includesText "--print" line = true
     /\ commandLine (Some line) = Ok line)
  /\ (forall a b, commandLine (Some (a +:+ " -p" +:+ b))
                  = Ok (a +:+ " -p" +:+ b))
  /\ (forall a b, commandLine (Some (a +:+ "--print" +:+ b))
                  = Ok (a +:+ "--print" +:+ b))
  /\ (includesText " -p" command = false ->
      includesText "--print" command = false ->
      commandLine (Some command) = Ok (command +:+ " -p"))
  /\ (String.eqb (role m) "system" = false ->
      String.eqb (role m) "user" = false ->
      String.eqb (role m) "assistant" = false ->
      cliFormatPrompt (ms ++ m :: ms') = cliFormatPrompt (ms ++ ms')).
Proof.
  intros Hne.
  assert (forall c, nonEmpty c = true ->
            includesText " -p" c || includesText "--print" c = true ->
            commandLine (Some c) = Ok c) as Hkeep.
  { intros c Hc H. unfold commandLine.
    change (truthy (Some c)) with (nonEmpty c). rewrite Hc.
    change (default "" (Some c)) with c. cbn [negb].
    apply orb_true_iff in H as [-> | ->]; [done|by rewrite andb_false_r]. }
  assert (forall c, includesText " -p" c = false ->
            includesText "--print" c = false -> nonEmpty c = true ->
            commandLine (Some c) = Ok (c +:+ " -p")) as Hadd.
  { intros c H1 H2 Hc. unfold commandLine.
    change (truthy (Some c)) with (nonEmpty c). rewrite Hc.
    change (default "" (Some c)) with c. cbn [negb]. by rewrite H1, H2. }
  split; [|split; [|split; [|split]]].
  - destruct (includesText " -p" command || includesText "--print" command)
      eqn:E.
    + exists command. rewrite Hkeep by done. auto.
    + exists (command +:+ " -p").
      assert (includesText " -p" (command +:+ " -p") = true) as Hp.
      { apply ValidationMore.includesText_app_r. reflexivity. }
      split.
      * apply orb_false_iff in E as [E1 E2]. by apply Hadd.
      * split; [by right|]. split; [by rewrite Hp|].
        apply Hkeep; [|by rewrite Hp].
        apply nonEmpty_true. destruct command; [done|]. by rewrite app_cons.
  - intros a b. apply Hkeep.
    + apply nonEmpty_true. destruct a; [|by rewrite app_cons].
      rewrite app_nil_l. done.
    + apply orb_true_iff. left. apply ValidationMore.includesText_app_r.
      apply includesText_here.
  - intros a b. apply Hkeep.
    + apply nonEmpty_true. destruct a; [|by rewrite app_cons].
      rewrite app_nil_l. done.
    + apply orb_true_iff. right. apply ValidationMore.includesText_app_r.
      apply includesText_here.
  - intros H1 H2. by apply Hadd.
  - intros H1 H2 H3. unfold cliFormatPrompt. do 2 f_equal.
    rewrite !foldl_app. cbn [foldl]. f_equal.
    unfold appendMessage. by rewrite H1, H2, H3.
Qed.

Lemma cli_provider_witness :
  nonEmpty "claude --profile dev" = true
  /\ commandLine (Some "claude --profile dev") = Ok "claude --profile dev -p"
  /\ commandLine (Some ("claude" +:+ " -p" +:+ "rofile dev"))
     = Ok ("claude" +:+ " -p" +:+ "rofile dev")
  /\ commandLine (Some ("claude " +:+ "--print" +:+ ""))
     = Ok ("claude " +:+ "--print" +:+ "").
Proof.
  pose proof (cli_provider "claude --profile dev" [] []
                {| role := ""; content := "" |} eq_refl)
    as (_ & Hp & Hprint & Hadd & _).
  split; [reflexivity|]. split; [exact (Hadd eq_refl eq_refl)|].
  split; [exact (Hp "claude" "rofile dev")|exact (Hprint "claude " "")].
Defined.

End ClaudeCliMore.
